(** * rx-player: segment index, segment fetcher, ABR estimator,
      playback observer and track-choice manager

    A shallow embedding of the parts of the player that the properties below
    are about, each definition following the TypeScript source it names.

    Conventions.
    - A JavaScript [number] is an exact rational ([Q]); where the source
      relies on [Infinity] the type [num] adds it.  Integers produced by
      [Math.floor] / [Math.ceil] are [Z].  Arithmetic is exact: the rounding
      that ends every operation on binary64 numbers is not part of the
      definitions.  Where a result depends on the side of a segment boundary
      on which a rounded quotient falls, the theorems are stated for
      quantities in whole ticks ([isDouble], [isTickCount]), on which the
      operations of the source are exact (section Binary64 below).
    - [null] / [undefined] are constructors of small inductive types or
      [option]; a value that can be both uses a three-way type.
    - [performance.now()] is an input of the function that reads it.
    - Mutable objects that are shared (Period objects, the records of the
      track-choice store) are modelled by references into an explicit heap or
      by explicit state passing. *)

From Stdlib Require Import QArith Qround Qabs ZArith List String Bool Lia Lqa.
From Stdlib Require Import Morphisms.
From Stdlib Require Import Sorted.
Import ListNotations.

Local Open Scope Q_scope.

(* ================================================================== *)
(** * Numbers *)

Definition Qlt_bool (x y : Q) : bool := negb (Qle_bool y x).

Lemma Qlt_bool_iff x y : Qlt_bool x y = true <-> x < y.
Proof.
  unfold Qlt_bool. rewrite negb_true_iff.
  split; intro H.
  - apply Qnot_le_lt. intro Hle. apply Qle_bool_iff in Hle. congruence.
  - destruct (Qle_bool y x) eqn:E; [|reflexivity].
    apply Qle_bool_iff in E. exfalso. apply (Qlt_not_le _ _ H E).
Qed.

Lemma Qlt_bool_false x y : Qlt_bool x y = false <-> y <= x.
Proof.
  unfold Qlt_bool. rewrite negb_false_iff. apply Qle_bool_iff.
Qed.

Lemma Qle_bool_false x y : Qle_bool x y = false <-> y < x.
Proof.
  split; intro H.
  - apply Qnot_le_lt. intro Hle. apply Qle_bool_iff in Hle. congruence.
  - destruct (Qle_bool x y) eqn:E; [|reflexivity].
    apply Qle_bool_iff in E. exfalso. apply (Qlt_not_le _ _ H E).
Qed.

(** [Math.max] and [Math.min] on finite numbers. *)
Definition Math_max (x y : Q) : Q := if Qle_bool x y then y else x.
Definition Math_min (x y : Q) : Q := if Qle_bool x y then x else y.

Lemma Math_max_l x y : x <= Math_max x y.
Proof.
  unfold Math_max. destruct (Qle_bool x y) eqn:E.
  - now apply Qle_bool_iff. - apply Qle_refl.
Qed.


Lemma Math_min_l x y : Math_min x y <= x.
Proof.
  unfold Math_min. destruct (Qle_bool x y) eqn:E.
  - apply Qle_refl. - apply Qle_bool_false in E. now apply Qlt_le_weak.
Qed.

Lemma Math_min_r x y : Math_min x y <= y.
Proof.
  unfold Math_min. destruct (Qle_bool x y) eqn:E.
  - now apply Qle_bool_iff. - apply Qle_refl.
Qed.

(** A [number] that may be [Infinity]. *)
Inductive num : Type :=
| Finite (q : Q)
| Infinity.

(** [a > b] for a possibly infinite [a] and a finite [b]. *)
Definition num_gt (a : num) (b : Q) : bool :=
  match a with
  | Finite q => Qlt_bool b q
  | Infinity => true
  end.

(** [a <= b] for a possibly infinite [a] and a finite [b]. *)
Definition num_le (a : num) (b : Q) : bool := negb (num_gt a b).

(** [a >= b] for a possibly infinite [a] and a finite [b]. *)
Definition num_ge (a : num) (b : Q) : bool :=
  match a with
  | Finite q => Qle_bool b q
  | Infinity => true
  end.

(** [x / y >= bound]; a positive [x] over a zero [y] is [Infinity], a zero
    [x] over a zero [y] is [NaN]. *)
Definition ratio_ge (x y bound : Q) : bool :=
  if Qeq_bool y 0 then Qlt_bool 0 x else Qle_bool bound (x / y).

(** [isFinite]. *)
Definition isFinite (a : num) : bool :=
  match a with
  | Finite _ => true
  | Infinity => false
  end.


Lemma floor_div_lt x y : 0 < y -> x < (inject_Z (Qfloor (x / y)) + 1) * y.
Proof.
  intro Hy.
  assert (H := Qlt_floor (x / y)).
  assert (Hne : ~ y == 0) by (intro E; rewrite E in Hy; discriminate Hy).
  assert (E : x == (x / y) * y) by (field; exact Hne).
  rewrite E at 1.
  apply Qmult_lt_compat_r; [exact Hy|].
  rewrite inject_Z_plus in H. exact H.
Qed.

(** ** Binary64

    The numbers of the source are binary64 numbers.  The predicates below
    tell the quantities on which its arithmetic is exact, and the lemmas of
    section [Binary64] are the reason why [Math.floor] and [Math.ceil] of a
    quotient of such quantities are those of the exact quotient. *)

(** The rationals that a binary64 number can hold: in lowest terms, the
    denominator is a power of two not above [2 ^ 1074], the numerator has at
    most 53 significant bits, and the magnitude is below [2 ^ 1024]. *)
Definition isDouble (x : Q) : bool :=
  let r := Qred x in
  let n := Z.abs (Qnum r) in
  let den := Z.pos (Qden r) in
  (den =? 2 ^ Z.log2 den)%Z
  && (Z.log2 den <=? 1074)%Z
  && (n mod 2 ^ Z.max 0 (Z.log2 n - 52) =? 0)%Z
  && (Z.log2 n <=? 1023)%Z.

(** A whole number of ticks, of magnitude at most [2 ^ 49]: the sums and
    differences of a few of them are whole numbers below [2 ^ 52], which are
    computed without rounding. *)
Definition isTickCount (x : Q) : bool :=
  Qeq_bool x (inject_Z (Qfloor x)) && (Z.abs (Qfloor x) <=? 2 ^ 49)%Z.

(** [Math.floor] and [Math.ceil] by their bounds, and on a quotient of
    whole numbers. *)
Lemma Qfloor_unique (k : Z) (x : Q) :
  inject_Z k <= x -> x < inject_Z (k + 1) -> Qfloor x = k.
Proof.
  intros Hlo Hhi.
  assert (H1 : (k <= Qfloor x)%Z).
  { rewrite <- (Qfloor_Z k). now apply Qfloor_resp_le. }
  assert (H2 : (Qfloor x < k + 1)%Z).
  { rewrite Zlt_Qlt. eapply Qle_lt_trans; [apply Qfloor_le | exact Hhi]. }
  lia.
Qed.

Lemma Qceiling_unique (k : Z) (x : Q) :
  inject_Z (k - 1) < x -> x <= inject_Z k -> Qceiling x = k.
Proof.
  intros Hlo Hhi.
  assert (H1 : (Qceiling x <= k)%Z).
  { rewrite <- (Qceiling_Z k). now apply Qceiling_resp_le. }
  assert (H2 : (k - 1 < Qceiling x)%Z).
  { rewrite Zlt_Qlt. eapply Qlt_le_trans; [exact Hlo | apply Qle_ceiling]. }
  lia.
Qed.

Lemma Qfloor_quotient (a b : Z) :
  (0 < b)%Z -> Qfloor (inject_Z a / inject_Z b) = (a / b)%Z.
Proof.
  intro Hb.
  assert (HbQ : 0 < inject_Z b) by (change 0 with (inject_Z 0); rewrite <- Zlt_Qlt; exact Hb).
  apply Qfloor_unique.
  - apply Qle_shift_div_l; [exact HbQ|]. rewrite <- inject_Z_mult, <- Zle_Qle.
    rewrite Z.mul_comm. apply Z.mul_div_le. exact Hb.
  - apply Qlt_shift_div_r; [exact HbQ|]. rewrite <- inject_Z_mult, <- Zlt_Qlt.
    assert (H := Z.mul_succ_div_gt a b Hb). lia.
Qed.

(** A fraction in lowest terms is left as it is by [Qred]. *)
Lemma Qred_coprime (n : Z) (d : positive) :
  Z.gcd n (Z.pos d) = 1%Z -> Qred (n # d) = (n # d).
Proof.
  intro Hg. unfold Qred.
  assert (Hc := Z.ggcd_correct_divisors n (Z.pos d)).
  assert (Hf := Z.ggcd_gcd n (Z.pos d)).
  destruct (Z.ggcd n (Z.pos d)) as [g [n' d']]. cbn [fst snd] in *.
  rewrite Hg in Hf. subst g. destruct Hc as [Hn Hd].
  rewrite Z.mul_1_l in Hn, Hd. subst n'. rewrite <- Hd. reflexivity.
Qed.

(** An odd numerator of at most 53 bits over a power of two is a binary64
    number, and so is a whole number of at most 53 bits. *)
Lemma isDouble_dyadic (j m : Z) :
  (Z.abs j < 2 ^ 53)%Z -> (0 <= m <= 1074)%Z -> Z.odd j = true \/ m = 0%Z ->
  isDouble (j # Z.to_pos (2 ^ m)) = true.
Proof.
  intros Hj Hm Hodd.
  assert (Hpow : (0 < 2 ^ m)%Z) by (apply Z.pow_pos_nonneg; lia).
  assert (Hden : Z.pos (Z.to_pos (2 ^ m)) = (2 ^ m)%Z) by (apply Z2Pos.id; exact Hpow).
  assert (Hred : Qred (j # Z.to_pos (2 ^ m)) = (j # Z.to_pos (2 ^ m))).
  { apply Qred_coprime. rewrite Hden.
    destruct Hodd as [Hodd | ->]; [|apply Z.gcd_1_r].
    apply Z.coprime_pow_r; [lia|]. unfold Z.coprime.
    assert (Hg : (Z.gcd j 2 | 2)%Z) by apply Z.gcd_divide_r.
    assert (Hg0 : (0 <= Z.gcd j 2)%Z) by apply Z.gcd_nonneg.
    assert (Hle : (Z.gcd j 2 <= 2)%Z) by (apply Z.divide_pos_le; [lia | exact Hg]).
    assert (Hne0 : Z.gcd j 2 <> 0%Z).
    { intro E. apply Z.gcd_eq_0_r in E. discriminate E. }
    assert (Hne2 : Z.gcd j 2 <> 2%Z).
    { intro E. assert (Hd : (2 | j)%Z) by (rewrite <- E; apply Z.gcd_divide_l).
      destruct Hd as [c Hc]. rewrite Hc, Z.mul_comm, Z.odd_mul in Hodd.
      discriminate Hodd. }
    lia. }
  unfold isDouble. rewrite Hred. cbn [Qnum Qden]. rewrite Hden.
  rewrite Z.log2_pow2 by lia.
  assert (Hlog : (Z.log2 (Z.abs j) <= 52)%Z).
  { destruct (Z.eq_dec (Z.abs j) 0) as [->|Hne]; [cbn; lia|].
    assert (Z.log2 (Z.abs j) < 53)%Z by (apply Z.log2_lt_pow2; lia). lia. }
  rewrite Z.max_l by lia. rewrite Z.mod_1_r.
  rewrite Z.eqb_refl. cbn [andb].
  repeat rewrite andb_true_iff. repeat split; apply Z.leb_le; lia.
Qed.

(** A whole number of less than 53 bits is a binary64 number. *)
Lemma isDouble_whole (k : Z) : (Z.abs k < 2 ^ 53)%Z -> isDouble (inject_Z k) = true.
Proof.
  intro H. change (inject_Z k) with (k # Z.to_pos (2 ^ 0)).
  apply (isDouble_dyadic k 0); [exact H | lia | now right].
Qed.

Lemma isTickCount_spec (x : Q) :
  isTickCount x = true <->
  exists k : Z, x == inject_Z k /\ (Z.abs k <= 2 ^ 49)%Z.
Proof.
  unfold isTickCount. rewrite andb_true_iff, Z.leb_le. split.
  - intros [E H]. apply Qeq_bool_iff in E. now exists (Qfloor x).
  - intros (k & E & H).
    assert (Ek : Qfloor x = k) by (rewrite (Qfloor_comp _ _ E); apply Qfloor_Z).
    rewrite Ek. split; [apply Qeq_bool_iff; exact E | exact H].
Qed.

(** A whole number of ticks is a binary64 number. *)
Lemma isTickCount_isDouble (x : Q) : isTickCount x = true -> isDouble x = true.
Proof.
  unfold isTickCount. rewrite andb_true_iff. intros [E Hsize].
  apply Qeq_bool_iff in E. apply Z.leb_le in Hsize.
  unfold isDouble. rewrite (Qred_complete _ _ E).
  apply isDouble_whole. lia.
Qed.

(** What [isDouble] tells of the number in lowest terms. *)
Lemma isDouble_spec (x : Q) :
  isDouble x = true ->
  exists (n m : Z), (0 <= m)%Z /\ x == inject_Z n / inject_Z (2 ^ m).
Proof.
  unfold isDouble. rewrite !andb_true_iff.
  intros [[[Hden _] _] _]. apply Z.eqb_eq in Hden.
  exists (Qnum (Qred x)), (Z.log2 (Z.pos (Qden (Qred x)))).
  split; [apply Z.log2_nonneg|].
  rewrite <- Hden, <- Qmake_Qdiv.
  destruct (Qred x) as [n d] eqn:E. cbn [Qnum Qden].
  rewrite <- E. symmetry. apply Qred_correct.
Qed.

(** Cross products. *)
Lemma Qdiv_eq_cross (a b c d : Z) :
  (0 < b)%Z -> (0 < d)%Z ->
  inject_Z a / inject_Z b == inject_Z c / inject_Z d -> (a * d = c * b)%Z.
Proof.
  intros Hb Hd. destruct b as [|pb|pb]; try lia. destruct d as [|pd|pd]; try lia.
  unfold Qeq, Qdiv, Qmult, Qinv. cbn. intro H. lia.
Qed.

Lemma Qdiv_le_cross (a b j c : Z) :
  (0 < b)%Z -> (0 < c)%Z -> (a * c <= j * b)%Z ->
  inject_Z a / inject_Z b <= inject_Z j / inject_Z c.
Proof.
  intros Hb Hc H.
  assert (HbQ : 0 < inject_Z b) by (change 0 with (inject_Z 0); rewrite <- Zlt_Qlt; exact Hb).
  assert (HcQ : 0 < inject_Z c) by (change 0 with (inject_Z 0); rewrite <- Zlt_Qlt; exact Hc).
  apply Qle_shift_div_r; [exact HbQ|].
  assert (E : inject_Z j / inject_Z c * inject_Z b
              == inject_Z (j * b) / inject_Z c).
  { rewrite inject_Z_mult. field. intro Z0. rewrite Z0 in HcQ. discriminate HcQ. }
  rewrite E. apply Qle_shift_div_l; [exact HcQ|].
  rewrite <- inject_Z_mult, <- Zle_Qle. exact H.
Qed.

(** A divisor of a power of two is a power of two. *)
Lemma divisor_of_power_of_two (m : nat) (q : Z) :
  (0 < q)%Z -> (q | 2 ^ Z.of_nat m)%Z -> exists j : Z, (0 <= j)%Z /\ q = (2 ^ j)%Z.
Proof.
  revert q. induction m as [|m IH]; intros q Hq Hdiv.
  - exists 0%Z. split; [lia|]. cbn in Hdiv.
    apply Z.divide_1_r_nonneg in Hdiv; lia.
  - rewrite Nat2Z.inj_succ, Z.pow_succ_r in Hdiv by lia.
    destruct (Z.even q) eqn:Ev.
    + apply Z.even_spec in Ev. destruct Ev as [q' ->].
      apply Z.mul_divide_cancel_l in Hdiv; [|lia].
      destruct (IH q' ltac:(lia) Hdiv) as (j & Hj & ->).
      exists (Z.succ j). split; [lia|]. now rewrite Z.pow_succ_r.
    + apply IH; [exact Hq|]. apply (Z.gauss q 2); [exact Hdiv|].
      assert (Hg : (Z.gcd q 2 | 2)%Z) by apply Z.gcd_divide_r.
      assert (Hg0 : (0 <= Z.gcd q 2)%Z) by apply Z.gcd_nonneg.
      assert (Hle : (Z.gcd q 2 <= 2)%Z) by (apply Z.divide_pos_le; [lia | exact Hg]).
      assert (Hne0 : Z.gcd q 2 <> 0%Z).
      { intro E. apply Z.gcd_eq_0_r in E. discriminate E. }
      assert (Hne2 : Z.gcd q 2 <> 2%Z).
      { intro E. assert (Hd : (2 | q)%Z) by (rewrite <- E; apply Z.gcd_divide_l).
        destruct Hd as [c Hc]. rewrite Hc, Z.even_mul in Ev. cbn in Ev.
        rewrite orb_true_r in Ev. discriminate Ev. }
      lia.
Qed.

(** A dyadic rational whose product by a whole timescale is a whole number
    of less than 53 bits is a binary64 number. *)
Lemma isDouble_of_ticks (z : Q) (n m T C : Z) :
  (0 <= m)%Z -> z == inject_Z n / inject_Z (2 ^ m) ->
  (0 < T <= 2 ^ 49)%Z -> z * inject_Z T == inject_Z C -> (Z.abs C < 2 ^ 53)%Z ->
  isDouble z = true.
Proof.
  intros Hm Edy HT Eticks HC.
  assert (Hg := gcd_Qred z).
  assert (Er := Qred_correct z).
  destruct (Qred z) as [p q] eqn:Ered. cbn [Qnum Qden] in Hg.
  assert (Hpow : (0 < 2 ^ m)%Z) by (apply Z.pow_pos_nonneg; lia).
  (* the reduced denominator divides the power of two, and the timescale *)
  assert (E1 : (p * 2 ^ m = n * Z.pos q)%Z).
  { apply Qdiv_eq_cross; [lia | exact Hpow |].
    rewrite <- Edy, <- Er. symmetry. apply Qmake_Qdiv. }
  assert (E2 : (p * T = C * Z.pos q)%Z).
  { rewrite <- Er in Eticks. rewrite (Qmake_Qdiv p q) in Eticks.
    assert (Hq : ~ inject_Z (Z.pos q) == 0) by (intro Z0; discriminate Z0).
    assert (H : inject_Z p * inject_Z T == inject_Z C * inject_Z (Z.pos q)).
    { rewrite <- Eticks. field. exact Hq. }
    rewrite <- !inject_Z_mult in H. apply inject_Z_injective. exact H. }
  assert (Hgq : Z.gcd (Z.pos q) p = 1%Z) by (rewrite Z.gcd_comm; exact Hg).
  assert (Hdiv1 : (Z.pos q | 2 ^ m)%Z).
  { apply (Z.gauss _ p); [|exact Hgq]. exists n. lia. }
  assert (Hdiv2 : (Z.pos q | T)%Z).
  { apply (Z.gauss _ p); [|exact Hgq]. exists C. lia. }
  rewrite <- (Z2Nat.id m) in Hdiv1 by lia.
  destruct (divisor_of_power_of_two _ _ (Pos2Z.is_pos q) Hdiv1) as (j & Hj & Eq).
  assert (HqT : (Z.pos q <= T)%Z) by (apply Z.divide_pos_le; [lia | exact Hdiv2]).
  assert (Hp : (Z.abs p <= Z.abs C)%Z).
  { destruct Hdiv2 as [t Ht]. assert (0 < t)%Z by nia.
    assert (p * t = C)%Z by nia. nia. }
  unfold isDouble. rewrite Ered. cbn [Qnum Qden]. rewrite Eq.
  rewrite Z.log2_pow2 by lia.
  assert (Hj49 : (j <= 49)%Z).
  { assert (2 ^ j <= 2 ^ 49)%Z by lia.
    apply Z.pow_le_mono_r_iff in H; lia. }
  assert (Hlog : (Z.log2 (Z.abs p) <= 52)%Z).
  { destruct (Z.eq_dec (Z.abs p) 0) as [->|Hne]; [cbn; lia|].
    assert (Z.log2 (Z.abs p) < 53)%Z by (apply Z.log2_lt_pow2; lia). lia. }
  rewrite Z.max_l by lia. rewrite Z.mod_1_r, Z.eqb_refl. cbn [andb].
  repeat rewrite andb_true_iff. repeat split; apply Z.leb_le; lia.
Qed.

(** [x], in seconds, is a binary64 number that makes a whole number of ticks,
    of magnitude at most [bound], at the timescale [T]. *)
Definition onTicks (T bound : Z) (x : Q) : Prop :=
  isDouble x = true /\
  exists k : Z, x * inject_Z T == inject_Z k /\ (Z.abs k <= bound)%Z.

Lemma onTicks_opp T bound x : onTicks T bound x -> onTicks T bound (- x).
Proof.
  intros [Hd (k & E & Hk)]. split.
  - unfold isDouble in *. rewrite Qred_opp.
    destruct (Qred x) as [n d]. cbn [Qopp Qnum Qden] in *. now rewrite Z.abs_opp.
  - exists (- k)%Z. split; [|lia]. rewrite inject_Z_opp, <- E. ring.
Qed.

Lemma onTicks_add T b1 b2 x y :
  (0 < T <= 2 ^ 49)%Z -> (b1 + b2 < 2 ^ 53)%Z ->
  onTicks T b1 x -> onTicks T b2 y -> onTicks T (b1 + b2) (x + y).
Proof.
  intros HT Hb [Hx (k1 & E1 & H1)] [Hy (k2 & E2 & H2)].
  assert (E : (x + y) * inject_Z T == inject_Z (k1 + k2)).
  { rewrite inject_Z_plus, <- E1, <- E2. ring. }
  split; [|exists (k1 + k2)%Z; split; [exact E | lia]].
  destruct (isDouble_spec x Hx) as (n1 & m1 & Hm1 & D1).
  destruct (isDouble_spec y Hy) as (n2 & m2 & Hm2 & D2).
  apply (isDouble_of_ticks _ (n1 * 2 ^ m2 + n2 * 2 ^ m1) (m1 + m2) T (k1 + k2));
    [lia | | exact HT | exact E | lia].
  rewrite D1, D2, Z.pow_add_r, inject_Z_plus, !inject_Z_mult by lia.
  assert (P1 : (0 < 2 ^ m1)%Z) by (apply Z.pow_pos_nonneg; lia).
  assert (P2 : (0 < 2 ^ m2)%Z) by (apply Z.pow_pos_nonneg; lia).
  field. split; intro Z0; change 0 with (inject_Z 0) in Z0;
    rewrite inject_Z_injective in Z0; lia.
Qed.

Lemma onTicks_sub T b1 b2 x y :
  (0 < T <= 2 ^ 49)%Z -> (b1 + b2 < 2 ^ 53)%Z ->
  onTicks T b1 x -> onTicks T b2 y -> onTicks T (b1 + b2) (x - y).
Proof.
  intros HT Hb Hx Hy. apply onTicks_add; [exact HT | exact Hb | exact Hx |].
  now apply onTicks_opp.
Qed.

Section Binary64.

(** [rnd] is the rounding that ends an operation on binary64 numbers.  Two
    facts about it are used: it is monotone, and it leaves a binary64 number
    as it is. *)
Variable rnd : Q -> Q.
Hypothesis rnd_monotone : forall x y, x <= y -> rnd x <= rnd y.
Hypothesis rnd_exact : forall x, isDouble x = true -> rnd x == x.

(** [Math.floor (a / b)] on whole numbers is the same whether the quotient
    is rounded or not: rounding cannot move it across a whole number.  This
    is why, in whole ticks, the segment numbers computed by the source are
    the ones computed here; on times that are not whole ticks the product by
    the timescale is itself rounded, and the floor can fall one segment lower
    ([2.002 * 1000] is [2001.9999999999998] in binary64). *)
Lemma floor_of_rounded_quotient (a b : Z) :
  (0 < b)%Z -> (Z.abs a + 2 * b <= 2 ^ 52)%Z ->
  Qfloor (rnd (inject_Z a / inject_Z b)) = Qfloor (inject_Z a / inject_Z b).
Proof.
  intros Hb Hsize.
  set (q := inject_Z a / inject_Z b).
  assert (HbQ : 0 < inject_Z b) by (change 0 with (inject_Z 0); rewrite <- Zlt_Qlt; exact Hb).
  assert (Hk : Qfloor q = (a / b)%Z).
  { apply Qfloor_unique.
    - apply Qle_shift_div_l; [exact HbQ|]. rewrite <- inject_Z_mult, <- Zle_Qle.
      rewrite Z.mul_comm. apply Z.mul_div_le. exact Hb.
    - apply Qlt_shift_div_r; [exact HbQ|]. rewrite <- inject_Z_mult, <- Zlt_Qlt.
      assert (H := Z.mul_succ_div_gt a b Hb). lia. }
  set (k := (a / b)%Z) in *.
  assert (Hkb : (k * b <= a < (k + 1) * b)%Z).
  { unfold k. split; [rewrite Z.mul_comm; apply Z.mul_div_le; exact Hb|].
    assert (H := Z.mul_succ_div_gt a b Hb). lia. }
  assert (Hkabs : (Z.abs k <= Z.abs a)%Z) by nia.
  rewrite Hk. apply Qfloor_unique.
  - (* k is a binary64 number, below the quotient *)
    assert (Ek : rnd (inject_Z k) == inject_Z k).
    { apply rnd_exact. apply (isDouble_dyadic k 0); [lia | lia | now right]. }
    rewrite <- Ek. apply rnd_monotone.
    unfold q. apply Qle_shift_div_l; [exact HbQ|].
    rewrite <- inject_Z_mult, <- Zle_Qle. lia.
  - (* a binary64 number lies between the quotient and k + 1 *)
    set (m := Z.log2_up b).
    assert (Hm0 : (0 <= m)%Z) by apply Z.log2_up_nonneg.
    assert (Hmb : (b <= 2 ^ m)%Z).
    { destruct (Z.eq_dec b 1) as [->|Hne]; [cbn; lia|].
      apply Z.log2_up_spec. lia. }
    assert (Hm2 : (2 ^ m < 2 * b)%Z).
    { destruct (Z.eq_dec b 1) as [->|Hne]; [cbn; lia|].
      assert (H := Z.log2_up_spec b ltac:(lia)). fold m in H.
      replace m with (Z.succ (Z.pred m)) by lia.
      rewrite Z.pow_succ_r; [lia|].
      assert (0 < m)%Z by (apply Z.log2_up_pos; lia). lia. }
    assert (Hpow : (0 < 2 ^ m)%Z) by (apply Z.pow_pos_nonneg; lia).
    set (j := ((k + 1) * 2 ^ m - 1)%Z).
    set (y := j # Z.to_pos (2 ^ m)).
    assert (Hden : Z.pos (Z.to_pos (2 ^ m)) = (2 ^ m)%Z) by (apply Z2Pos.id; exact Hpow).
    assert (Hm52 : (m <= 1074)%Z).
    { assert (2 ^ m < 2 ^ 53)%Z by lia.
      apply Z.pow_lt_mono_r_iff in H; lia. }
    assert (Ey : rnd y == y).
    { apply rnd_exact. apply isDouble_dyadic; [|lia|].
      - unfold j. nia.
      - destruct (Z.eq_dec m 0) as [E|Hne]; [now right|left].
        unfold j. replace m with (Z.succ (Z.pred m)) by lia.
        rewrite Z.pow_succ_r by lia.
        replace ((k + 1) * (2 * 2 ^ Z.pred m) - 1)%Z
          with (2 * ((k + 1) * 2 ^ Z.pred m - 1) + 1)%Z by ring.
        apply Z.odd_odd. }
    assert (Hqy : q <= y).
    { unfold q, y. rewrite (Qmake_Qdiv j), Hden.
      apply Qdiv_le_cross; [exact Hb | exact Hpow |]. unfold j. nia. }
    assert (Hyk : y < inject_Z (k + 1)).
    { unfold y, Qlt. cbn [Qnum Qden inject_Z]. rewrite Hden. unfold j. lia. }
    eapply Qle_lt_trans; [|exact Hyk].
    rewrite <- Ey. now apply rnd_monotone.
Qed.

(** [Math.ceil (a / b)] likewise. *)
Lemma ceiling_of_rounded_quotient (a b : Z) :
  (0 < b)%Z -> (Z.abs a + 2 * b <= 2 ^ 52)%Z ->
  Qceiling (rnd (inject_Z a / inject_Z b)) = Qceiling (inject_Z a / inject_Z b).
Proof.
  intros Hb Hsize.
  set (q := inject_Z a / inject_Z b).
  assert (HbQ : 0 < inject_Z b) by (change 0 with (inject_Z 0); rewrite <- Zlt_Qlt; exact Hb).
  assert (Eq : q * inject_Z b == inject_Z a).
  { unfold q. field. intro Z0. rewrite Z0 in HbQ. discriminate HbQ. }
  set (k := Qceiling q).
  assert (Hkb : ((k - 1) * b < a <= k * b)%Z).
  { split.
    - rewrite Zlt_Qlt, inject_Z_mult, <- Eq.
      apply Qmult_lt_compat_r; [exact HbQ | apply Qceiling_lt].
    - rewrite Zle_Qle, inject_Z_mult, <- Eq.
      apply Qmult_le_compat_r; [apply Qle_ceiling | now apply Qlt_le_weak]. }
  assert (Hkabs : (Z.abs k <= Z.abs a + 1)%Z) by nia.
  apply Qceiling_unique.
  - (* a binary64 number lies between k - 1 and the quotient *)
    set (m := Z.log2_up b).
    assert (Hm0 : (0 <= m)%Z) by apply Z.log2_up_nonneg.
    assert (Hmb : (b <= 2 ^ m)%Z).
    { destruct (Z.eq_dec b 1) as [->|Hne]; [cbn; lia|].
      apply Z.log2_up_spec. lia. }
    assert (Hm2 : (2 ^ m < 2 * b)%Z).
    { destruct (Z.eq_dec b 1) as [->|Hne]; [cbn; lia|].
      assert (H := Z.log2_up_spec b ltac:(lia)). fold m in H.
      replace m with (Z.succ (Z.pred m)) by lia.
      rewrite Z.pow_succ_r; [lia|].
      assert (0 < m)%Z by (apply Z.log2_up_pos; lia). lia. }
    assert (Hpow : (0 < 2 ^ m)%Z) by (apply Z.pow_pos_nonneg; lia).
    set (j := ((k - 1) * 2 ^ m + 1)%Z).
    set (y := j # Z.to_pos (2 ^ m)).
    assert (Hden : Z.pos (Z.to_pos (2 ^ m)) = (2 ^ m)%Z) by (apply Z2Pos.id; exact Hpow).
    assert (Hm52 : (m <= 1074)%Z).
    { assert (2 ^ m < 2 ^ 53)%Z by lia.
      apply Z.pow_lt_mono_r_iff in H; lia. }
    assert (Ey : rnd y == y).
    { apply rnd_exact. destruct (Z.eq_dec m 0) as [E|Hne].
      - unfold y, j. rewrite E. cbn [Z.pow Z.to_pos].
        apply (isDouble_dyadic _ 0); [nia | lia | now right].
      - apply isDouble_dyadic; [unfold j; nia | lia | left].
        unfold j. replace m with (Z.succ (Z.pred m)) by lia.
        rewrite Z.pow_succ_r by lia.
        replace ((k - 1) * (2 * 2 ^ Z.pred m) + 1)%Z
          with (2 * ((k - 1) * 2 ^ Z.pred m) + 1)%Z by ring.
        apply Z.odd_odd. }
    assert (Hyq : y <= q).
    { unfold q, y. rewrite (Qmake_Qdiv j), Hden.
      apply Qdiv_le_cross; [exact Hpow | exact Hb |]. unfold j. nia. }
    assert (Hky : inject_Z (k - 1) < y).
    { unfold y, Qlt. cbn [Qnum Qden inject_Z]. rewrite Hden. unfold j. lia. }
    eapply Qlt_le_trans; [exact Hky|].
    rewrite <- Ey. now apply rnd_monotone.
  - (* k is a binary64 number, above the quotient *)
    assert (Ek : rnd (inject_Z k) == inject_Z k).
    { apply rnd_exact. apply (isDouble_dyadic k 0); [lia | lia | now right]. }
    rewrite <- Ek. apply rnd_monotone. apply Qle_ceiling.
Qed.

(** A whole number of ticks is not rounded. *)
Lemma rounded_tick_count (x : Q) : isTickCount x = true -> rnd x == x.
Proof.
  intro H. apply rnd_exact. now apply isTickCount_isDouble.
Qed.

End Binary64.

(* ================================================================== *)
(** * SegmentTemplate without SegmentTimeline
    [src/parsers/manifest/dash/common/indexes/template.ts] *)

Module Template.

(** Modelled from the spec: the configuration constant
    [MINIMUM_SEGMENT_SIZE] of [config], which is not part of the sources at
    hand; section 6 of the specification gives 0.005 s. *)
Definition MINIMUM_SEGMENT_SIZE : Q := 5 # 1000.

(** A value of type [number | null | undefined]. *)
Inductive position : Type :=
| Known (q : Q)
| Null
| Undefined.

(** [ITemplateIndex] (URLs and byte ranges left out: no arithmetic reads
    them). *)
Record ITemplateIndex := {
  duration : Q;
  timescale : Q;
  indexTimeOffset : Q;
  presentationTimeOffset : Q;
  startNumber : option Z
}.

(** [ITemplateIndexIndexArgument]: every field is optional in the parsed
    manifest. *)
Record ITemplateIndexIndexArgument := {
  arg_duration : option Q;
  arg_presentationTimeOffset : option Q;
  arg_startNumber : option Z;
  arg_timescale : option Q
}.

(** Modelled from the spec: [ManifestBoundsCalculator], a class of the
    repository that is not part of the sources at hand.  The index only calls
    its two estimators, so the record holds what each returns at the instant of
    the query ([None] is [undefined]). *)
Record ManifestBoundsCalculator := {
  estimateMinimumBound : option Q;
  estimateMaximumBound : option Q
}.

(** Modelled from the spec: the bounds of a dynamic Manifest, "estimated from
    [availability_start_time], [timeshift_buffer_depth] and (if known)
    [clock_offset]" (section 4.2).  The maximum is the server time relative to
    the availability start time, as [parseCompleteIntermediateRepresentation]
    computes [maximumTime]; the minimum lies one time-shift depth before. *)
Definition dynamicBounds (serverTime availabilityStartTime timeShiftBufferDepth : Q)
  : ManifestBoundsCalculator :=
  let maximumTime := serverTime - availabilityStartTime in
  {| estimateMinimumBound := Some (maximumTime - timeShiftBufferDepth);
     estimateMaximumBound := Some maximumTime |}.

(** [ITemplateIndexContextArgument]. *)
Record ITemplateIndexContextArgument := {
  aggressiveMode : bool;
  availabilityTimeOffset : Q;
  manifestBoundsCalculator : ManifestBoundsCalculator;
  periodStart : Q;
  periodEnd : option Q;
  isDynamic : bool
}.

(** The private state of a [TemplateRepresentationIndex]. *)
Record TemplateRepresentationIndex := {
  _index : ITemplateIndex;
  _aggressiveMode : bool;
  _manifestBoundsCalculator : ManifestBoundsCalculator;
  _periodStart : Q;
  _scaledPeriodEnd : option Q;
  _availabilityTimeOffset : option Q;
  _isDynamic : bool
}.

(** The constructor; [None] stands for the thrown
    "Invalid SegmentTemplate: no duration". *)
Definition constructor (index : ITemplateIndexIndexArgument)
           (context : ITemplateIndexContextArgument)
  : option TemplateRepresentationIndex :=
  let timescale := match arg_timescale index with Some t => t | None => 1 end in
  let presentationTimeOffset :=
    match arg_presentationTimeOffset index with Some p => p | None => 0 end in
  let scaledStart := periodStart context * timescale in
  let indexTimeOffset := presentationTimeOffset - scaledStart in
  match arg_duration index with
  | None => None
  | Some d =>
    Some {| _index := {| duration := d;
                         timescale := timescale;
                         indexTimeOffset := indexTimeOffset;
                         presentationTimeOffset := presentationTimeOffset;
                         startNumber := arg_startNumber index |};
            _aggressiveMode := aggressiveMode context;
            _manifestBoundsCalculator := manifestBoundsCalculator context;
            _periodStart := periodStart context;
            _scaledPeriodEnd :=
              match periodEnd context with
              | None => None
              | Some e => Some ((e - periodStart context) * timescale)
              end;
            _availabilityTimeOffset := Some (availabilityTimeOffset context);
            _isDynamic := isDynamic context |}
  end.

(** [ISegment], for the fields [getSegments] computes from numbers. *)
Record ISegment := {
  seg_number : Z;
  seg_time : Q;
  seg_end : Q;
  seg_duration : Q;
  seg_isInit : bool;
  seg_timestampOffset : Q
}.

Section Methods.

Variable this : TemplateRepresentationIndex.

(** [_getFirstSegmentStart]. *)
Definition _getFirstSegmentStart : position :=
  if negb (_isDynamic this) then Known 0
  else
    let notYetAvailable :=
      match _scaledPeriodEnd this with
      | Some e => Qeq_bool e 0
      | None => true
      end &&
      match estimateMaximumBound (_manifestBoundsCalculator this) with
      | Some maximumBound => Qlt_bool maximumBound (_periodStart this)
      | None => false
      end in
    if notYetAvailable then Null
    else
      let duration := duration (_index this) in
      let timescale := timescale (_index this) in
      match estimateMinimumBound (_manifestBoundsCalculator this) with
      | None => Undefined
      | Some firstPosition =>
        let segmentTime :=
          if Qlt_bool (_periodStart this) firstPosition
          then (firstPosition - _periodStart this) * timescale
          else 0 in
        let numberIndexedToZero := Qfloor (segmentTime / duration) in
        Known (inject_Z numberIndexedToZero * duration)
      end.

(** [_getLastSegmentStart]. *)
Definition _getLastSegmentStart : position :=
  let duration := duration (_index this) in
  let timescale := timescale (_index this) in
  if _isDynamic this then
    match estimateMaximumBound (_manifestBoundsCalculator this) with
    | None => Undefined
    | Some lastPos =>
      let agressiveModeOffset :=
        if _aggressiveMode this then duration / timescale else 0 in
      let periodEnded :=
        match _scaledPeriodEnd this with
        | Some e =>
          Qlt_bool e ((lastPos + agressiveModeOffset - _periodStart this)
                      * timescale)
        | None => false
        end in
      match _scaledPeriodEnd this, periodEnded with
      | Some e, true =>
        if Qlt_bool e duration then Null
        else Known (inject_Z (Qfloor (e / duration) - 1) * duration)
      | _, _ =>
        let scaledLastPosition := (lastPos - _periodStart this) * timescale in
        if Qlt_bool scaledLastPosition 0 then Null
        else
          let availabilityTimeOffset :=
            ((match _availabilityTimeOffset this with
              | Some o => o | None => 0 end) + agressiveModeOffset)
            * timescale in
          let numberOfSegmentsAvailable :=
            Qfloor ((scaledLastPosition + availabilityTimeOffset) / duration) in
          if (numberOfSegmentsAvailable <=? 0)%Z then Null
          else Known (inject_Z (numberOfSegmentsAvailable - 1) * duration)
      end
    end
  else
    let maximumTime :=
      match _scaledPeriodEnd this with Some e => e | None => 0 end in
    let numberIndexedToZero := (Qceiling (maximumTime / duration) - 1)%Z in
    let regularLastSegmentStart := inject_Z numberIndexedToZero * duration in
    let minimumDuration := MINIMUM_SEGMENT_SIZE * timescale in
    if Qlt_bool minimumDuration (maximumTime - regularLastSegmentStart)
       || (numberIndexedToZero =? 0)%Z
    then Known regularLastSegmentStart
    else Known (inject_Z (numberIndexedToZero - 1) * duration).

(** The segment pushed by one iteration of the loop of [getSegments]. *)
Definition makeSegment (timeFromPeriodStart : Q) (numberIndexedToZero : Z)
  : ISegment :=
  let index := _index this in
  let duration := duration index in
  let timescale := timescale index in
  let scaledStart := _periodStart this * timescale in
  let numberOffset :=
    match startNumber index with None => 1%Z | Some n => n end in
  let realNumber := (numberIndexedToZero + numberOffset)%Z in
  let realDuration :=
    match _scaledPeriodEnd this with
    | Some scaledEnd =>
      if Qlt_bool scaledEnd (timeFromPeriodStart + duration)
      then scaledEnd - timeFromPeriodStart
      else duration
    | None => duration
    end in
  let realTime := timeFromPeriodStart + scaledStart in
  {| seg_number := realNumber;
     seg_time := realTime / timescale;
     seg_end := (realTime + realDuration) / timescale;
     seg_duration := realDuration / timescale;
     seg_isInit := false;
     seg_timestampOffset := - (indexTimeOffset index / timescale) |}.

(** The [for] loop of [getSegments]: it runs while
    [timeFromPeriodStart <= lastWantedStartPosition], adding [duration] to
    the time and one to the number at each turn.  [fuel] bounds the number of
    turns; [loopBound] below is enough for the loop to leave by its own
    test (see [segmentsLoop_fuel]). *)
Fixpoint segmentsLoop (fuel : nat) (lastWantedStartPosition : Q)
         (timeFromPeriodStart : Q) (numberIndexedToZero : Z) : list ISegment :=
  match fuel with
  | O => []
  | S fuel' =>
    if Qle_bool timeFromPeriodStart lastWantedStartPosition
    then makeSegment timeFromPeriodStart numberIndexedToZero
         :: segmentsLoop fuel' lastWantedStartPosition
                         (timeFromPeriodStart + duration (_index this))
                         (numberIndexedToZero + 1)
    else []
  end.

(** Number of turns after which a loop started at [start] has passed
    [lastWantedStartPosition]. *)
Definition loopBound (lastWantedStartPosition start : Q) : nat :=
  Z.to_nat (Qfloor ((lastWantedStartPosition - start) / duration (_index this)) + 1).

(** [getSegments]. *)
Definition getSegments (fromTime dur : Q) : list ISegment :=
  let index := _index this in
  let duration := duration index in
  let timescale := timescale index in
  let scaledStart := _periodStart this * timescale in
  let upFromPeriodStart := fromTime * timescale - scaledStart in
  let toFromPeriodStart := (fromTime + dur) * timescale - scaledStart in
  match _getFirstSegmentStart, _getLastSegmentStart with
  | Known firstSegmentStart, Known lastSegmentStart =>
    let startPosition := Math_max firstSegmentStart upFromPeriodStart in
    let lastWantedStartPosition := Math_min lastSegmentStart toFromPeriodStart in
    if Qle_bool (lastWantedStartPosition + duration) startPosition then []
    else
      let numberIndexedToZero := Qfloor (startPosition / duration) in
      let start := inject_Z numberIndexedToZero * duration in
      segmentsLoop (loopBound lastWantedStartPosition start)
                   lastWantedStartPosition start numberIndexedToZero
  | _, _ => []
  end.

(** [getFirstPosition]. *)
Definition getFirstPosition : position :=
  match _getFirstSegmentStart with
  | Known firstSegmentStart =>
    Known (firstSegmentStart / timescale (_index this) + _periodStart this)
  | other => other
  end.

(** [getLastPosition]. *)
Definition getLastPosition : position :=
  match _getLastSegmentStart with
  | Known lastSegmentStart =>
    let lastSegmentEnd := lastSegmentStart + duration (_index this) in
    Known (lastSegmentEnd / timescale (_index this) + _periodStart this)
  | other => other
  end.

End Methods.

(** ** Indexes and queries in whole ticks

    The source converts seconds to ticks by a product with the timescale and
    finds a segment by [Math.floor] of a quotient by the duration, all in
    binary64.  On the quantities told by the predicates below the products,
    sums and differences that lead to a segment are whole numbers, which are
    not rounded, and the floor is the one of the exact quotient
    ([floor_of_rounded_quotient]): the source returns the segments computed
    here, the rounding of the last division by the timescale apart.  Section
    [Conversion] shows it expression by expression.  On other quantities
    the two can differ by one segment at a segment boundary, which is why
    the theorems that tell on which side of a boundary a time falls are
    stated on these. *)

(** A time in seconds that is converted to ticks without rounding: a
    binary64 number that is a whole number of ticks. *)
Definition wholeTickTime (this : TemplateRepresentationIndex) (time : Q) : bool :=
  isDouble time && isTickCount (time * timescale (_index this)).

(** The index is in whole ticks: its duration, its timescale and the end of
    its Period are whole numbers of ticks, the start of its Period is a
    whole-tick time and, in a dynamic index, so are the two bounds and the
    availability time offset; in aggressive mode the segment duration in
    seconds is a binary64 number. *)
Definition wholeTicks (this : TemplateRepresentationIndex) : bool :=
  isTickCount (duration (_index this))
  && isTickCount (timescale (_index this))
  && wholeTickTime this (_periodStart this)
  && match _scaledPeriodEnd this with
     | Some scaledEnd => isTickCount scaledEnd
     | None => true
     end
  && (negb (_isDynamic this)
      || (match estimateMinimumBound (_manifestBoundsCalculator this) with
          | Some firstPosition => wholeTickTime this firstPosition
          | None => true
          end
          && match estimateMaximumBound (_manifestBoundsCalculator this) with
             | Some lastPos => wholeTickTime this lastPos
             | None => true
             end
          && match _availabilityTimeOffset this with
             | Some offset => wholeTickTime this offset
             | None => true
             end
          && (negb (_aggressiveMode this)
              || isDouble (duration (_index this) / timescale (_index this))))).

(** The two ends of the range asked to [getSegments] are whole-tick times,
    and their sum is exact. *)
Definition wholeTickQuery (this : TemplateRepresentationIndex) (fromTime dur : Q)
  : bool :=
  wholeTickTime this fromTime && isDouble dur
  && wholeTickTime this (fromTime + dur).

(** A whole-tick time is on ticks. *)
Lemma wholeTickTime_onTicks this T x :
  timescale (_index this) == inject_Z T ->
  wholeTickTime this x = true -> onTicks T (2 ^ 49) x.
Proof.
  intros ET. unfold wholeTickTime. rewrite andb_true_iff. intros [Hd Ht].
  split; [exact Hd|]. apply isTickCount_spec in Ht.
  destruct Ht as (k & E & Hk). exists k. split; [|exact Hk].
  rewrite <- ET. exact E.
Qed.

(** What [wholeTicks] tells of each quantity of the index. *)
Lemma wholeTicks_static (this : TemplateRepresentationIndex) :
  wholeTicks this = true ->
  isTickCount (duration (_index this)) = true /\
  isTickCount (timescale (_index this)) = true /\
  wholeTickTime this (_periodStart this) = true /\
  (forall scaledEnd, _scaledPeriodEnd this = Some scaledEnd ->
                     isTickCount scaledEnd = true).
Proof.
  unfold wholeTicks. rewrite !andb_true_iff.
  intros [[[[Hd Hts] Hps] He] _].
  repeat split; try assumption.
  intros scaledEnd E. now rewrite E in He.
Qed.

Lemma wholeTicks_dynamic (this : TemplateRepresentationIndex) :
  wholeTicks this = true -> _isDynamic this = true ->
  (forall firstPosition,
      estimateMinimumBound (_manifestBoundsCalculator this) = Some firstPosition ->
      wholeTickTime this firstPosition = true) /\
  (forall lastPos,
      estimateMaximumBound (_manifestBoundsCalculator this) = Some lastPos ->
      wholeTickTime this lastPos = true) /\
  (forall offset, _availabilityTimeOffset this = Some offset ->
                  wholeTickTime this offset = true) /\
  (_aggressiveMode this = true ->
   isDouble (duration (_index this) / timescale (_index this)) = true).
Proof.
  unfold wholeTicks. rewrite !andb_true_iff. intros [_ H] Hdyn.
  rewrite Hdyn in H. cbn [negb orb] in H. rewrite !andb_true_iff in H.
  destruct H as [[[Hmin Hmax] Hato] Hagg].
  repeat split.
  - intros b E. now rewrite E in Hmin.
  - intros b E. now rewrite E in Hmax.
  - intros o E. now rewrite E in Hato.
  - intros E. now rewrite E in Hagg.
Qed.

(** The operations of the source, each followed by the rounding [rnd] of
    binary64, on an index in whole ticks: every lemma of the section tells
    that an expression of the source, as it is computed, is the expression
    computed here. *)
Section Conversion.

Variable rnd : Q -> Q.
Hypothesis rnd_monotone : forall x y, x <= y -> rnd x <= rnd y.
Hypothesis rnd_exact : forall x, isDouble x = true -> rnd x == x.

Lemma rnd_Qeq (x y : Q) : x == y -> rnd x == rnd y.
Proof.
  intro E. apply Qle_antisym; apply rnd_monotone; rewrite E; apply Qle_refl.
Qed.

Lemma rnd_whole (k : Z) : (Z.abs k < 2 ^ 53)%Z -> rnd (inject_Z k) == inject_Z k.
Proof. intro H. apply rnd_exact. now apply isDouble_whole. Qed.

(** On ticks, neither the time nor its conversion to ticks is rounded. *)
Lemma onTicks_conversion T bound x :
  (bound < 2 ^ 53)%Z -> onTicks T bound x ->
  rnd x == x /\ rnd (x * inject_Z T) == x * inject_Z T.
Proof.
  intros Hb [Hd (k & E & Hk)].
  split; [now apply rnd_exact|].
  rewrite (rnd_Qeq _ _ E), E. apply rnd_whole. lia.
Qed.

(** The conversion of a whole-tick time to ticks, [time * timescale], is
    not rounded. *)
Lemma wholeTickTime_conversion (index : TemplateRepresentationIndex) (time : Q) :
  wholeTickTime index time = true ->
  rnd time == time /\
  rnd (time * timescale (_index index)) == time * timescale (_index index).
Proof.
  unfold wholeTickTime. rewrite andb_true_iff. intros [Hd Ht].
  split; apply rnd_exact; [exact Hd | now apply isTickCount_isDouble].
Qed.

Variable this : TemplateRepresentationIndex.
Hypothesis duration_pos : 0 < duration (_index this).
Hypothesis timescale_pos : 0 < timescale (_index this).
Hypothesis whole : wholeTicks this = true.

Local Abbreviation d := (duration (_index this)).
Local Abbreviation ts := (timescale (_index this)).
Local Abbreviation ps := (_periodStart this).

Lemma whole_timescale : exists T : Z, ts == inject_Z T /\ (0 < T <= 2 ^ 49)%Z.
Proof.
  destruct (wholeTicks_static this whole) as (_ & Hts & _).
  apply isTickCount_spec in Hts. destruct Hts as (T & E & HT).
  exists T. split; [exact E|].
  assert (H := timescale_pos). rewrite E in H.
  change 0 with (inject_Z 0) in H. rewrite <- Zlt_Qlt in H. lia.
Qed.

Lemma whole_duration : exists D : Z, d == inject_Z D /\ (0 < D <= 2 ^ 49)%Z.
Proof.
  destruct (wholeTicks_static this whole) as (Hd & _).
  apply isTickCount_spec in Hd. destruct Hd as (D & E & HD).
  exists D. split; [exact E|].
  assert (H := duration_pos). rewrite E in H.
  change 0 with (inject_Z 0) in H. rewrite <- Zlt_Qlt in H. lia.
Qed.

(** [Math.floor (x / duration)] for a whole number of ticks [x]. *)
Lemma floor_of_ticks (x : Q) (k : Z) :
  x == inject_Z k -> (Z.abs k <= 2 ^ 51)%Z ->
  Qfloor (rnd (x / d)) = Qfloor (x / d).
Proof.
  intros E Hk. destruct whole_duration as (D & ED & HD).
  assert (Eq : x / d == inject_Z k / inject_Z D) by (rewrite E, ED; reflexivity).
  rewrite (Qfloor_comp _ _ (rnd_Qeq _ _ Eq)), (Qfloor_comp _ _ Eq).
  apply (floor_of_rounded_quotient rnd rnd_monotone rnd_exact); lia.
Qed.

(** [scaledStart], [upFromPeriodStart] and [toFromPeriodStart] of
    [getSegments]. *)
Lemma scaledStart_exact : rnd (ps * ts) == ps * ts.
Proof.
  destruct whole_timescale as (T & ET & HT).
  destruct (wholeTicks_static this whole) as (_ & _ & Hps & _).
  apply (wholeTickTime_onTicks this T) in Hps; [|exact ET].
  destruct (onTicks_conversion T (2 ^ 49) _ ltac:(lia) Hps) as [_ H].
  rewrite (rnd_Qeq _ (ps * inject_Z T)) by (rewrite ET; reflexivity).
  rewrite H, ET. reflexivity.
Qed.

Lemma ticks_from_period_start (time : Q) :
  wholeTickTime this time = true ->
  rnd (rnd (time * ts) - rnd (ps * ts)) == time * ts - ps * ts /\
  exists k : Z, time * ts - ps * ts == inject_Z k /\ (Z.abs k <= 2 ^ 50)%Z.
Proof.
  intro Ht. destruct whole_timescale as (T & ET & HT).
  destruct (wholeTicks_static this whole) as (_ & _ & Hps & _).
  apply (wholeTickTime_onTicks this T) in Hps; [|exact ET].
  apply (wholeTickTime_onTicks this T) in Ht; [|exact ET].
  destruct Ht as [_ (k1 & E1 & H1)]. destruct Hps as [_ (k2 & E2 & H2)].
  rewrite <- ET in E1, E2.
  assert (E : time * ts - ps * ts == inject_Z (k1 - k2)).
  { rewrite E1, E2. unfold Z.sub. rewrite inject_Z_plus, inject_Z_opp. reflexivity. }
  split; [|exists (k1 - k2)%Z; split; [exact E | lia]].
  rewrite (rnd_Qeq (rnd (time * ts) - rnd (ps * ts)) (inject_Z (k1 - k2))).
  - rewrite E. apply rnd_whole. lia.
  - rewrite (rnd_Qeq _ _ E1), (rnd_Qeq _ _ E2), !rnd_whole by lia.
    unfold Z.sub. rewrite inject_Z_plus, inject_Z_opp. reflexivity.
Qed.

Lemma upFromPeriodStart_exact (fromTime dur : Q) :
  wholeTickQuery this fromTime dur = true ->
  rnd (rnd (fromTime * ts) - rnd (ps * ts)) == fromTime * ts - ps * ts.
Proof.
  unfold wholeTickQuery. rewrite !andb_true_iff. intros [[Hf _] _].
  now apply ticks_from_period_start.
Qed.

Lemma toFromPeriodStart_exact (fromTime dur : Q) :
  wholeTickQuery this fromTime dur = true ->
  rnd (rnd (rnd (fromTime + dur) * ts) - rnd (ps * ts))
  == (fromTime + dur) * ts - ps * ts.
Proof.
  unfold wholeTickQuery. rewrite !andb_true_iff. intros [_ Hto].
  assert (Hsum : rnd (fromTime + dur) == fromTime + dur).
  { apply rnd_exact. unfold wholeTickTime in Hto.
    now apply andb_true_iff in Hto. }
  rewrite (rnd_Qeq (rnd (rnd (fromTime + dur) * ts) - rnd (ps * ts))
                   (rnd ((fromTime + dur) * ts) - rnd (ps * ts))).
  - now apply ticks_from_period_start.
  - rewrite (rnd_Qeq (rnd (fromTime + dur) * ts) ((fromTime + dur) * ts));
      [reflexivity | now rewrite Hsum].
Qed.

#[local] Instance rnd_Proper : Proper (Qeq ==> Qeq) rnd.
Proof. intros x y E. now apply rnd_Qeq. Qed.

(** What is on ticks is not rounded, and neither is its conversion to
    ticks. *)
Lemma onTicks_exact (T bound : Z) (x : Q) :
  ts == inject_Z T -> (bound < 2 ^ 53)%Z -> onTicks T bound x ->
  rnd x == x /\ rnd (x * ts) == x * ts /\
  exists k : Z, x * ts == inject_Z k /\ (Z.abs k <= bound)%Z.
Proof.
  intros ET Hb H. destruct (onTicks_conversion T bound x Hb H) as [E1 E2].
  split; [exact E1|]. split; [rewrite ET; exact E2|].
  destruct H as [_ (k & E & Hk)]. exists k. split; [rewrite ET; exact E | exact Hk].
Qed.

(** [n * duration] for the number [n] of the segment that holds a whole
    number of ticks. *)
Lemma segment_start_exact (x : Q) (k : Z) :
  x == inject_Z k -> (Z.abs k <= 2 ^ 51)%Z ->
  rnd (inject_Z (Qfloor (x / d)) * d) == inject_Z (Qfloor (x / d)) * d /\
  rnd (inject_Z (Qfloor (x / d) - 1) * d) == inject_Z (Qfloor (x / d) - 1) * d.
Proof.
  intros E Hk. destruct whole_duration as (D & ED & HD).
  assert (Eq : x / d == inject_Z k / inject_Z D) by (rewrite E, ED; reflexivity).
  rewrite (Qfloor_comp _ _ Eq), Qfloor_quotient by lia.
  assert (Hdiv : (k / D * D <= k < (k / D + 1) * D)%Z).
  { split; [rewrite Z.mul_comm; apply Z.mul_div_le; lia|].
    assert (H := Z.mul_succ_div_gt k D ltac:(lia)). lia. }
  rewrite !ED, <- !inject_Z_mult.
  split; apply rnd_whole; nia.
Qed.

(** [_getFirstSegmentStart] of a dynamic index: [segmentTime], the number
    of the first segment and its start. *)
Lemma firstSegmentStart_exact (firstPosition : Q) :
  _isDynamic this = true ->
  estimateMinimumBound (_manifestBoundsCalculator this) = Some firstPosition ->
  let segmentTime := (firstPosition - ps) * ts in
  let numberIndexedToZero := Qfloor (segmentTime / d) in
  rnd (rnd (firstPosition - ps) * ts) == segmentTime /\
  Qfloor (rnd (segmentTime / d)) = numberIndexedToZero /\
  rnd (inject_Z numberIndexedToZero * d) == inject_Z numberIndexedToZero * d.
Proof.
  intros Hdyn Hmin segmentTime numberIndexedToZero.
  destruct whole_timescale as (T & ET & HT).
  destruct (wholeTicks_static this whole) as (_ & _ & Hps & _).
  destruct (wholeTicks_dynamic this whole Hdyn) as (Hfirst & _).
  specialize (Hfirst _ Hmin).
  apply (wholeTickTime_onTicks this T) in Hps; [|exact ET].
  apply (wholeTickTime_onTicks this T) in Hfirst; [|exact ET].
  assert (Hsub := onTicks_sub T (2 ^ 49) (2 ^ 49) _ _ HT ltac:(lia) Hfirst Hps).
  destruct (onTicks_exact T (2 ^ 49 + 2 ^ 49) _ ET ltac:(lia) Hsub)
    as (E1 & E2 & k & Ek & Hk).
  split; [rewrite E1; exact E2|].
  split; [apply (floor_of_ticks _ k); [exact Ek | lia]|].
  apply (segment_start_exact _ k); [exact Ek | lia].
Qed.

(** [_getLastSegmentStart] of a dynamic index: the offset of the aggressive
    mode, the test on the end of the Period, [scaledLastPosition],
    [availabilityTimeOffset], the number of segments available and the start
    of the last one, in each of the two branches. *)
Lemma lastSegmentStart_exact (lastPos : Q) :
  _isDynamic this = true ->
  estimateMaximumBound (_manifestBoundsCalculator this) = Some lastPos ->
  let agressiveModeOffset := if _aggressiveMode this then d / ts else 0 in
  let offset := match _availabilityTimeOffset this with
                | Some o => o
                | None => 0
                end in
  let scaledLastPosition := (lastPos - ps) * ts in
  let availabilityTimeOffset := (offset + agressiveModeOffset) * ts in
  let numberOfSegmentsAvailable :=
    Qfloor ((scaledLastPosition + availabilityTimeOffset) / d) in
  (if _aggressiveMode this then rnd (d / ts) else 0) == agressiveModeOffset /\
  rnd (rnd (rnd (lastPos + agressiveModeOffset) - ps) * ts)
  == (lastPos + agressiveModeOffset - ps) * ts /\
  rnd (rnd (lastPos - ps) * ts) == scaledLastPosition /\
  rnd (rnd (offset + agressiveModeOffset) * ts) == availabilityTimeOffset /\
  Qfloor (rnd (rnd (scaledLastPosition + availabilityTimeOffset) / d))
  = numberOfSegmentsAvailable /\
  rnd (inject_Z (numberOfSegmentsAvailable - 1) * d)
  == inject_Z (numberOfSegmentsAvailable - 1) * d /\
  forall scaledEnd,
    _scaledPeriodEnd this = Some scaledEnd ->
    Qfloor (rnd (scaledEnd / d)) = Qfloor (scaledEnd / d) /\
    rnd (inject_Z (Qfloor (scaledEnd / d) - 1) * d)
    == inject_Z (Qfloor (scaledEnd / d) - 1) * d.
Proof.
  intros Hdyn Hmax agressiveModeOffset offset scaledLastPosition
         availabilityTimeOffset numberOfSegmentsAvailable.
  destruct whole_timescale as (T & ET & HT).
  destruct whole_duration as (D & ED & HD).
  destruct (wholeTicks_static this whole) as (_ & _ & Hps & Hend).
  destruct (wholeTicks_dynamic this whole Hdyn) as (_ & Hlast & Hato & Hagg).
  specialize (Hlast _ Hmax).
  apply (wholeTickTime_onTicks this T) in Hps; [|exact ET].
  apply (wholeTickTime_onTicks this T) in Hlast; [|exact ET].
  assert (Hzero : onTicks T (2 ^ 49) 0).
  { split; [reflexivity|]. exists 0%Z. split; [ring | lia]. }
  assert (Haggo : onTicks T (2 ^ 49) agressiveModeOffset).
  { unfold agressiveModeOffset. destruct (_aggressiveMode this); [|exact Hzero].
    split; [now apply Hagg|]. exists D. split; [|lia].
    rewrite <- ET, <- ED. field.
    intro Z0. assert (H := timescale_pos). rewrite Z0 in H. discriminate H. }
  assert (Hoff : onTicks T (2 ^ 49) offset).
  { unfold offset. destruct (_availabilityTimeOffset this) as [o|]; [|exact Hzero].
    apply (wholeTickTime_onTicks this T); [exact ET | now apply Hato]. }
  assert (H1 := onTicks_add T (2 ^ 49) (2 ^ 49) _ _ HT ltac:(lia) Hlast Haggo).
  assert (H2 := onTicks_sub T (2 ^ 49 + 2 ^ 49) (2 ^ 49) _ _ HT ltac:(lia) H1 Hps).
  assert (H3 := onTicks_sub T (2 ^ 49) (2 ^ 49) _ _ HT ltac:(lia) Hlast Hps).
  assert (H4 := onTicks_add T (2 ^ 49) (2 ^ 49) _ _ HT ltac:(lia) Hoff Haggo).
  destruct (onTicks_exact T (2 ^ 49) _ ET ltac:(lia) Haggo) as (Eagg & _).
  destruct (onTicks_exact T (2 ^ 49 + 2 ^ 49) _ ET ltac:(lia) H1) as (E1 & _).
  destruct (onTicks_exact T (2 ^ 49 + 2 ^ 49 + 2 ^ 49) _ ET ltac:(lia) H2)
    as (E2 & E2' & _).
  destruct (onTicks_exact T (2 ^ 49 + 2 ^ 49) _ ET ltac:(lia) H3)
    as (E3 & E3' & k3 & Ek3 & Hk3).
  destruct (onTicks_exact T (2 ^ 49 + 2 ^ 49) _ ET ltac:(lia) H4)
    as (E4 & E4' & k4 & Ek4 & Hk4).
  assert (Esum : scaledLastPosition + availabilityTimeOffset == inject_Z (k3 + k4)).
  { unfold scaledLastPosition, availabilityTimeOffset.
    rewrite Ek3, Ek4, inject_Z_plus. reflexivity. }
  split.
  { unfold agressiveModeOffset in *. destruct (_aggressiveMode this);
      [exact Eagg | reflexivity]. }
  split; [rewrite E1, E2; exact E2'|].
  split; [rewrite E3; exact E3'|].
  split; [rewrite E4; exact E4'|].
  split.
  { rewrite (Qfloor_comp _ _ (rnd_Qeq _ _ (Qdiv_comp _ _ (rnd_Qeq _ _ Esum) _ _ (Qeq_refl d)))).
    rewrite (Qfloor_comp (rnd (rnd (inject_Z (k3 + k4)) / d))
                         (rnd (inject_Z (k3 + k4) / d)))
      by (rewrite rnd_whole by lia; reflexivity).
    unfold numberOfSegmentsAvailable.
    rewrite (Qfloor_comp _ _ (Qdiv_comp _ _ Esum _ _ (Qeq_refl d))).
    apply (floor_of_ticks _ (k3 + k4)); [reflexivity | lia]. }
  split.
  { apply (segment_start_exact _ (k3 + k4)); [exact Esum | lia]. }
  intros scaledEnd He. specialize (Hend _ He).
  apply isTickCount_spec in Hend. destruct Hend as (e & Ee & Hk).
  split; [apply (floor_of_ticks _ e); [exact Ee | lia]|].
  apply (segment_start_exact _ e); [exact Ee | lia].
Qed.

(** The first segment start is a whole number of ticks. *)
Lemma firstSegmentStart_onTicks (firstSegmentStart : Q) :
  _getFirstSegmentStart this = Known firstSegmentStart ->
  exists k : Z, firstSegmentStart == inject_Z k /\ (Z.abs k <= 2 ^ 50)%Z.
Proof.
  unfold _getFirstSegmentStart.
  destruct (_isDynamic this) eqn:Hdyn; cbn [negb].
  2:{ intros [= <-]. exists 0%Z. split; [reflexivity | lia]. }
  destruct (_ && _); [discriminate|].
  destruct (estimateMinimumBound (_manifestBoundsCalculator this))
    as [firstPosition|] eqn:Hmin; [|discriminate].
  intros Ef.
  match type of Ef with
  | Known ?a = _ => assert (Efirst : firstSegmentStart = a) by congruence
  end.
  subst firstSegmentStart. clear Ef.
  destruct whole_timescale as (T & ET & HT).
  destruct whole_duration as (D & ED & HD).
  assert (Hseg : exists X : Z,
             (if Qlt_bool ps firstPosition then (firstPosition - ps) * ts else 0)
             == inject_Z X /\ (0 <= X <= 2 ^ 50)%Z).
  { destruct (Qlt_bool ps firstPosition) eqn:E.
    - apply Qlt_bool_iff in E.
      destruct (wholeTicks_static this whole) as (_ & _ & Hps & _).
      destruct (wholeTicks_dynamic this whole Hdyn) as (Hfirst & _).
      specialize (Hfirst _ Hmin).
      apply (wholeTickTime_onTicks this T) in Hps; [|exact ET].
      apply (wholeTickTime_onTicks this T) in Hfirst; [|exact ET].
      assert (Hsub := onTicks_sub T (2 ^ 49) (2 ^ 49) _ _ HT ltac:(lia) Hfirst Hps).
      destruct Hsub as [_ (X & EX & HX)]. rewrite <- ET in EX.
      exists X. split; [exact EX|].
      assert (H0 : 0 <= (firstPosition - ps) * ts).
      { assert (Hts := timescale_pos). nra. }
      rewrite EX in H0. change 0 with (inject_Z 0) in H0.
      rewrite <- Zle_Qle in H0. lia.
    - exists 0%Z. split; [reflexivity | lia]. }
  destruct Hseg as (X & EX & HX).
  assert (Eq : (if Qlt_bool ps firstPosition then (firstPosition - ps) * ts else 0) / d
               == inject_Z X / inject_Z D) by (rewrite EX, ED; reflexivity).
  rewrite (Qfloor_comp _ _ Eq), Qfloor_quotient by lia.
  exists (X / D * D)%Z. split; [rewrite ED, inject_Z_mult; reflexivity|].
  assert (H := Z.mul_div_le X D ltac:(lia)).
  assert (0 <= X / D)%Z by (apply Z.div_pos; lia). nia.
Qed.

(** [numberIndexedToZero] of [getSegments] and the start of the loop. *)
Lemma segment_number_exact (fromTime dur firstSegmentStart : Q) :
  wholeTickQuery this fromTime dur = true ->
  _getFirstSegmentStart this = Known firstSegmentStart ->
  let upFromPeriodStart := fromTime * ts - ps * ts in
  let startPosition := Math_max firstSegmentStart upFromPeriodStart in
  Qfloor (rnd (startPosition / d)) = Qfloor (startPosition / d) /\
  rnd (inject_Z (Qfloor (startPosition / d)) * d)
  == inject_Z (Qfloor (startPosition / d)) * d.
Proof.
  intros Hq Hfirst upFromPeriodStart startPosition.
  destruct (firstSegmentStart_onTicks _ Hfirst) as (first & Ef & Hf).
  unfold wholeTickQuery in Hq. rewrite !andb_true_iff in Hq.
  destruct Hq as [[Hfrom _] _].
  destruct (ticks_from_period_start _ Hfrom) as (_ & k & Ek & Hk).
  assert (Hsp : exists j : Z, startPosition == inject_Z j /\ (Z.abs j <= 2 ^ 50)%Z).
  { unfold startPosition, Math_max, upFromPeriodStart.
    destruct (Qle_bool _ _); [exists k | exists first]; split; assumption. }
  destruct Hsp as (j & Ej & Hj).
  split; [apply (floor_of_ticks _ j); [exact Ej | lia]|].
  apply (segment_start_exact _ j); [exact Ej | lia].
Qed.

(** [_getLastSegmentStart] of a static index: the number of the last
    segment, its start, what is left of the Period after it and the start of
    the segment before. *)
Lemma lastSegmentStart_static_exact :
  let maximumTime := match _scaledPeriodEnd this with
                     | Some scaledEnd => scaledEnd
                     | None => 0
                     end in
  let numberIndexedToZero := (Qceiling (maximumTime / d) - 1)%Z in
  let regularLastSegmentStart := inject_Z numberIndexedToZero * d in
  (Qceiling (rnd (maximumTime / d)) - 1)%Z = numberIndexedToZero /\
  rnd regularLastSegmentStart == regularLastSegmentStart /\
  rnd (maximumTime - regularLastSegmentStart)
  == maximumTime - regularLastSegmentStart /\
  rnd (inject_Z (numberIndexedToZero - 1) * d)
  == inject_Z (numberIndexedToZero - 1) * d.
Proof.
  intros maximumTime numberIndexedToZero regularLastSegmentStart.
  destruct whole_duration as (D & ED & HD).
  destruct (wholeTicks_static this whole) as (_ & _ & _ & Hend).
  assert (Hmax : exists e : Z, maximumTime == inject_Z e /\ (Z.abs e <= 2 ^ 49)%Z).
  { unfold maximumTime. destruct (_scaledPeriodEnd this) as [scaledEnd|].
    - apply isTickCount_spec. now apply Hend.
    - exists 0%Z. split; [reflexivity | lia]. }
  destruct Hmax as (e & Ee & He).
  assert (Eq : maximumTime / d == inject_Z e / inject_Z D)
    by (rewrite Ee, ED; reflexivity).
  assert (HDQ : 0 < inject_Z D)
    by (change 0 with (inject_Z 0); rewrite <- Zlt_Qlt; lia).
  assert (Eprod : inject_Z e / inject_Z D * inject_Z D == inject_Z e).
  { field. intro Z0. rewrite Z0 in HDQ. discriminate HDQ. }
  set (c := Qceiling (inject_Z e / inject_Z D)).
  assert (Hc : ((c - 1) * D < e <= c * D)%Z).
  { split.
    - rewrite Zlt_Qlt, inject_Z_mult, <- Eprod.
      apply Qmult_lt_compat_r; [exact HDQ | apply Qceiling_lt].
    - rewrite Zle_Qle, inject_Z_mult, <- Eprod.
      apply Qmult_le_compat_r; [apply Qle_ceiling | now apply Qlt_le_weak]. }
  assert (En : numberIndexedToZero = (c - 1)%Z).
  { unfold numberIndexedToZero, c. now rewrite (Qceiling_comp _ _ Eq). }
  assert (Ereg : regularLastSegmentStart == inject_Z ((c - 1) * D)).
  { unfold regularLastSegmentStart. rewrite En, ED, inject_Z_mult. reflexivity. }
  split.
  { rewrite En. f_equal.
    rewrite (Qceiling_comp _ _ (rnd_Qeq _ _ Eq)).
    apply (ceiling_of_rounded_quotient rnd rnd_monotone rnd_exact); lia. }
  split; [rewrite Ereg; apply rnd_whole; nia|].
  split.
  { assert (E : maximumTime - regularLastSegmentStart
                == inject_Z (e - (c - 1) * D)).
    { rewrite Ee, Ereg.
      replace (e - (c - 1) * D)%Z with (e + - ((c - 1) * D))%Z by lia.
      rewrite inject_Z_plus, inject_Z_opp. reflexivity. }
    rewrite E. apply rnd_whole. nia. }
  rewrite En, ED, <- inject_Z_mult. apply rnd_whole. nia.
Qed.

(** One turn of the loop of [getSegments], for a time on ticks: the next
    time, the time counted from the start of the timeline and what is left
    of the Period. *)
Lemma loop_ticks_exact (timeFromPeriodStart : Q) (k : Z) :
  timeFromPeriodStart == inject_Z k -> (Z.abs k <= 2 ^ 51)%Z ->
  rnd (timeFromPeriodStart + d) == timeFromPeriodStart + d /\
  rnd (timeFromPeriodStart + rnd (ps * ts)) == timeFromPeriodStart + ps * ts /\
  forall scaledEnd,
    _scaledPeriodEnd this = Some scaledEnd ->
    rnd (scaledEnd - timeFromPeriodStart) == scaledEnd - timeFromPeriodStart.
Proof.
  intros E Hk.
  destruct whole_timescale as (T & ET & HT).
  destruct whole_duration as (D & ED & HD).
  destruct (wholeTicks_static this whole) as (_ & _ & Hps & Hend).
  apply (wholeTickTime_onTicks this T) in Hps; [|exact ET].
  destruct Hps as [_ (s & Es & Hs)]. rewrite <- ET in Es.
  split; [|split].
  - rewrite E, ED, <- inject_Z_plus. apply rnd_whole. lia.
  - rewrite scaledStart_exact, E, Es, <- inject_Z_plus. apply rnd_whole. lia.
  - intros scaledEnd He. specialize (Hend _ He).
    apply isTickCount_spec in Hend. destruct Hend as (e & Ee & Hek).
    assert (Ediff : scaledEnd - timeFromPeriodStart == inject_Z (e + - k)).
    { rewrite Ee, E, inject_Z_plus, inject_Z_opp. reflexivity. }
    rewrite Ediff. apply rnd_whole. lia.
Qed.

(** The start of a segment, when it is a binary64 number, is converted back
    to the ticks it was made from: what [isSegmentStillAvailable] asks
    [getSegments]. *)
Lemma segment_time_conversion (timeFromPeriodStart : Q) (k : Z) :
  timeFromPeriodStart == inject_Z k -> (Z.abs k <= 2 ^ 51)%Z ->
  let time := (timeFromPeriodStart + ps * ts) / ts in
  isDouble time = true ->
  rnd time == time /\
  rnd (rnd (time * ts) - rnd (ps * ts)) == timeFromPeriodStart.
Proof.
  intros E Hk time Hd.
  destruct whole_timescale as (T & ET & HT).
  destruct (wholeTicks_static this whole) as (_ & _ & Hps & _).
  apply (wholeTickTime_onTicks this T) in Hps; [|exact ET].
  destruct Hps as [_ (s & Es & Hs)]. rewrite <- ET in Es.
  assert (Hne : ~ ts == 0).
  { intro Z0. assert (H := timescale_pos). rewrite Z0 in H. discriminate H. }
  assert (Etime : time * ts == inject_Z (k + s)).
  { unfold time. rewrite inject_Z_plus, <- E, <- Es. field. exact Hne. }
  split; [now apply rnd_exact|].
  rewrite scaledStart_exact, Etime, rnd_whole, Es, E by lia.
  rewrite inject_Z_plus.
  assert (Ek : rnd (inject_Z k + inject_Z s - inject_Z s) == rnd (inject_Z k))
    by (apply rnd_Qeq; ring).
  rewrite Ek. apply rnd_whole. lia.
Qed.

(** The sum or difference of two whole-tick times, and its conversion to
    ticks. *)
Lemma onTicks_times (T : Z) (x y : Q) :
  ts == inject_Z T -> (0 < T <= 2 ^ 49)%Z ->
  wholeTickTime this x = true -> wholeTickTime this y = true ->
  (rnd (x - y) == x - y /\ rnd (rnd (x - y) * ts) == (x - y) * ts) /\
  (rnd (x + y) == x + y /\ rnd (rnd (x + y) * ts) == (x + y) * ts).
Proof.
  intros ET HT Hx Hy.
  apply (wholeTickTime_onTicks this T) in Hx; [|exact ET].
  apply (wholeTickTime_onTicks this T) in Hy; [|exact ET].
  assert (Hsub := onTicks_sub T (2 ^ 49) (2 ^ 49) x y HT ltac:(lia) Hx Hy).
  assert (Hadd := onTicks_add T (2 ^ 49) (2 ^ 49) x y HT ltac:(lia) Hx Hy).
  destruct (onTicks_conversion T (2 ^ 49 + 2 ^ 49) _ ltac:(lia) Hsub) as [S1 S2].
  destruct (onTicks_conversion T (2 ^ 49 + 2 ^ 49) _ ltac:(lia) Hadd) as [A1 A2].
  split; (split; [assumption|]).
  - rewrite (rnd_Qeq (rnd (x - y) * ts) ((x - y) * inject_Z T))
      by (rewrite S1, ET; reflexivity).
    rewrite S2, ET. reflexivity.
  - rewrite (rnd_Qeq (rnd (x + y) * ts) ((x + y) * inject_Z T))
      by (rewrite A1, ET; reflexivity).
    rewrite A2, ET. reflexivity.
Qed.

End Conversion.

(** ** Examples used below *)

(** A static index of 4 s segments (timescale 1) over a Period that starts at
    0 and ends at [periodEnd]. *)
Definition staticExample (periodEnd : Q) : TemplateRepresentationIndex :=
  {| _index := {| duration := 4; timescale := 1; indexTimeOffset := 0;
                  presentationTimeOffset := 0; startNumber := None |};
     _aggressiveMode := false;
     _manifestBoundsCalculator :=
       {| estimateMinimumBound := None; estimateMaximumBound := None |};
     _periodStart := 0;
     _scaledPeriodEnd := Some periodEnd;
     _availabilityTimeOffset := None;
     _isDynamic := false |}.

(** The dynamic scenario of section 8: [timescale=1000], [duration=4000],
    [start_number=1], [period_start=0], aggressive mode off, no availability
    time offset, availability start time 0, server time 100 s and a time-shift
    buffer depth of 20 s. *)
Definition scenarioIndexArgument : ITemplateIndexIndexArgument :=
  {| arg_duration := Some 4000;
     arg_presentationTimeOffset := None;
     arg_startNumber := Some 1%Z;
     arg_timescale := Some 1000 |}.

Definition scenarioContext : ITemplateIndexContextArgument :=
  {| aggressiveMode := false;
     availabilityTimeOffset := 0;
     manifestBoundsCalculator := dynamicBounds 100 0 20;
     periodStart := 0;
     periodEnd := None;
     isDynamic := true |}.

(** ** Properties of [getSegments] *)

Section Proofs.

Variable this : TemplateRepresentationIndex.
Hypothesis duration_pos : 0 < duration (_index this).
Hypothesis timescale_pos : 0 < timescale (_index this).

Lemma seg_time_makeSegment t n :
  seg_time (makeSegment this t n)
  = (t + _periodStart this * timescale (_index this)) / timescale (_index this).
Proof. reflexivity. Qed.



Lemma segmentsLoop_fuel fuel last t n k :
  last < t + inject_Z (Z.of_nat fuel) * duration (_index this) ->
  segmentsLoop this (fuel + k) last t n = segmentsLoop this fuel last t n.
Proof.
  revert t n. induction fuel as [|fuel IH]; intros t n Hlt.
  - change (inject_Z (Z.of_nat 0)) with 0 in Hlt.
    destruct k; simpl; [reflexivity|].
    assert (E : Qle_bool t last = false) by (apply Qle_bool_false; lra).
    now rewrite E.
  - simpl. destruct (Qle_bool t last); [|reflexivity].
    f_equal. apply IH.
    rewrite Nat2Z.inj_succ, <- Z.add_1_r, inject_Z_plus in Hlt.
    change (inject_Z 1) with 1 in Hlt. lra.
Qed.

Lemma loopBound_enough last start :
  last < start + inject_Z (Z.of_nat (loopBound this last start)) * duration (_index this).
Proof.
  unfold loopBound.
  set (d := duration (_index this)) in *.
  assert (H := floor_div_lt (last - start) d duration_pos).
  set (q := Qfloor ((last - start) / d)) in *.
  assert (Hq : (q + 1 <= Z.of_nat (Z.to_nat (q + 1)))%Z) by lia.
  assert (Hq' : inject_Z q + 1 <= inject_Z (Z.of_nat (Z.to_nat (q + 1)))).
  { rewrite Zle_Qle in Hq. rewrite inject_Z_plus in Hq. exact Hq. }
  assert (Hm : (inject_Z q + 1) * d <= inject_Z (Z.of_nat (Z.to_nat (q + 1))) * d).
  { apply Qmult_le_compat_r; [exact Hq' | lra]. }
  lra.
Qed.

End Proofs.

(** The fuel given to the loop of [getSegments] never cuts it short: with
    any extra fuel the loop returns the same list. *)
Lemma getSegments_loop_complete (this : TemplateRepresentationIndex)
      (last start : Q) (n : Z) (extra : nat) :
  0 < duration (_index this) ->
  segmentsLoop this (loopBound this last start + extra) last start n
  = segmentsLoop this (loopBound this last start) last start n.
Proof.
  intro Hd. apply segmentsLoop_fuel. now apply loopBound_enough.
Qed.



(** ** First and last position in the dynamic scenario *)

(** C5 (amended): in the scenario the index is built without error, its
    first position is 80 s, its last available segment starts at 96 s of the
    index timeline (96000 ticks) and its last position, the end of that
    segment, is 100 s. *)
Theorem scenario_positions :
  exists this, constructor scenarioIndexArgument scenarioContext = Some this /\
  (exists f, getFirstPosition this = Known f /\ f == 80) /\
  (exists l, _getLastSegmentStart this = Known l /\ l == 96000) /\
  (exists l, getLastPosition this = Known l /\ l == 100).
Proof.
  eexists. split; [reflexivity|].
  repeat split; eexists; (split; [vm_compute; reflexivity | reflexivity]).
Qed.

(** C5, as stated, fails: the last position of the scenario is 100 s, which
    is a full segment (4 s) away from the claimed 96 s. *)
Lemma scenario_last_position_is_not_96 :
  exists this, constructor scenarioIndexArgument scenarioContext = Some this /\
  exists l, getLastPosition this = Known l /\ ~ Qabs (l - 96) < 4.
Proof.
  eexists. split; [reflexivity|].
  eexists. split; [vm_compute; reflexivity|].
  vm_compute. discriminate.
Qed.

End Template.

(* ================================================================== *)
(** * Playback observer: freezing detection
    [src/core/api/playback_observer.ts] *)

Module PlaybackObserver.

(** Modelled from the spec: the configuration constant
    [MINIMUM_BUFFER_AMOUNT_BEFORE_FREEZING] of [config], which is not part of
    the sources at hand; section 6 of the specification gives 0.5 s. *)
Definition MINIMUM_BUFFER_AMOUNT_BEFORE_FREEZING : Q := 1 # 2.

(** [IPlaybackObserverEventType]. *)
Inductive IPlaybackObserverEventType : Type :=
| init
| timeupdate
| canplay
| canplaythrough
| play
| seeking
| seeked
| stalled
| loadedmetadata
| ratechange
| internal_seeking.

Definition event_eqb (a b : IPlaybackObserverEventType) : bool :=
  match a, b with
  | init, init | timeupdate, timeupdate | canplay, canplay
  | canplaythrough, canplaythrough | play, play | seeking, seeking
  | seeked, seeked | stalled, stalled | loadedmetadata, loadedmetadata
  | ratechange, ratechange | internal_seeking, internal_seeking => true
  | _, _ => false
  end.

(** The events of the media element on which an observation is made, next
    to the ["timeupdate"] of the sampling timer. *)
Definition SCANNED_MEDIA_ELEMENTS_EVENTS : list IPlaybackObserverEventType :=
  [canplay; play; seeking; seeked; loadedmetadata; ratechange].

(** [IFreezingStatus]. *)
Record IFreezingStatus := { timestamp : Q }.

(** [IMediaInfos], without the buffered ranges, which freezing detection
    does not read. *)
Record IMediaInfos := {
  bufferGap : num; (* [Infinity] when the position is in no buffered range *)
  position : Q;
  duration : Q;
  ended : bool;
  paused : bool;
  playbackRate : Q;
  readyState : Z;
  seeking_ : bool;
  event : IPlaybackObserverEventType
}.

(** [IPlaybackObservation]: the media information and the freezing status
    ([None] is [null]).  The rebuffering status, which [getFreezingStatus]
    neither reads nor writes, is left out. *)
Record IPlaybackObservation := {
  infos : IMediaInfos;
  freezing : option IFreezingStatus
}.

(** [getFreezingStatus]; [now] is the value of [performance.now()]. *)
Definition getFreezingStatus (now : Q) (prevObservation : IPlaybackObservation)
           (currentInfo : IMediaInfos) : option IFreezingStatus :=
  match freezing prevObservation with
  | Some prevFreezing =>
    if ended currentInfo
       || paused currentInfo
       || (readyState currentInfo =? 0)%Z
       || Qeq_bool (playbackRate currentInfo) 0
       || negb (Qeq_bool (position (infos prevObservation))
                         (position currentInfo))
    then None
    else Some prevFreezing
  | None =>
    if event_eqb (event currentInfo) timeupdate
       && num_gt (bufferGap currentInfo) MINIMUM_BUFFER_AMOUNT_BEFORE_FREEZING
       && negb (ended currentInfo)
       && negb (paused currentInfo)
       && (1 <=? readyState currentInfo)%Z
       && negb (Qeq_bool (playbackRate currentInfo) 0)
       && Qeq_bool (position currentInfo) (position (infos prevObservation))
    then Some {| timestamp := now |}
    else None
  end.

(** [getCurrentObservation], as far as freezing goes: the new observation
    holds the sampled information and the status derived from the last
    observation.  The event of [mediaTimings] is the one the source calls
    [tmpEvt]: ["seeking"] is already relabelled ["internal-seeking"] when the
    seek came from the player. *)
Definition getCurrentObservation (now : Q) (lastObservation : IPlaybackObservation)
           (mediaTimings : IMediaInfos) : IPlaybackObservation :=
  {| infos := mediaTimings;
     freezing := getFreezingStatus now lastObservation mediaTimings |}.

(** The observations emitted for a sequence of samples, each made at a time
    [now]; every new observation becomes [_lastObservation]. *)
Fixpoint observations (lastObservation : IPlaybackObservation)
         (samples : list (Q * IMediaInfos)) : list IPlaybackObservation :=
  match samples with
  | [] => []
  | (now, mediaTimings) :: rest =>
    let newObservation := getCurrentObservation now lastObservation mediaTimings in
    newObservation :: observations newObservation rest
  end.

(** The value of [_lastObservation] after a sequence of samples. *)
Fixpoint lastObservationAfter (lastObservation : IPlaybackObservation)
         (samples : list (Q * IMediaInfos)) : IPlaybackObservation :=
  match samples with
  | [] => lastObservation
  | (now, mediaTimings) :: rest =>
    lastObservationAfter
      (getCurrentObservation now lastObservation mediaTimings) rest
  end.

(** ** Properties *)

(** One of the five conditions that end a freeze holds between the previous
    observation and the current sample. *)
Definition quitsFreezing (prev : IPlaybackObservation) (cur : IMediaInfos) : Prop :=
  ~ position (infos prev) == position cur
  \/ paused cur = true
  \/ ended cur = true
  \/ readyState cur = 0%Z
  \/ playbackRate cur == 0.

(** No sample of the sequence meets a condition that ends a freeze. *)
Fixpoint neverQuits (prev : IPlaybackObservation)
         (samples : list (Q * IMediaInfos)) : Prop :=
  match samples with
  | [] => True
  | (now, cur) :: rest =>
    ~ quitsFreezing prev cur /\ neverQuits (getCurrentObservation now prev cur) rest
  end.

Lemma getFreezingStatus_quit now prev cur f :
  freezing prev = Some f -> quitsFreezing prev cur ->
  getFreezingStatus now prev cur = None.
Proof.
  intros Hf Hq. unfold getFreezingStatus. rewrite Hf.
  destruct Hq as [H|[H|[H|[H|H]]]].
  - assert (E : Qeq_bool (position (infos prev)) (position cur) = false).
    { destruct (Qeq_bool _ _) eqn:E; [|reflexivity].
      apply Qeq_bool_iff in E. contradiction. }
    rewrite E. simpl. now rewrite !orb_true_r.
  - rewrite H. simpl. now rewrite !orb_true_r.
  - now rewrite H.
  - rewrite H. simpl. now rewrite !orb_true_r.
  - apply Qeq_bool_iff in H. rewrite H. simpl. now rewrite !orb_true_r.
Qed.

Lemma getFreezingStatus_stay now prev cur f :
  freezing prev = Some f -> ~ quitsFreezing prev cur ->
  getFreezingStatus now prev cur = Some f.
Proof.
  intros Hf Hq. unfold getFreezingStatus. rewrite Hf.
  destruct (ended cur) eqn:E1.
  { exfalso. apply Hq. unfold quitsFreezing. tauto. }
  destruct (paused cur) eqn:E2.
  { exfalso. apply Hq. unfold quitsFreezing. tauto. }
  destruct (readyState cur =? 0)%Z eqn:E3.
  { exfalso. apply Hq. apply Z.eqb_eq in E3. unfold quitsFreezing. tauto. }
  destruct (Qeq_bool (playbackRate cur) 0) eqn:E4.
  { exfalso. apply Hq. apply Qeq_bool_iff in E4. unfold quitsFreezing. tauto. }
  destruct (Qeq_bool (position (infos prev)) (position cur)) eqn:E5;
    [reflexivity|].
  exfalso. apply Hq. left. intro H. apply Qeq_bool_iff in H. congruence.
Qed.

(** C8: once an observation carries a freezing status [f], every
    observation made from samples that meet none of the five conditions
    (position changed, paused, ended, [readyState = 0], [playbackRate = 0])
    carries the same [f], timestamp included; and the first sample that
    meets one of them yields an observation whose freezing status is
    [null]. *)
Theorem freezing_kept_until_quit (prev : IPlaybackObservation)
        (f : IFreezingStatus) (samples : list (Q * IMediaInfos)) :
  freezing prev = Some f ->
  neverQuits prev samples ->
  Forall (fun o => freezing o = Some f) (observations prev samples)
  /\ (forall now cur,
         quitsFreezing (lastObservationAfter prev samples) cur ->
         freezing (getCurrentObservation now (lastObservationAfter prev samples) cur)
         = None)
  /\ (forall now cur,
         ~ quitsFreezing (lastObservationAfter prev samples) cur ->
         freezing (getCurrentObservation now (lastObservationAfter prev samples) cur)
         = Some f).
Proof.
  revert prev. induction samples as [|[now cur] rest IH]; intros prev Hf Hn.
  - split; [constructor|]. simpl.
    split; intros now cur H.
    + now apply getFreezingStatus_quit with f.
    + now apply getFreezingStatus_stay.
  - destruct Hn as [Hstay Hrest].
    assert (Hnew : freezing (getCurrentObservation now prev cur) = Some f)
      by (simpl; now apply getFreezingStatus_stay).
    destruct (IH _ Hnew Hrest) as (Hall & Hquit & Hkeep).
    split; [|split; assumption].
    simpl. constructor; assumption.
Qed.

(** An observation that is not freezing, then two samples at an unchanged
    position while playing. *)
Definition playingInfos (evt : IPlaybackObserverEventType) : IMediaInfos :=
  {| bufferGap := Finite 10; position := 5; duration := 60;
     ended := false; paused := false; playbackRate := 1; readyState := 4%Z;
     seeking_ := false; event := evt |}.

Definition frozenObservation : IPlaybackObservation :=
  {| infos := playingInfos timeupdate; freezing := Some {| timestamp := 1000 |} |}.

(** The theorem on a freeze followed by two samples at the same
    position. *)
Lemma freezing_kept_until_quit_witness :
  freezing frozenObservation = Some {| timestamp := 1000 |} /\
  neverQuits frozenObservation [(2000, playingInfos timeupdate); (2500, playingInfos seeked)] /\
  Forall (fun o => freezing o = Some {| timestamp := 1000 |})
         (observations frozenObservation
                       [(2000, playingInfos timeupdate); (2500, playingInfos seeked)]).
Proof.
  assert (Hf : freezing frozenObservation = Some {| timestamp := 1000 |})
    by reflexivity.
  assert (Hn : neverQuits frozenObservation
                 [(2000, playingInfos timeupdate); (2500, playingInfos seeked)]).
  { simpl. unfold quitsFreezing. simpl.
    repeat split; intros [H|[H|[H|[H|H]]]];
      try discriminate H; apply H; reflexivity. }
  split; [exact Hf|]. split; [exact Hn|].
  exact (proj1 (freezing_kept_until_quit frozenObservation _ _ Hf Hn)).
Defined.

(** C7 (amended): from an observation that is not freezing, a sample taken
    on the sampling timer (event ["timeupdate"]) at an unchanged position,
    with [bufferGap > MINIMUM_BUFFER_AMOUNT_BEFORE_FREEZING], not paused, not
    ended, [readyState >= 1] and a non-zero [playbackRate], starts a freeze
    stamped with the current time; a sample triggered by any other event,
    whatever it holds, leaves the freezing status at [null]. *)
Theorem freezing_starts_only_on_timeupdate (now : Q) (prev : IPlaybackObservation)
        (cur : IMediaInfos) :
  freezing prev = None ->
  (event cur = timeupdate ->
   position cur == position (infos prev) ->
   num_gt (bufferGap cur) MINIMUM_BUFFER_AMOUNT_BEFORE_FREEZING = true ->
   paused cur = false ->
   ended cur = false ->
   (1 <= readyState cur)%Z ->
   ~ playbackRate cur == 0 ->
   freezing (getCurrentObservation now prev cur) = Some {| timestamp := now |})
  /\ (event cur <> timeupdate ->
      freezing (getCurrentObservation now prev cur) = None).
Proof.
  intros Hf. split.
  - intros He Hp Hb Hpa Hen Hr Hrate. simpl. unfold getFreezingStatus.
    rewrite Hf, He, Hb, Hpa, Hen. simpl.
    apply Z.leb_le in Hr. rewrite Hr.
    apply Qeq_bool_iff in Hp. rewrite Hp.
    destruct (Qeq_bool (playbackRate cur) 0) eqn:E; [|reflexivity].
    apply Qeq_bool_iff in E. contradiction.
  - intros He. simpl. unfold getFreezingStatus. rewrite Hf.
    destruct (event cur); try reflexivity. contradiction He. reflexivity.
Qed.

Definition playingObservation : IPlaybackObservation :=
  {| infos := playingInfos timeupdate; freezing := None |}.

(** The theorem on a sample of the timer at an unchanged position, and on a
    sample made on ["ratechange"]. *)
Lemma freezing_starts_only_on_timeupdate_witness :
  freezing playingObservation = None /\
  freezing (getCurrentObservation 2000 playingObservation (playingInfos timeupdate))
    = Some {| timestamp := 2000 |} /\
  freezing (getCurrentObservation 2000 playingObservation (playingInfos ratechange))
    = None.
Proof.
  split; [reflexivity|]. split.
  - apply (freezing_starts_only_on_timeupdate 2000 playingObservation
             (playingInfos timeupdate)); try reflexivity.
    + simpl. lia.
    + simpl. intro H. discriminate H.
  - apply (freezing_starts_only_on_timeupdate 2000 playingObservation
             (playingInfos ratechange)); [reflexivity|].
    simpl. intro H. discriminate H.
Defined.

(** C7, as stated, fails: a sample triggered by a media-element event (here
    ["seeked"], one of [SCANNED_MEDIA_ELEMENTS_EVENTS]) that meets every
    other condition leaves the freezing status at [null]. *)
Lemma freezing_not_started_on_media_event :
  In seeked SCANNED_MEDIA_ELEMENTS_EVENTS /\
  freezing playingObservation = None /\
  position (playingInfos seeked) == position (infos playingObservation) /\
  num_gt (bufferGap (playingInfos seeked)) MINIMUM_BUFFER_AMOUNT_BEFORE_FREEZING = true /\
  paused (playingInfos seeked) = false /\
  ended (playingInfos seeked) = false /\
  (1 <= readyState (playingInfos seeked))%Z /\
  ~ playbackRate (playingInfos seeked) == 0 /\
  freezing (getCurrentObservation 2000 playingObservation (playingInfos seeked)) = None.
Proof.
  repeat split; try reflexivity.
  - simpl. tauto.
  - simpl. lia.
  - simpl. intro H. discriminate H.
Qed.

End PlaybackObserver.

(* ================================================================== *)
(** * Segment fetcher: request accounting
    [src/core/fetchers/segment/create_segment_loader.ts], second part
    ([createSegmentFetcher]) *)

Module SegmentFetcher.

(** The [requestId] of a loader event: a string or [undefined]. *)
Definition requestId := option string.

Definition requestId_eq_dec (a b : requestId) : {a = b} + {a <> b}.
Proof. decide equality. apply string_dec. Defined.

(** Events emitted by the segment loader ([ISegmentLoaderEvent]), reduced to
    the fields the fetcher reads. *)
Inductive ISegmentLoaderEvent : Type :=
| request_begin (id : requestId)
| progress (id : requestId) (duration size : Q) (totalSize : option Q)
| request_end (id : requestId) (size duration : option Q)
| warning
| data
| chunk
| chunk_complete.

(** Events the fetcher pushes to the [requests$] subject of the ABR. *)
Inductive IABREvent : Type :=
| requestBegin (id : string) (duration time requestTimestamp : Q)
| progressEvent (id : string) (duration size totalSize timestamp : Q)
| metrics (size duration : Q)
| requestEnd (id : string).

(** The fields of [content.segment] read by the fetcher. *)
Record ISegment := {
  seg_duration : Q;
  seg_time : Q;
  seg_timescale : Q
}.

(** [getFetcherId]. *)
Definition getFetcherId (idPrefix : string) (id : requestId) : string :=
  (idPrefix ++ match id with
               | Some r => "_" ++ r
               | None => ""
               end)%string.

(** [sentIds.indexOf(id)] followed by [sentIds.splice(index, 1)]: the first
    occurrence of [id] is removed; [None] when [indexOf] returns [-1]. *)
Fixpoint spliceFirst (id : string) (sentIds : list string) : option (list string) :=
  match sentIds with
  | [] => None
  | x :: rest =>
    if String.eqb x id then Some rest
    else option_map (cons x) (spliceFirst id rest)
  end.

(** The [tap] callback of [fetchSegment] on one loader event received at time
    [now]: the new value of [sentIds] and the events pushed to [requests$]. *)
Definition onLoaderEvent (idPrefix : string) (segment : ISegment) (now : Q)
           (sentIds : list string) (arg : ISegmentLoaderEvent)
  : list string * list IABREvent :=
  match arg with
  | request_begin rid =>
    let id := getFetcherId idPrefix rid in
    let duration := seg_duration segment / seg_timescale segment in
    let time := seg_time segment / seg_timescale segment in
    (sentIds ++ [id], [requestBegin id duration time now])
  | progress rid duration size totalSize =>
    let id := getFetcherId idPrefix rid in
    match totalSize with
    | Some total =>
      if Qlt_bool size total
      then (sentIds, [progressEvent id duration size total now])
      else (sentIds, [])
    | None => (sentIds, [])
    end
  | request_end rid size duration =>
    let id := getFetcherId idPrefix rid in
    let sentMetrics :=
      match size, duration with
      | Some s, Some d => [metrics s d]
      | _, _ => []
      end in
    match spliceFirst id sentIds with
    | Some sentIds' => (sentIds', sentMetrics ++ [requestEnd id])
    | None => (sentIds, sentMetrics)
    end
  | _ => (sentIds, [])
  end.

(** The [tap] over the loader events received until the stream ends. *)
Fixpoint tapEvents (idPrefix : string) (segment : ISegment)
         (sentIds : list string) (events : list (Q * ISegmentLoaderEvent))
  : list string * list IABREvent :=
  match events with
  | [] => (sentIds, [])
  | (now, arg) :: rest =>
    let '(sentIds1, out1) := onLoaderEvent idPrefix segment now sentIds arg in
    let '(sentIds2, out2) := tapEvents idPrefix segment sentIds1 rest in
    (sentIds2, out1 ++ out2)
  end.

(** The [finalize] callback: the loop shifts [sentIds] until it is empty. *)
Definition finalize (sentIds : list string) : list IABREvent :=
  map requestEnd sentIds.

(** What [fetchSegment] pushes to [requests$] for one fetch: [events] are the
    loader events received before the stream completed, failed or was
    unsubscribed from, each of which runs [finalize]. *)
Definition fetchSegment (idPrefix : string) (segment : ISegment)
           (events : list (Q * ISegmentLoaderEvent)) : list IABREvent :=
  let '(sentIds, out) := tapEvents idPrefix segment [] events in
  out ++ finalize sentIds.

(** ** The life cycle of one request id, as the specification words it *)

(** Where a request id stands in a sequence of events: not begun, begun and
    not ended, ended; [Violated] once an event of that id came out of
    turn. *)
Inductive phase : Type := NotBegun | Open | Ended | Violated.

Definition lifecycleStep (id : string) (p : phase) (e : IABREvent) : phase :=
  match e with
  | requestBegin i _ _ _ =>
    if String.eqb i id
    then match p with NotBegun => Open | _ => Violated end
    else p
  | progressEvent i _ _ _ _ =>
    if String.eqb i id
    then match p with Open => Open | _ => Violated end
    else p
  | requestEnd i =>
    if String.eqb i id
    then match p with Open => Ended | _ => Violated end
    else p
  | metrics _ _ => p
  end.

Definition lifecycle (id : string) (p : phase) (out : list IABREvent) : phase :=
  fold_left (lifecycleStep id) out p.

Definition isBegin (id : string) (e : IABREvent) : bool :=
  match e with requestBegin i _ _ _ => String.eqb i id | _ => false end.

Definition isEnd (id : string) (e : IABREvent) : bool :=
  match e with requestEnd i => String.eqb i id | _ => false end.

Definition countBegin (id : string) (out : list IABREvent) : nat :=
  List.length (filter (isBegin id) out).

Definition countEnd (id : string) (out : list IABREvent) : nat :=
  List.length (filter (isEnd id) out).

(** ** What is asked of the loader *)

(** [splice] of the first occurrence, on loader request ids. *)
Fixpoint closeRequest (r : requestId) (opened : list requestId) : list requestId :=
  match opened with
  | [] => []
  | x :: rest =>
    if requestId_eq_dec x r then rest else x :: closeRequest r rest
  end.

(** The state of the loader's requests: the ids begun so far and, in the
    order they were begun, those not yet ended. *)
Record loaderRequests := {
  begun : list requestId;
  opened : list requestId
}.

Definition loaderStep (st : loaderRequests) (arg : ISegmentLoaderEvent)
  : loaderRequests :=
  match arg with
  | request_begin r => {| begun := r :: begun st; opened := opened st ++ [r] |}
  | request_end r _ _ => {| begun := begun st; opened := closeRequest r (opened st) |}
  | _ => st
  end.

Definition loaderStepAllowed (st : loaderRequests) (arg : ISegmentLoaderEvent)
  : Prop :=
  match arg with
  | request_begin r => ~ In r (begun st)
  | progress r _ _ _ => In r (opened st)
  | _ => True
  end.

(** The loader gives every request it begins a request id it has not used
    before, and reports progress only for a request that is begun and not
    ended. *)
Fixpoint loaderProtocol (st : loaderRequests)
         (events : list (Q * ISegmentLoaderEvent)) : Prop :=
  match events with
  | [] => True
  | (_, arg) :: rest =>
    loaderStepAllowed st arg /\ loaderProtocol (loaderStep st arg) rest
  end.

Definition loaderState (st : loaderRequests)
           (events : list (Q * ISegmentLoaderEvent)) : loaderRequests :=
  fold_left (fun st e => loaderStep st (snd e)) events st.

Definition noRequest : loaderRequests := {| begun := []; opened := [] |}.

(** Where the id of a loader request stands, from the state of the
    loader. *)
Definition phaseOf (st : loaderRequests) (r : requestId) : phase :=
  if in_dec requestId_eq_dec r (opened st) then Open
  else if in_dec requestId_eq_dec r (begun st) then Ended
  else NotBegun.

(** The request ids of the [request-begin] events of a loader trace. *)
Fixpoint begunIds (events : list (Q * ISegmentLoaderEvent)) : list requestId :=
  match events with
  | [] => []
  | (_, request_begin r) :: rest => r :: begunIds rest
  | _ :: rest => begunIds rest
  end.

(** ** Properties *)

Lemma string_app_inv_head (p a b : string) : (p ++ a = p ++ b)%string -> a = b.
Proof.
  induction p as [|c p IH]; simpl; intro H; [exact H|].
  injection H as H. now apply IH.
Qed.

Lemma getFetcherId_inj (idPrefix : string) (a b : requestId) :
  getFetcherId idPrefix a = getFetcherId idPrefix b -> a = b.
Proof.
  unfold getFetcherId. intro H. apply string_app_inv_head in H.
  destruct a as [a|], b as [b|]; simpl in H;
    try discriminate H; [|reflexivity].
  injection H as ->. reflexivity.
Qed.

Lemma getFetcherId_eqb (idPrefix : string) (a b : requestId) :
  String.eqb (getFetcherId idPrefix a) (getFetcherId idPrefix b)
  = if requestId_eq_dec a b then true else false.
Proof.
  destruct (requestId_eq_dec a b) as [->|Hne].
  - apply String.eqb_refl.
  - apply String.eqb_neq. intro H. apply Hne. now apply getFetcherId_inj in H.
Qed.

Lemma spliceFirst_map (idPrefix : string) (r : requestId) (opened : list requestId) :
  spliceFirst (getFetcherId idPrefix r) (map (getFetcherId idPrefix) opened)
  = if in_dec requestId_eq_dec r opened
    then Some (map (getFetcherId idPrefix) (closeRequest r opened))
    else None.
Proof.
  induction opened as [|x rest IH]; simpl; [reflexivity|].
  rewrite getFetcherId_eqb.
  destruct (requestId_eq_dec x r) as [->|Hne].
  - reflexivity.
  - rewrite IH. destruct (in_dec requestId_eq_dec r rest); reflexivity.
Qed.

Lemma closeRequest_In (r x : requestId) (opened : list requestId) :
  x <> r -> (In x (closeRequest r opened) <-> In x opened).
Proof.
  intro Hne. induction opened as [|y rest IH]; simpl; [tauto|].
  destruct (requestId_eq_dec y r) as [->|Hy]; simpl.
  - split; [tauto|]. intros [H|H]; [congruence | exact H].
  - rewrite IH. tauto.
Qed.

Lemma closeRequest_incl (r : requestId) (opened : list requestId) :
  incl (closeRequest r opened) opened.
Proof.
  induction opened as [|y rest IH]; simpl; [apply incl_refl|].
  destruct (requestId_eq_dec y r).
  - apply incl_tl, incl_refl.
  - intros z [->|Hz]; [now left | right; now apply IH].
Qed.

Lemma closeRequest_NoDup (r : requestId) (opened : list requestId) :
  NoDup opened -> NoDup (closeRequest r opened) /\ ~ In r (closeRequest r opened).
Proof.
  induction opened as [|y rest IH]; simpl; intro Hnd.
  - split; [constructor | tauto].
  - inversion Hnd as [|? ? Hy Hrest]; subst.
    destruct (requestId_eq_dec y r) as [->|Hne].
    + split; assumption.
    + destruct (IH Hrest) as [H1 H2]. split.
      * constructor; [|exact H1]. intro H. apply Hy. now apply closeRequest_incl in H.
      * simpl. intros [H|H]; [congruence | contradiction].
Qed.

Lemma closeRequest_absent (r : requestId) (opened : list requestId) :
  ~ In r opened -> closeRequest r opened = opened.
Proof.
  induction opened as [|y rest IH]; simpl; intro H; [reflexivity|].
  destruct (requestId_eq_dec y r) as [->|Hne]; [tauto|].
  f_equal. apply IH. tauto.
Qed.


Section Accounting.

Variables (idPrefix : string) (segment : ISegment).
Let gid := getFetcherId idPrefix.

Lemma phaseOf_open st r : In r (opened st) -> phaseOf st r = Open.
Proof. intro H. unfold phaseOf. destruct (in_dec _ r (opened st)); tauto. Qed.

Lemma phaseOf_congr st st' r :
  (In r (opened st) <-> In r (opened st')) ->
  (In r (begun st) <-> In r (begun st')) ->
  phaseOf st r = phaseOf st' r.
Proof.
  intros H1 H2. unfold phaseOf.
  destruct (in_dec _ r (opened st)), (in_dec _ r (opened st')); try tauto.
  destruct (in_dec _ r (begun st)), (in_dec _ r (begun st')); tauto.
Qed.

Lemma lifecycle_app id p out1 out2 :
  lifecycle id p (out1 ++ out2) = lifecycle id (lifecycle id p out1) out2.
Proof. apply fold_left_app. Qed.

Lemma lifecycle_cons id p e out :
  lifecycle id p (e :: out) = lifecycle id (lifecycleStep id p e) out.
Proof. reflexivity. Qed.

(** The state of the loader's requests is such that the ids still open are
    pairwise distinct and all begun. *)
Definition consistent (st : loaderRequests) : Prop :=
  NoDup (opened st) /\ incl (opened st) (begun st).

Lemma loaderStep_consistent st arg :
  consistent st -> loaderStepAllowed st arg -> consistent (loaderStep st arg).
Proof.
  intros [Hnd Hincl] Hok. destruct arg as [r0|r0 d s total|r0 s d| | | |];
    try (split; assumption); simpl in *.
  - split; simpl.
    + apply NoDup_app; [exact Hnd | repeat constructor; simpl; tauto |].
      intros x Hx [->|[]]. apply Hok. now apply Hincl.
    + intros x Hx. apply in_app_or in Hx. destruct Hx as [Hx|[->|[]]];
        [right; now apply Hincl | now left].
  - split; simpl.
    + apply closeRequest_NoDup, Hnd.
    + intros x Hx. apply Hincl. now apply closeRequest_incl in Hx.
Qed.

(** One loader event: [sentIds] follows the open requests of the loader and
    the events pushed move the life cycle of every id as the loader's state
    moves. *)
Lemma onLoaderEvent_lifecycle st now arg r :
  consistent st -> loaderStepAllowed st arg ->
  let res := onLoaderEvent idPrefix segment now (map gid (opened st)) arg in
  fst res = map gid (opened (loaderStep st arg))
  /\ lifecycle (gid r) (phaseOf st r) (snd res) = phaseOf (loaderStep st arg) r.
Proof.
  intros [Hnd Hincl] Hok.
  destruct arg as [r0|r0 d s total|r0 s d| | | |];
    try (split; reflexivity); cbn [onLoaderEvent loaderStep] in *.
  - (* request-begin *)
    cbn [fst snd]. split; [cbn [opened]; rewrite map_app; reflexivity|].
    rewrite lifecycle_cons. cbn [lifecycle fold_left lifecycleStep].
    unfold gid. rewrite getFetcherId_eqb.
    destruct (requestId_eq_dec r0 r) as [->|Hne].
    + simpl in Hok.
      assert (Hno : ~ In r (opened st)) by (intro H; apply Hok; now apply Hincl).
      unfold phaseOf at 1.
      destruct (in_dec requestId_eq_dec r (opened st)); [tauto|].
      destruct (in_dec requestId_eq_dec r (begun st)); [tauto|].
      symmetry. apply phaseOf_open. simpl. apply in_or_app. right. now left.
    + apply phaseOf_congr; simpl.
      * rewrite in_app_iff. simpl. split; [tauto|].
        intros [H|[H|[]]]; [exact H | congruence].
      * split; [tauto|]. intros [H|H]; [congruence | exact H].
  - (* progress *)
    simpl in Hok.
    assert (Hstep : forall a b c e,
               lifecycle (gid r) (phaseOf st r) [progressEvent (gid r0) a b c e]
               = phaseOf st r).
    { intros a b c e. cbn [lifecycle fold_left lifecycleStep].
      unfold gid. rewrite getFetcherId_eqb.
      destruct (requestId_eq_dec r0 r) as [->|Hne]; [|reflexivity].
      now rewrite (phaseOf_open st r Hok). }
    destruct total as [total|]; [destruct (Qlt_bool s total)|];
      cbn [fst snd]; split; try reflexivity.
    apply Hstep.
  - (* request-end *)
    unfold gid. rewrite spliceFirst_map. fold gid.
    set (sentMetrics := match s with
                        | Some s0 => match d with Some d0 => [metrics s0 d0] | None => [] end
                        | None => [] end).
    assert (Hm : forall p, lifecycle (gid r) p sentMetrics = p).
    { intro p. unfold sentMetrics. destruct s, d; reflexivity. }
    destruct (closeRequest_NoDup r0 (opened st) Hnd) as [Hnd' Hgone].
    destruct (in_dec requestId_eq_dec r0 (opened st)) as [Hin|Hout];
      cbn [fst snd opened].
    + split; [reflexivity|].
      rewrite lifecycle_app, Hm. cbn [lifecycle fold_left lifecycleStep].
      unfold gid. rewrite getFetcherId_eqb.
      destruct (requestId_eq_dec r0 r) as [->|Hne].
      * rewrite (phaseOf_open st r Hin).
        unfold phaseOf. cbn [opened begun].
        destruct (in_dec requestId_eq_dec r (closeRequest r (opened st))); [tauto|].
        destruct (in_dec requestId_eq_dec r (begun st)) as [|Hb]; [reflexivity|].
        exfalso. apply Hb. now apply Hincl.
      * apply phaseOf_congr; cbn [opened begun]; [|tauto].
        symmetry. apply closeRequest_In. congruence.
    + rewrite (closeRequest_absent _ _ Hout). split; [reflexivity|].
      rewrite Hm. apply phaseOf_congr; cbn [opened begun]; tauto.
Qed.

Lemma tapEvents_lifecycle (events : list (Q * ISegmentLoaderEvent)) :
  forall st r,
    consistent st -> loaderProtocol st events ->
    let res := tapEvents idPrefix segment (map gid (opened st)) events in
    fst res = map gid (opened (loaderState st events))
    /\ consistent (loaderState st events)
    /\ lifecycle (gid r) (phaseOf st r) (snd res)
       = phaseOf (loaderState st events) r.
Proof.
  induction events as [|[now arg] rest IH]; intros st r Hc Hp.
  - simpl. auto.
  - destruct Hp as [Hok Hp].
    destruct (onLoaderEvent_lifecycle st now arg r Hc Hok) as [Hids Hlife].
    assert (Hc' := loaderStep_consistent st arg Hc Hok).
    specialize (IH (loaderStep st arg) r Hc' Hp).
    cbn [tapEvents loaderState fold_left snd].
    destruct (onLoaderEvent idPrefix segment now (map gid (opened st)) arg)
      as [ids1 out1].
    cbn [fst snd] in Hids, Hlife. subst ids1.
    destruct (tapEvents idPrefix segment (map gid (opened (loaderStep st arg))) rest)
      as [ids2 out2].
    cbn [fst snd] in *. destruct IH as (H1 & H2 & H3).
    repeat split; try assumption; try apply H2.
    now rewrite lifecycle_app, Hlife.
Qed.

(** [finalize] ends every request that is still open. *)
Lemma finalize_lifecycle (left : list requestId) :
  forall begun0 r,
    NoDup left -> incl left begun0 ->
    lifecycle (gid r) (phaseOf {| begun := begun0; opened := left |} r)
              (finalize (map gid left))
    = phaseOf {| begun := begun0; opened := [] |} r.
Proof.
  induction left as [|x rest IH]; intros begun0 r Hnd Hincl; [reflexivity|].
  inversion Hnd as [|? ? Hx Hrest]; subst.
  assert (Hincl' : incl rest begun0) by (intros y Hy; apply Hincl; now right).
  cbn [map finalize]. fold (finalize (map gid rest)).
  rewrite lifecycle_cons. rewrite <- (IH begun0 r Hrest Hincl'). f_equal.
  cbn [lifecycleStep]. unfold gid. rewrite getFetcherId_eqb.
  destruct (requestId_eq_dec x r) as [->|Hne].
  - rewrite phaseOf_open by (now left).
    unfold phaseOf. cbn [opened begun].
    destruct (in_dec requestId_eq_dec r rest); [tauto|].
    destruct (in_dec requestId_eq_dec r begun0) as [|Hb]; [reflexivity|].
    exfalso. apply Hb, Hincl. now left.
  - apply phaseOf_congr; cbn [opened begun]; [|tauto].
    simpl. split; [|tauto]. intros [H|H]; [congruence | exact H].
Qed.

End Accounting.

Lemma loaderState_begun (events : list (Q * ISegmentLoaderEvent)) :
  forall st r, In r (begun (loaderState st events))
               <-> In r (begun st) \/ In r (begunIds events).
Proof.
  induction events as [|[now arg] rest IH]; intros st r; simpl; [tauto|].
  unfold loaderState in *. cbn [fold_left snd]. rewrite IH.
  destruct arg; simpl; tauto.
Qed.

(** How many [requestBegin] and [requestEnd] of an id a phase stands for. *)
Definition begunIn (p : phase) : nat :=
  match p with Open | Ended => 1 | _ => 0 end.

Definition endedIn (p : phase) : nat :=
  match p with Ended => 1 | _ => 0 end.

Lemma lifecycle_Violated id out : lifecycle id Violated out = Violated.
Proof.
  induction out as [|e out IH]; [reflexivity|].
  rewrite lifecycle_cons. destruct e; cbn [lifecycleStep];
    try destruct (String.eqb _ _); exact IH.
Qed.

Lemma lifecycle_counts id out :
  forall p, lifecycle id p out <> Violated ->
            begunIn (lifecycle id p out) = (begunIn p + countBegin id out)%nat
            /\ endedIn (lifecycle id p out) = (endedIn p + countEnd id out)%nat.
Proof.
  unfold countBegin, countEnd.
  induction out as [|e out IH]; intros p Hv; [simpl; lia|].
  rewrite lifecycle_cons in *.
  destruct (IH _ Hv) as [Hb He]. rewrite Hb, He. clear Hb He IH.
  assert (Hp : lifecycleStep id p e <> Violated).
  { intro H. rewrite H, lifecycle_Violated in Hv. now apply Hv. }
  clear Hv. cbn [filter].
  destruct e as [i ? ? ?|i ? ? ? ?| ? ?|i]; cbn [lifecycleStep isBegin isEnd] in *;
    try destruct (String.eqb i id); destruct p; simpl in *;
      try (exfalso; apply Hp; reflexivity); lia.
Qed.

(** Occurrences of [id] in [sentIds]. *)
Definition pending (id : string) (sentIds : list string) : nat :=
  List.length (filter (fun x => String.eqb x id) sentIds).

Lemma spliceFirst_pending (x id : string) (sentIds : list string) :
  match spliceFirst x sentIds with
  | Some sentIds' =>
    pending id sentIds = (pending id sentIds' + if String.eqb x id then 1 else 0)%nat
  | None => True
  end.
Proof.
  unfold pending. induction sentIds as [|y rest IH]; simpl; [exact I|].
  destruct (String.eqb y x) eqn:E.
  - apply String.eqb_eq in E. subst y. destruct (String.eqb x id); simpl; lia.
  - destruct (spliceFirst x rest) as [rest'|]; simpl; [|exact I].
    destruct (String.eqb y id); simpl; lia.
Qed.

Lemma countBegin_app id a b :
  countBegin id (a ++ b) = (countBegin id a + countBegin id b)%nat.
Proof. unfold countBegin. now rewrite filter_app, length_app. Qed.

Lemma countEnd_app id a b :
  countEnd id (a ++ b) = (countEnd id a + countEnd id b)%nat.
Proof. unfold countEnd. now rewrite filter_app, length_app. Qed.

Lemma pending_app id a b :
  pending id (a ++ b) = (pending id a + pending id b)%nat.
Proof. unfold pending. now rewrite filter_app, length_app. Qed.

Lemma onLoaderEvent_balance idPrefix segment now sentIds arg id :
  let res := onLoaderEvent idPrefix segment now sentIds arg in
  (countBegin id (snd res) + pending id sentIds
   = countEnd id (snd res) + pending id (fst res))%nat.
Proof.
  destruct arg as [r0|r0 d s total|r0 s d| | | |]; cbn [onLoaderEvent];
    try reflexivity.
  - cbn [fst snd]. rewrite pending_app.
    generalize (pending id sentIds). intro k.
    unfold countBegin, countEnd, pending. cbn [filter isBegin isEnd].
    destruct (String.eqb (getFetcherId idPrefix r0) id); cbn [List.length]; lia.
  - destruct total as [total|]; [destruct (Qlt_bool s total)|]; reflexivity.
  - assert (H := spliceFirst_pending (getFetcherId idPrefix r0) id sentIds).
    set (sentMetrics := match s with
                        | Some s0 => match d with Some d0 => [metrics s0 d0] | None => [] end
                        | None => [] end).
    assert (Hm : countBegin id sentMetrics = 0%nat /\ countEnd id sentMetrics = 0%nat).
    { unfold sentMetrics. destruct s, d; split; reflexivity. }
    destruct Hm as [Hm1 Hm2].
    destruct (spliceFirst (getFetcherId idPrefix r0) sentIds) as [ids'|];
      cbn [fst snd].
    + rewrite countBegin_app, countEnd_app, Hm1, Hm2, H.
      unfold countBegin, countEnd. cbn.
      destruct (String.eqb (getFetcherId idPrefix r0) id); simpl; lia.
    + lia.
Qed.

Lemma tapEvents_balance idPrefix segment events id :
  forall sentIds,
    let res := tapEvents idPrefix segment sentIds events in
    (countBegin id (snd res) + pending id sentIds
     = countEnd id (snd res) + pending id (fst res))%nat.
Proof.
  induction events as [|[now arg] rest IH]; intro sentIds; [reflexivity|].
  cbn [tapEvents].
  assert (H1 := onLoaderEvent_balance idPrefix segment now sentIds arg id).
  destruct (onLoaderEvent idPrefix segment now sentIds arg) as [ids1 out1].
  specialize (IH ids1).
  destruct (tapEvents idPrefix segment ids1 rest) as [ids2 out2].
  cbn [fst snd] in *. rewrite countBegin_app, countEnd_app. lia.
Qed.

Lemma finalize_counts id ids :
  countBegin id (finalize ids) = 0%nat
  /\ countEnd id (finalize ids) = pending id ids.
Proof.
  unfold finalize, countBegin, countEnd, pending.
  induction ids as [|x ids [IH1 IH2]]; [split; reflexivity|].
  cbn [map filter isBegin isEnd].
  split; [exact IH1|]. destruct (String.eqb x id); simpl; now rewrite IH2.
Qed.

(** Whatever the loader emits, once the fetch has ended every id has been
    given as many [requestEnd] as [requestBegin] events. *)
Lemma fetchSegment_balanced idPrefix segment events id :
  countBegin id (fetchSegment idPrefix segment events)
  = countEnd id (fetchSegment idPrefix segment events).
Proof.
  unfold fetchSegment.
  assert (H := tapEvents_balance idPrefix segment events id []).
  destruct (tapEvents idPrefix segment [] events) as [ids out].
  cbn [fst snd] in H. rewrite countBegin_app, countEnd_app.
  destruct (finalize_counts id ids) as [Hf1 Hf2]. rewrite Hf1, Hf2.
  change (pending id []) with 0%nat in H. lia.
Qed.

(** C2 (amended): when the loader gives every request it begins a request
    id it has not used before and reports progress only for a request that
    is begun and not ended, then for every loader request id [r], with
    [id = getFetcherId idPrefix r]: if the loader began [r] before the fetch
    ended (completed, failed or was unsubscribed from), the events pushed to
    [requests$] hold exactly one [requestBegin] for [id], then its progress
    events, then exactly one [requestEnd] for [id]; if it did not, they hold
    neither.  In any case every id is given as many [requestEnd] as
    [requestBegin] events. *)
Theorem request_lifecycle (idPrefix : string) (segment : ISegment)
        (events : list (Q * ISegmentLoaderEvent)) (r : requestId) :
  loaderProtocol noRequest events ->
  let out := fetchSegment idPrefix segment events in
  let id := getFetcherId idPrefix r in
  (forall anyId, countBegin anyId out = countEnd anyId out)
  /\ (In r (begunIds events) ->
   lifecycle id NotBegun out = Ended
   /\ countBegin id out = 1%nat /\ countEnd id out = 1%nat)
  /\ (~ In r (begunIds events) ->
      lifecycle id NotBegun out = NotBegun
      /\ countBegin id out = 0%nat /\ countEnd id out = 0%nat).
Proof.
  intros Hp out id.
  split; [intro anyId; apply fetchSegment_balanced|].
  assert (Hc : consistent noRequest) by (split; [constructor | apply incl_refl]).
  destruct (tapEvents_lifecycle idPrefix segment events noRequest r Hc Hp)
    as (Hids & [Hnd Hincl] & Hlife).
  assert (Hout : lifecycle id NotBegun out
                 = phaseOf {| begun := begun (loaderState noRequest events);
                              opened := [] |} r).
  { unfold out, fetchSegment.
    change (tapEvents idPrefix segment [] events)
      with (tapEvents idPrefix segment
                      (map (getFetcherId idPrefix) (opened noRequest)) events).
    destruct (tapEvents idPrefix segment (map (getFetcherId idPrefix) (opened noRequest)) events)
      as [ids o]. cbn [fst snd] in *. subst ids.
    rewrite lifecycle_app. change (phaseOf noRequest r) with NotBegun in Hlife.
    unfold id. rewrite Hlife.
    rewrite <- (finalize_lifecycle idPrefix _ _ r Hnd Hincl).
    destruct (loaderState noRequest events); reflexivity. }
  assert (Hbegun : In r (begun (loaderState noRequest events)) <-> In r (begunIds events)).
  { rewrite loaderState_begun. simpl. tauto. }
  unfold phaseOf in Hout. cbn [opened begun] in Hout.
  destruct (in_dec requestId_eq_dec r []) as [[]|_].
  destruct (in_dec requestId_eq_dec r (begun (loaderState noRequest events)))
    as [Hin|Hnin].
  - split; [|tauto]. intros _.
    destruct (lifecycle_counts id out NotBegun) as [Hb He];
      [rewrite Hout; discriminate|].
    rewrite Hout in Hb, He. simpl in Hb, He. repeat split; [exact Hout | lia | lia].
  - split; [tauto|]. intros _.
    destruct (lifecycle_counts id out NotBegun) as [Hb He];
      [rewrite Hout; discriminate|].
    rewrite Hout in Hb, He. simpl in Hb, He. repeat split; [exact Hout | lia | lia].
Qed.

Definition exampleSegment : ISegment :=
  {| seg_duration := 4; seg_time := 8; seg_timescale := 1 |}.

(** A fetch that is cancelled while its second request is in flight. *)
Definition cancelledFetch : list (Q * ISegmentLoaderEvent) :=
  [ (0, request_begin (Some "a"%string));
    (5, progress (Some "a"%string) 5 100 (Some 1000));
    (9, request_end (Some "a"%string) (Some 1000) (Some 9));
    (10, warning);
    (11, request_begin (Some "b"%string));
    (15, progress (Some "b"%string) 4 100 (Some 1000)) ].

(** A loader that names no request id, retried once after a failure. *)
Definition retriedFetch : list (Q * ISegmentLoaderEvent) :=
  [ (0, request_begin None);
    (10, warning);
    (20, request_begin None);
    (30, data);
    (31, request_end None (Some 1000) (Some 11)) ].

(** The theorem on a fetch cancelled while its second request, ["b"], is in
    flight: ["b"] is ended all the same. *)
Lemma request_lifecycle_witness :
  loaderProtocol noRequest cancelledFetch /\
  lifecycle (getFetcherId "7" (Some "b"%string)) NotBegun
            (fetchSegment "7" exampleSegment cancelledFetch) = Ended.
Proof.
  assert (Hp : loaderProtocol noRequest cancelledFetch).
  { simpl. repeat split; try tauto.
    intros [H|[]]. discriminate H. }
  split; [exact Hp|].
  apply (proj2 (request_lifecycle "7" exampleSegment cancelledFetch
                                  (Some "b"%string) Hp)).
  simpl. tauto.
Defined.

(** C2, as stated, fails: for a loader that names no request id and is
    retried once, the fetcher emits two [requestBegin] and two [requestEnd]
    events with the same id. *)
Lemma request_begin_emitted_twice :
  countBegin (getFetcherId "7" None) (fetchSegment "7" exampleSegment retriedFetch) = 2%nat
  /\ countEnd (getFetcherId "7" None) (fetchSegment "7" exampleSegment retriedFetch) = 2%nat.
Proof. split; reflexivity. Qed.

End SegmentFetcher.

(* ================================================================== *)
(** * Track-choice manager
    [src/unnamed/part_006] (the [TrackChoiceManager] class) *)

Module TrackChoiceManager.

Local Set Warnings "-register-all".

Inductive bufferType : Type := audio | video | text.

(** An [Adaptation] object.  [a_ref] is the identity of the object, which
    [===] compares; [a_id] is its [id]; [a_trickModeTracks] is [None] when
    the property is [undefined]. *)
Inductive Adaptation : Type :=
  mkAdaptation {
    a_ref : nat;
    a_id : string;
    a_isSupported : bool;
    a_trickModeTracks : option (list Adaptation)
  }.

(** [a === b] on two Adaptation objects. *)
Definition sameAdaptation (a b : Adaptation) : bool := Nat.eqb (a_ref a) (a_ref b).

(** [a === b] on two values of type [Adaptation | null]. *)
Definition sameChoice (a b : option Adaptation) : bool :=
  match a, b with
  | Some x, Some y => sameAdaptation x y
  | None, None => true
  | _, _ => false
  end.

(** A [Period] object, as the manager reads it. *)
Record Period := {
  p_id : string;
  p_start : Q;
  p_end : option Q;
  p_adaptations : bufferType -> list Adaptation
}.

(** Modelled from the spec: [Period.getSupportedAdaptations], a method of a
    class that is not part of the sources at hand: the Adaptations of the
    given type whose [isSupported] flag is set, in their order in the
    Period. *)
Definition getSupportedAdaptations (period : Period) (type : bufferType)
  : list Adaptation :=
  filter a_isSupported (p_adaptations period type).

(** Period objects are shared with the Manifest, which updates them in
    place; the manager holds references.  A [heap] gives the current content
    of every Period object. *)
Definition PeriodRef := nat.
Definition heap := PeriodRef -> Period.

(** A subject, by its identity; what is sent through subjects is the list of
    [(subject, value)] pairs given to [subject.next]. *)
Definition SubjectRef := nat.
Definition emission : Type := SubjectRef * option Adaptation.

(** [IAudioPeriodInfo] and [ITextPeriodInfo].  [lastEmittedTrack] is
    [None] for [undefined], [Some None] for [null]; [subject] is [None] for
    [undefined]. *)
Record ITrackPeriodInfo := {
  wantedTrack : option Adaptation;
  lastEmittedTrack : option (option Adaptation);
  subject : option SubjectRef
}.

(** [IVideoPeriodInfo]: [wantedTrackBase] and the three fields it has in
    common with the two other records. *)
Record IVideoPeriodInfo := {
  wantedTrackBase : option Adaptation;
  videoTrack : ITrackPeriodInfo
}.

(** [ITMPeriodInfos]. *)
Record ITMPeriodInfos := {
  period : PeriodRef;
  inManifest : bool;
  audioInfo : ITrackPeriodInfo;
  textInfo : ITrackPeriodInfo;
  videoInfo : IVideoPeriodInfo;
  isRemoved : bool
}.

(** The state of a [TrackChoiceManager]. *)
Record manager := {
  _store : list ITMPeriodInfos;
  trickModeTrackEnabled : bool
}.

(** [periodItem[bufferType]], restricted to the three common fields. *)
Definition trackOf (type : bufferType) (periodItem : ITMPeriodInfos)
  : ITrackPeriodInfo :=
  match type with
  | audio => audioInfo periodItem
  | text => textInfo periodItem
  | video => videoTrack (videoInfo periodItem)
  end.

Definition setTrackOf (type : bufferType) (info : ITrackPeriodInfo)
           (periodItem : ITMPeriodInfos) : ITMPeriodInfos :=
  match type with
  | audio =>
    {| period := period periodItem; inManifest := inManifest periodItem;
       audioInfo := info; textInfo := textInfo periodItem;
       videoInfo := videoInfo periodItem; isRemoved := isRemoved periodItem |}
  | text =>
    {| period := period periodItem; inManifest := inManifest periodItem;
       audioInfo := audioInfo periodItem; textInfo := info;
       videoInfo := videoInfo periodItem; isRemoved := isRemoved periodItem |}
  | video =>
    {| period := period periodItem; inManifest := inManifest periodItem;
       audioInfo := audioInfo periodItem; textInfo := textInfo periodItem;
       videoInfo := {| wantedTrackBase := wantedTrackBase (videoInfo periodItem);
                       videoTrack := info |};
       isRemoved := isRemoved periodItem |}
  end.

Definition setWantedTrackBase (base : option Adaptation)
           (periodItem : ITMPeriodInfos) : ITMPeriodInfos :=
  {| period := period periodItem; inManifest := inManifest periodItem;
     audioInfo := audioInfo periodItem; textInfo := textInfo periodItem;
     videoInfo := {| wantedTrackBase := base;
                     videoTrack := videoTrack (videoInfo periodItem) |};
     isRemoved := isRemoved periodItem |}.

Definition setWantedTrack (wanted : option Adaptation) (info : ITrackPeriodInfo)
  : ITrackPeriodInfo :=
  {| wantedTrack := wanted;
     lastEmittedTrack := lastEmittedTrack info;
     subject := subject info |}.

(** [getRightVideoTrack]. *)
Definition getRightVideoTrack (adaptation : Adaptation) (isTrickModeEnabled : bool)
  : Adaptation :=
  if isTrickModeEnabled then
    match a_trickModeTracks adaptation with
    | Some (first :: _) => first
    | _ => adaptation
    end
  else adaptation.

(** [isPeriodItemRemovable]. *)
Definition isPeriodItemRemovable (periodItem : ITMPeriodInfos) : bool :=
  negb (inManifest periodItem)
  && match subject (textInfo periodItem) with None => true | Some _ => false end
  && match subject (audioInfo periodItem) with None => true | Some _ => false end
  && match subject (videoTrack (videoInfo periodItem)) with
     | None => true | Some _ => false end.

(** [generatePeriodInfo].  [None] stands for the [TypeError] raised by
    [getRightVideoTrack] when it is given [null] (a Period with no supported
    video Adaptation) while trick mode is enabled. *)
Definition generatePeriodInfo (h : heap) (trick : bool) (period : PeriodRef)
           (inManifest : bool) : option ITMPeriodInfos :=
  let audioAdaptation := hd_error (getSupportedAdaptations (h period) audio) in
  let textAdaptation := hd_error (getSupportedAdaptations (h period) text) in
  let baseVideoAdaptation := hd_error (getSupportedAdaptations (h period) video) in
  let videoAdaptation :=
    match baseVideoAdaptation with
    | Some base => Some (Some (getRightVideoTrack base trick))
    | None => if trick then None else Some None
    end in
  match videoAdaptation with
  | None => None
  | Some videoAdaptation =>
    Some {| period := period;
            inManifest := inManifest;
            isRemoved := false;
            audioInfo := {| wantedTrack := audioAdaptation;
                            lastEmittedTrack := None;
                            subject := None |};
            videoInfo := {| wantedTrackBase := baseVideoAdaptation;
                            videoTrack := {| wantedTrack := videoAdaptation;
                                             lastEmittedTrack := None;
                                             subject := None |} |};
            textInfo := {| wantedTrack := textAdaptation;
                           lastEmittedTrack := None;
                           subject := None |} |}
  end.

(** [adaptations.some(a => a.id === old.id)]. *)
Definition stillHere (old : Adaptation) (adaptations : list Adaptation) : bool :=
  existsb (fun a => String.eqb (a_id a) (a_id old)) adaptations.

(** A record of the store together with those of its track records that
    were pushed to [updatedTracks], in the order of the pushes.  The array
    [updatedTracks] holds aliases of records of the store; the tag says which
    records of the item they are. *)
Definition tagged : Type := ITMPeriodInfos * list bufferType.

(** The part of the body of the loop of [updatePeriodList] that handles one
    type for an old Period found again ([oldPeriod === newPeriod]). *)
Definition reconcileTrack (h : heap) (trick : bool) (type : bufferType)
           (item : tagged) : tagged :=
  let '(periodItem, updatedTracks) := item in
  match wantedTrack (trackOf type periodItem) with
  | None => item
  | Some oldAdaptation =>
    let adaptations := getSupportedAdaptations (h (period periodItem)) type in
    if stillHere oldAdaptation adaptations then item
    else
      let chosenBaseTrack := hd_error adaptations in
      let periodItem' :=
        match type with
        | video =>
          setTrackOf video
            (setWantedTrack
               (option_map (fun base => getRightVideoTrack base trick)
                           chosenBaseTrack)
               (trackOf video periodItem))
            (setWantedTrackBase chosenBaseTrack periodItem)
        | _ =>
          setTrackOf type
            (setWantedTrack chosenBaseTrack (trackOf type periodItem))
            periodItem
        end in
      (periodItem', updatedTracks ++ [type])
  end.

(** The whole branch [oldPeriod === newPeriod]: text, then video, then
    audio. *)
Definition reconcile (h : heap) (trick : bool) (periodItem : ITMPeriodInfos)
  : tagged :=
  reconcileTrack h trick audio
    (reconcileTrack h trick video
       (reconcileTrack h trick text (periodItem, []))).

(** [this._store[i].inManifest = false]. *)
Definition leaveManifest (periodItem : ITMPeriodInfos) : ITMPeriodInfos :=
  {| period := period periodItem; inManifest := false;
     audioInfo := audioInfo periodItem; textInfo := textInfo periodItem;
     videoInfo := videoInfo periodItem; isRemoved := isRemoved periodItem |}.

(** An old Period that is not in the new list leaves the Manifest; its
    record stays in the store unless it can be removed. *)
Definition retire (periodItem : ITMPeriodInfos) : list tagged :=
  let periodItem' := leaveManifest periodItem in
  if isPeriodItemRemovable periodItem' then [] else [(periodItem', [])].

(** What the loops of [updatePeriodList] make of the store: the records in
    their new order, and whether [generatePeriodInfo] raised. *)
Record merged := {
  items : list tagged;
  raised : bool
}.

Definition consItems (l : list tagged) (m : merged) : merged :=
  {| items := l ++ items m; raised := raised m |}.

(** The code after the main loop: the Periods left in the new list are
    added, unless one of the calls to [generatePeriodInfo] raises. *)
Fixpoint generateAll (h : heap) (trick : bool) (periods : list PeriodRef)
  : option (list tagged) :=
  match periods with
  | [] => Some []
  | p :: rest =>
    match generatePeriodInfo h trick p true, generateAll h trick rest with
    | Some info, Some infos => Some ((info, []) :: infos)
    | _, _ => None
    end
  end.

(** The main loop of [updatePeriodList] and the code that follows it, on the
    records of the store from index [i] on ([olds]) and the Periods of the new
    list from index [newPListIdx] on ([periods]).  One turn of the loop either
    - finds the new list exhausted and retires every old record left,
    - finds the same Period object at both heads and reconciles its tracks,
    - finds an old Period that starts no later than the new one and retires
      it,
    - or inserts a record for the new Period before the old one. *)
Fixpoint mergePeriods (h : heap) (trick : bool) (olds : list ITMPeriodInfos)
  : list PeriodRef -> merged :=
  match olds with
  | [] => fun periods =>
    match generateAll h trick periods with
    | Some added => {| items := added; raised := false |}
    | None => {| items := []; raised := true |}
    end
  | old :: olds' =>
    fix insertBefore (periods : list PeriodRef) : merged :=
      match periods with
      | [] => consItems (retire old) (mergePeriods h trick olds' [])
      | newPeriod :: periods' =>
        if Nat.eqb (period old) newPeriod then
          consItems [reconcile h trick old] (mergePeriods h trick olds' periods')
        else if Qle_bool (p_start (h (period old))) (p_start (h newPeriod)) then
          consItems (retire old) (mergePeriods h trick olds' periods)
        else
          match generatePeriodInfo h trick newPeriod true with
          | Some newPeriodInfo =>
            consItems [(newPeriodInfo, [])] (insertBefore periods')
          | None =>
            {| items := map (fun o => (o, [])) olds; raised := true |}
          end
      end
  end.

(** [emitted !== wanted] for the last emitted track, which may be
    [undefined], and a wanted track. *)
Definition differs (emitted : option (option Adaptation))
           (wanted : option Adaptation) : bool :=
  match emitted with
  | None => true
  | Some emitted => negb (sameChoice emitted wanted)
  end.

(** [track.lastEmittedTrack !== track.wantedTrack]. *)
Definition differsFromLastEmitted (info : ITrackPeriodInfo) : bool :=
  differs (lastEmittedTrack info) (wantedTrack info).

(** One turn of the loop over [updatedTracks]. *)
Definition notifyTrack (type : bufferType) (periodItem : ITMPeriodInfos)
  : ITMPeriodInfos * list emission :=
  let track := trackOf type periodItem in
  match subject track with
  | Some s =>
    if differsFromLastEmitted track then
      (setTrackOf type
         {| wantedTrack := wantedTrack track;
            lastEmittedTrack := Some (wantedTrack track);
            subject := subject track |}
         periodItem,
       [(s, wantedTrack track)])
    else (periodItem, [])
  | None => (periodItem, [])
  end.

Fixpoint notifyTracks (types : list bufferType) (periodItem : ITMPeriodInfos)
  : ITMPeriodInfos * list emission :=
  match types with
  | [] => (periodItem, [])
  | type :: rest =>
    let '(periodItem1, out1) := notifyTrack type periodItem in
    let '(periodItem2, out2) := notifyTracks rest periodItem1 in
    (periodItem2, out1 ++ out2)
  end.

Fixpoint notifyAll (l : list tagged) : list ITMPeriodInfos * list emission :=
  match l with
  | [] => ([], [])
  | (periodItem, types) :: rest =>
    let '(periodItem', out1) := notifyTracks types periodItem in
    let '(store, out2) := notifyAll rest in
    (periodItem' :: store, out1 ++ out2)
  end.

(** How a call ends. *)
Inductive outcome : Type :=
| Returned
| Thrown (message : string).

(** What a method of the manager does: how it ends, the state it leaves,
    what it sent through the subjects and the messages it logged.  The
    messages recorded are those of the methods that handle subjects and
    track choices; the ["Chosen ... Adaptation not available anymore"]
    messages that [updatePeriodList] logs when it falls back to another
    track are not: its [warnings] are always empty. *)
Record effect := {
  ending : outcome;
  after : manager;
  emitted : list emission;
  warnings : list string
}.

(** [updatePeriodList], its logging left out. *)
Definition updatePeriodList (h : heap) (this : manager) (periods : list PeriodRef)
  : effect :=
  let m := mergePeriods h (trickModeTrackEnabled this) (_store this) periods in
  if raised m then
    {| ending := Thrown "TypeError";
       after := {| _store := map fst (items m);
                   trickModeTrackEnabled := trickModeTrackEnabled this |};
       emitted := [];
       warnings := [] |}
  else
    let '(store, out) := notifyAll (items m) in
    {| ending := Returned;
       after := {| _store := store;
                   trickModeTrackEnabled := trickModeTrackEnabled this |};
       emitted := out;
       warnings := [] |}.

(** [getPeriodItem], returning the index of the record with the record, so
    that what the caller writes to the record can be written to the store. *)
Fixpoint getPeriodItemFrom (h : heap) (i : nat) (periods : list ITMPeriodInfos)
         (periodId : string) : option (nat * ITMPeriodInfos) :=
  match periods with
  | [] => None
  | periodI :: rest =>
    if String.eqb (p_id (h (period periodI))) periodId then Some (i, periodI)
    else getPeriodItemFrom h (S i) rest periodId
  end.

Definition getPeriodItem (h : heap) (periods : list ITMPeriodInfos)
           (periodId : string) : option (nat * ITMPeriodInfos) :=
  getPeriodItemFrom h 0 periods periodId.

(** The store in which the record at index [i] is [periodItem]. *)
Fixpoint writeItem (i : nat) (periodItem : ITMPeriodInfos)
         (store : list ITMPeriodInfos) : list ITMPeriodInfos :=
  match store, i with
  | [], _ => []
  | _ :: rest, O => periodItem :: rest
  | x :: rest, S i' => x :: writeItem i' periodItem rest
  end.

Definition withStore (this : manager) (store : list ITMPeriodInfos) : manager :=
  {| _store := store; trickModeTrackEnabled := trickModeTrackEnabled this |}.

Definition typeName (type : bufferType) : string :=
  match type with
  | audio => "audio"
  | video => "video"
  | text => "text"
  end.

(** [_setTrackById]. *)
Definition _setTrackById (h : heap) (this : manager) (periodId : string)
           (type : bufferType) (wantedId : string) : effect :=
  match getPeriodItem h (_store this) periodId with
  | None =>
    {| ending := Returned; after := this; emitted := [];
       warnings := ["TrackChoiceManager: Given Period not found."%string] |}
  | Some (i, periodItem) =>
    let period := h (period periodItem) in
    match find (fun a => String.eqb (a_id a) wantedId)
               (getSupportedAdaptations period type) with
    | None =>
      {| ending := Thrown ("Wanted " ++ typeName type ++ " track not found.");
         after := this; emitted := []; warnings := [] |}
    | Some wantedAdaptation =>
      let periodItem1 :=
        match type with
        | video =>
          if sameChoice (wantedTrackBase (videoInfo periodItem))
                        (Some wantedAdaptation)
          then periodItem
          else setWantedTrackBase (Some wantedAdaptation) periodItem
        | _ => periodItem
        end in
      let newAdaptation :=
        match type with
        | video => getRightVideoTrack wantedAdaptation (trickModeTrackEnabled this)
        | _ => wantedAdaptation
        end in
      let typeInfo := trackOf type periodItem1 in
      if sameChoice (wantedTrack typeInfo) (Some newAdaptation) then
        {| ending := Returned;
           after := withStore this (writeItem i periodItem1 (_store this));
           emitted := []; warnings := [] |}
      else
        match subject typeInfo with
        | Some s =>
          let typeInfo' := {| wantedTrack := Some newAdaptation;
                              lastEmittedTrack := Some (Some newAdaptation);
                              subject := Some s |} in
          {| ending := Returned;
             after := withStore this
                        (writeItem i (setTrackOf type typeInfo' periodItem1)
                                   (_store this));
             emitted := [(s, Some newAdaptation)]; warnings := [] |}
        | None =>
          let typeInfo' := setWantedTrack (Some newAdaptation) typeInfo in
          {| ending := Returned;
             after := withStore this
                        (writeItem i (setTrackOf type typeInfo' periodItem1)
                                   (_store this));
             emitted := []; warnings := [] |}
        end
    end
  end.

(** [setAudioTrackByID], [setTextTrackByID] and [setVideoTrackByID]. *)
Definition setAudioTrackByID (h : heap) (this : manager)
           (periodId wantedId : string) : effect :=
  _setTrackById h this periodId audio wantedId.

Definition setTextTrackByID (h : heap) (this : manager)
           (periodId wantedId : string) : effect :=
  _setTrackById h this periodId text wantedId.

Definition setVideoTrackByID (h : heap) (this : manager)
           (periodId wantedId : string) : effect :=
  _setTrackById h this periodId video wantedId.

(** The public method that sets the track of a given type. *)
Definition setTrackByID (type : bufferType)
  : heap -> manager -> string -> string -> effect :=
  match type with
  | audio => setAudioTrackByID
  | text => setTextTrackByID
  | video => setVideoTrackByID
  end.

(** ** Setting a track by id *)

(** C9: for each of the three set-track-by-id methods, when no record of
    the store is for a Period of the given id the call returns, changes
    nothing, sends nothing and logs a warning; when the Period is found but
    none of its supported Adaptations of the type has the given id the call
    throws, changes nothing and sends nothing. *)
Theorem setTrackByID_failures (type : bufferType) (h : heap) (this : manager)
        (periodId wantedId : string) :
  (getPeriodItem h (_store this) periodId = None ->
   setTrackByID type h this periodId wantedId
   = {| ending := Returned; after := this; emitted := [];
        warnings := ["TrackChoiceManager: Given Period not found."%string] |})
  /\ (forall i periodItem,
        getPeriodItem h (_store this) periodId = Some (i, periodItem) ->
        (forall a, In a (getSupportedAdaptations (h (period periodItem)) type) ->
                   a_id a <> wantedId) ->
        exists message,
          setTrackByID type h this periodId wantedId
          = {| ending := Thrown message; after := this; emitted := [];
               warnings := [] |}).
Proof.
  split.
  - intro Hnone.
    destruct type; unfold setTrackByID, setAudioTrackByID, setTextTrackByID,
                   setVideoTrackByID, _setTrackById; now rewrite Hnone.
  - intros i periodItem Hsome Hnot.
    exists ("Wanted " ++ typeName type ++ " track not found.")%string.
    assert (Hfind : find (fun a => String.eqb (a_id a) wantedId)
                         (getSupportedAdaptations (h (period periodItem)) type)
                    = None).
    { destruct (find _ _) as [a|] eqn:E; [|reflexivity].
      apply find_some in E. destruct E as [Hin Heq].
      apply String.eqb_eq in Heq. exfalso. now apply (Hnot a). }
    destruct type; unfold setTrackByID, setAudioTrackByID, setTextTrackByID,
                   setVideoTrackByID, _setTrackById;
      rewrite Hsome; cbv zeta; now rewrite Hfind.
Qed.

(** ** Reconciling the store with a new list of Periods *)

(** The records of the store, and the Periods of a new list, come in
    strictly increasing order of start. *)
Definition sortedStore (h : heap) (store : list ITMPeriodInfos) : Prop :=
  StronglySorted (fun a b => p_start (h (period a)) < p_start (h (period b))) store.

Definition sortedPeriods (h : heap) (periods : list PeriodRef) : Prop :=
  StronglySorted (fun a b => p_start (h a) < p_start (h b)) periods.

Section Merge.

Variables (h : heap) (trick : bool).

Lemma mergePeriods_nil periods :
  mergePeriods h trick [] periods
  = match generateAll h trick periods with
    | Some added => {| items := added; raised := false |}
    | None => {| items := []; raised := true |}
    end.
Proof. reflexivity. Qed.

Lemma mergePeriods_cons_nil old olds :
  mergePeriods h trick (old :: olds) []
  = consItems (retire old) (mergePeriods h trick olds []).
Proof. reflexivity. Qed.

Lemma mergePeriods_cons_cons old olds newPeriod periods :
  mergePeriods h trick (old :: olds) (newPeriod :: periods)
  = if Nat.eqb (period old) newPeriod then
      consItems [reconcile h trick old] (mergePeriods h trick olds periods)
    else if Qle_bool (p_start (h (period old))) (p_start (h newPeriod)) then
      consItems (retire old) (mergePeriods h trick olds (newPeriod :: periods))
    else
      match generatePeriodInfo h trick newPeriod true with
      | Some newPeriodInfo =>
        consItems [(newPeriodInfo, [])]
                  (mergePeriods h trick (old :: olds) periods)
      | None =>
        {| items := map (fun o => (o, [])) (old :: olds); raised := true |}
      end.
Proof. reflexivity. Qed.

Lemma raised_consItems l m : raised (consItems l m) = raised m.
Proof. reflexivity. Qed.

Lemma In_consItems x l m : In x (items m) -> In x (items (consItems l m)).
Proof. intro H. simpl. apply in_or_app. now right. Qed.

(** A Period object that is both in the store and in the new list is found
    again by the loop, whose branch [oldPeriod === newPeriod] handles its
    record. *)
Lemma mergePeriods_matched (olds : list ITMPeriodInfos) :
  forall periods periodItem,
    sortedStore h olds -> sortedPeriods h periods ->
    In periodItem olds -> In (period periodItem) periods ->
    raised (mergePeriods h trick olds periods) = false ->
    In (reconcile h trick periodItem) (items (mergePeriods h trick olds periods)).
Proof.
  induction olds as [|old olds IHo]; intros periods periodItem Hso Hsp Hin Hinp Hr;
    [destruct Hin|].
  inversion Hso as [|? ? Hso' Hlt]; subst.
  rewrite Forall_forall in Hlt.
  induction periods as [|newPeriod periods IHp]; [destruct Hinp|].
  inversion Hsp as [|? ? Hsp' Hltp]; subst.
  rewrite Forall_forall in Hltp.
  rewrite mergePeriods_cons_cons in *.
  destruct (Nat.eqb (period old) newPeriod) eqn:Esame.
  - apply Nat.eqb_eq in Esame.
    destruct Hin as [->|Hin]; [simpl; now left|].
    apply In_consItems. apply IHo; try assumption.
    destruct Hinp as [Heq|Hinp]; [|exact Hinp].
    exfalso. specialize (Hlt _ Hin). rewrite <- Heq, Esame in Hlt.
    apply (Qlt_irrefl _ Hlt).
  - apply Nat.eqb_neq in Esame.
    destruct (Qle_bool (p_start (h (period old))) (p_start (h newPeriod))) eqn:Ele.
    + apply Qle_bool_iff in Ele.
      apply In_consItems. apply IHo; try assumption.
      destruct Hin as [->|Hin]; [|exact Hin].
      exfalso. destruct Hinp as [Heq|Hinp]; [congruence|].
      specialize (Hltp _ Hinp). lra.
    + apply Qle_bool_false in Ele.
      destruct (generatePeriodInfo h trick newPeriod true) as [info|];
        [|discriminate Hr].
      apply In_consItems. apply IHp; try assumption.
      destruct Hinp as [Heq|Hinp]; [|exact Hinp].
      exfalso. destruct Hin as [->|Hin]; [congruence|].
      specialize (Hlt _ Hin). rewrite <- Heq in Hlt. lra.
Qed.

End Merge.

Definition bufferType_eq_dec (a b : bufferType) : {a = b} + {a <> b}.
Proof. decide equality. Defined.

(** The track that the branch [oldPeriod === newPeriod] falls back to: the
    first supported Adaptation of the type or [null]; for video, the track
    that [getRightVideoTrack] derives from it. *)
Definition fallbackTrack (trick : bool) (type : bufferType)
           (adaptations : list Adaptation) : option Adaptation :=
  match type with
  | video => option_map (fun base => getRightVideoTrack base trick)
                        (hd_error adaptations)
  | _ => hd_error adaptations
  end.

Lemma trackOf_setTrackOf type type' info periodItem :
  trackOf type (setTrackOf type' info periodItem)
  = if bufferType_eq_dec type type' then info else trackOf type periodItem.
Proof. destruct type, type'; reflexivity. Qed.

Lemma trackOf_setWantedTrackBase type base periodItem :
  trackOf type (setWantedTrackBase base periodItem) = trackOf type periodItem.
Proof. destruct type; reflexivity. Qed.

Lemma period_setTrackOf type info periodItem :
  period (setTrackOf type info periodItem) = period periodItem.
Proof. destruct type; reflexivity. Qed.

Section Reconcile.

Variables (h : heap) (trick : bool).

Lemma reconcileTrack_period type item :
  period (fst (reconcileTrack h trick type item)) = period (fst item).
Proof.
  destruct item as [periodItem tags]. unfold reconcileTrack.
  destruct (wantedTrack (trackOf type periodItem)); [|reflexivity].
  destruct (stillHere _ _); [reflexivity|].
  destruct type; reflexivity.
Qed.

Lemma reconcileTrack_other type type' item :
  type <> type' ->
  trackOf type (fst (reconcileTrack h trick type' item)) = trackOf type (fst item).
Proof.
  intro Hne. destruct item as [periodItem tags]. unfold reconcileTrack.
  destruct (wantedTrack (trackOf type' periodItem)); [|reflexivity].
  destruct (stillHere _ _); [reflexivity|].
  destruct type, type'; try reflexivity; congruence.
Qed.

Lemma reconcileTrack_base type' item :
  type' <> video ->
  wantedTrackBase (videoInfo (fst (reconcileTrack h trick type' item)))
  = wantedTrackBase (videoInfo (fst item)).
Proof.
  intro Hne. destruct item as [periodItem tags]. unfold reconcileTrack.
  destruct (wantedTrack (trackOf type' periodItem)); [|reflexivity].
  destruct (stillHere _ _); [reflexivity|].
  destruct type'; try reflexivity; congruence.
Qed.

Lemma reconcileTrack_tags type type' item :
  In type (snd item) -> In type (snd (reconcileTrack h trick type' item)).
Proof.
  intro Hin. destruct item as [periodItem tags]. unfold reconcileTrack.
  destruct (wantedTrack (trackOf type' periodItem)); [|exact Hin].
  destruct (stillHere _ _); [exact Hin|].
  simpl. apply in_or_app. now left.
Qed.

Lemma reconcileTrack_self type item old :
  wantedTrack (trackOf type (fst item)) = Some old ->
  stillHere old (getSupportedAdaptations (h (period (fst item))) type) = false ->
  let r := reconcileTrack h trick type item in
  let adaptations := getSupportedAdaptations (h (period (fst item))) type in
  wantedTrack (trackOf type (fst r)) = fallbackTrack trick type adaptations
  /\ lastEmittedTrack (trackOf type (fst r)) = lastEmittedTrack (trackOf type (fst item))
  /\ subject (trackOf type (fst r)) = subject (trackOf type (fst item))
  /\ In type (snd r)
  /\ (type = video -> wantedTrackBase (videoInfo (fst r)) = hd_error adaptations).
Proof.
  intros Hw Hs. destruct item as [periodItem tags]. simpl in Hw, Hs.
  unfold reconcileTrack. rewrite Hw, Hs. cbn [fst snd].
  repeat split.
  - destruct type; reflexivity.
  - destruct type; reflexivity.
  - destruct type; reflexivity.
  - apply in_or_app. right. now left.
  - intros ->. reflexivity.
Qed.

(** What [reconcile] does to the track of a type whose wanted Adaptation is
    not among the supported ones any more. *)
Lemma reconcile_fallback type periodItem old :
  wantedTrack (trackOf type periodItem) = Some old ->
  stillHere old (getSupportedAdaptations (h (period periodItem)) type) = false ->
  let r := reconcile h trick periodItem in
  let adaptations := getSupportedAdaptations (h (period periodItem)) type in
  period (fst r) = period periodItem
  /\ wantedTrack (trackOf type (fst r)) = fallbackTrack trick type adaptations
  /\ lastEmittedTrack (trackOf type (fst r)) = lastEmittedTrack (trackOf type periodItem)
  /\ subject (trackOf type (fst r)) = subject (trackOf type periodItem)
  /\ In type (snd r)
  /\ (type = video -> wantedTrackBase (videoInfo (fst r)) = hd_error adaptations).
Proof.
  intros Hw Hs r adaptations. unfold r, reconcile.
  set (i0 := (periodItem, @nil bufferType)).
  set (i1 := reconcileTrack h trick text i0).
  set (i2 := reconcileTrack h trick video i1).
  assert (P1 : period (fst i1) = period periodItem)
    by (unfold i1; now rewrite reconcileTrack_period).
  assert (P2 : period (fst i2) = period periodItem)
    by (unfold i2; now rewrite reconcileTrack_period).
  split; [now rewrite reconcileTrack_period|].
  destruct type.
  - (* audio: untouched by the two first steps *)
    assert (T : trackOf audio (fst i2) = trackOf audio periodItem).
    { unfold i2, i1. rewrite !reconcileTrack_other by discriminate. reflexivity. }
    destruct (reconcileTrack_self audio i2 old) as (A & B & C & D & E).
    + now rewrite T.
    + now rewrite P2.
    + rewrite P2, T in *. repeat split; assumption.
  - (* video: after text, before audio *)
    assert (T : trackOf video (fst i1) = trackOf video periodItem).
    { unfold i1. rewrite reconcileTrack_other by discriminate. reflexivity. }
    destruct (reconcileTrack_self video i1 old) as (A & B & C & D & E).
    + now rewrite T.
    + now rewrite P1.
    + fold i2 in A, B, C, D, E. rewrite P1, T in *.
      rewrite reconcileTrack_other by discriminate.
      repeat split; try assumption.
      * now apply reconcileTrack_tags.
      * intros _. specialize (E eq_refl).
        rewrite reconcileTrack_base by discriminate. exact E.
  - (* text: the first step *)
    destruct (reconcileTrack_self text i0 old Hw Hs) as (A & B & C & D & E).
    fold i1 in A, B, C, D, E. cbn [fst] in *.
    rewrite !reconcileTrack_other by discriminate.
    unfold i2 at 1 2 3. rewrite !reconcileTrack_other by discriminate.
    split; [exact A|]. split; [exact B|]. split; [exact C|].
    split; [|discriminate].
    apply reconcileTrack_tags. fold i2. apply reconcileTrack_tags. exact D.
Qed.

End Reconcile.

Lemma notifyTrack_spec type type0 periodItem :
  let r := notifyTrack type0 periodItem in
  let track := trackOf type periodItem in
  period (fst r) = period periodItem
  /\ wantedTrack (trackOf type (fst r)) = wantedTrack track
  /\ subject (trackOf type (fst r)) = subject track
  /\ wantedTrackBase (videoInfo (fst r)) = wantedTrackBase (videoInfo periodItem)
  /\ (type0 <> type -> trackOf type (fst r) = track)
  /\ (lastEmittedTrack track = Some (wantedTrack track) ->
      lastEmittedTrack (trackOf type (fst r)) = Some (wantedTrack track))
  /\ (type0 = type -> forall s,
        subject track = Some s -> differsFromLastEmitted track = true ->
        snd r = [(s, wantedTrack track)]
        /\ lastEmittedTrack (trackOf type (fst r)) = Some (wantedTrack track)).
Proof.
  unfold notifyTrack.
  destruct (subject (trackOf type0 periodItem)) as [s0|] eqn:Es.
  2:{ cbn [fst snd]. repeat split; try reflexivity; try tauto;
        subst type0; congruence. }
  destruct (differsFromLastEmitted (trackOf type0 periodItem)) eqn:Ed.
  2:{ cbn [fst snd]. repeat split; try reflexivity; try tauto;
        subst type0; congruence. }
  cbn [fst snd]. rewrite period_setTrackOf, trackOf_setTrackOf.
  destruct (bufferType_eq_dec type type0) as [->|Hne].
  - cbn [wantedTrack subject lastEmittedTrack].
    repeat split; try reflexivity; try tauto; try congruence.
    destruct type0; reflexivity.
  - repeat split; try reflexivity; try tauto; try congruence.
    destruct type0; reflexivity.
Qed.

Lemma notifyTracks_spec type types :
  forall periodItem,
    let r := notifyTracks types periodItem in
    let track := trackOf type periodItem in
    period (fst r) = period periodItem
    /\ wantedTrack (trackOf type (fst r)) = wantedTrack track
    /\ subject (trackOf type (fst r)) = subject track
    /\ wantedTrackBase (videoInfo (fst r)) = wantedTrackBase (videoInfo periodItem)
    /\ (lastEmittedTrack track = Some (wantedTrack track) ->
        lastEmittedTrack (trackOf type (fst r)) = Some (wantedTrack track))
    /\ (In type types -> forall s,
          subject track = Some s -> differsFromLastEmitted track = true ->
          In (s, wantedTrack track) (snd r)
          /\ lastEmittedTrack (trackOf type (fst r)) = Some (wantedTrack track)).
Proof.
  induction types as [|type0 rest IH]; intro periodItem.
  - cbn. repeat split; try reflexivity; try tauto.
  - cbn [notifyTracks].
    destruct (notifyTrack_spec type type0 periodItem)
      as (P & W & S & B & O & K & N).
    destruct (notifyTrack type0 periodItem) as [item1 out1].
    specialize (IH item1).
    destruct (notifyTracks rest item1) as [item2 out2].
    cbn [fst snd] in *.
    destruct IH as (P' & W' & S' & B' & K' & N').
    rewrite W in *. rewrite S in *.
    split; [congruence|]. split; [congruence|]. split; [congruence|].
    split; [congruence|]. split.
    + intro HL. apply K in HL. apply K'. exact HL.
    + intros Hin s Hs Hd.
      destruct (bufferType_eq_dec type0 type) as [->|Hne].
      * destruct (N eq_refl s Hs Hd) as [-> HL].
        split; [now left | now apply K'].
      * rewrite (O Hne) in *.
        destruct Hin as [Hin|Hin]; [congruence|].
        destruct (N' Hin s Hs Hd) as [Hsent HL].
        split; [apply in_or_app; now right | exact HL].
Qed.

Lemma notifyAll_In (l : list tagged) :
  forall periodItem types,
    In (periodItem, types) l ->
    In (fst (notifyTracks types periodItem)) (fst (notifyAll l))
    /\ incl (snd (notifyTracks types periodItem)) (snd (notifyAll l)).
Proof.
  induction l as [|[item0 types0] rest IH]; intros periodItem types Hin;
    [destruct Hin|].
  cbn [notifyAll].
  destruct (notifyTracks types0 item0) as [item0' out1] eqn:E0.
  specialize (IH periodItem types).
  destruct (notifyAll rest) as [store out2].
  cbn [fst snd] in *.
  destruct Hin as [Heq|Hin].
  - injection Heq as <- <-. rewrite E0. cbn [fst snd].
    split; [now left | apply incl_appl, incl_refl].
  - destruct (IH Hin) as [H1 H2].
    split; [now right | now apply incl_appr].
Qed.

(** C6 (amended): let the records of the store and the Periods of the new
    list both come in strictly increasing order of start, and let
    [updatePeriodList] return.  For every record of the store whose Period
    object is in the new list, and every type whose wanted Adaptation is no
    longer (by [id]) among the Period's supported Adaptations of that type:
    - for audio and text the wanted track becomes the first supported
      Adaptation of the type, or [null];
    - for video [wantedTrackBase] becomes that first supported Adaptation
      and the wanted track the one [getRightVideoTrack] derives from it (its
      first trick-mode track when trick mode is enabled and it has one);
    - when a subject is attached and the new wanted track differs from the
      last emitted one, the new wanted track is sent through the subject and
      becomes the last emitted one. *)
Theorem updatePeriodList_falls_back (h : heap) (this : manager)
        (periods : list PeriodRef) (periodItem : ITMPeriodInfos)
        (type : bufferType) (old : Adaptation) :
  sortedStore h (_store this) -> sortedPeriods h periods ->
  In periodItem (_store this) -> In (period periodItem) periods ->
  ending (updatePeriodList h this periods) = Returned ->
  wantedTrack (trackOf type periodItem) = Some old ->
  stillHere old (getSupportedAdaptations (h (period periodItem)) type) = false ->
  let adaptations := getSupportedAdaptations (h (period periodItem)) type in
  let done := updatePeriodList h this periods in
  exists periodItem',
    In periodItem' (_store (after done))
    /\ period periodItem' = period periodItem
    /\ (type <> video ->
        wantedTrack (trackOf type periodItem') = hd_error adaptations)
    /\ (type = video ->
        wantedTrackBase (videoInfo periodItem') = hd_error adaptations
        /\ wantedTrack (trackOf type periodItem')
           = option_map (fun base => getRightVideoTrack base (trickModeTrackEnabled this))
                        (hd_error adaptations))
    /\ subject (trackOf type periodItem') = subject (trackOf type periodItem)
    /\ forall s,
        subject (trackOf type periodItem) = Some s ->
        differs (lastEmittedTrack (trackOf type periodItem))
                (wantedTrack (trackOf type periodItem')) = true ->
        In (s, wantedTrack (trackOf type periodItem')) (emitted done)
        /\ lastEmittedTrack (trackOf type periodItem')
           = Some (wantedTrack (trackOf type periodItem')).
Proof.
  intros Hso Hsp Hin Hinp Hend Hw Hs adaptations done.
  unfold done, updatePeriodList in *.
  set (trick := trickModeTrackEnabled this) in *.
  destruct (raised (mergePeriods h trick (_store this) periods)) eqn:Hr;
    [discriminate Hend|].
  assert (Hm := mergePeriods_matched h trick _ _ _ Hso Hsp Hin Hinp Hr).
  destruct (reconcile_fallback h trick type periodItem old Hw Hs)
    as (P & W & L & S & T & B).
  destruct (reconcile h trick periodItem) as [item1 types] eqn:Er.
  cbn [fst snd] in *.
  destruct (notifyAll_In _ _ _ Hm) as [Hstore Hout].
  destruct (notifyTracks_spec type types item1) as (P' & W' & S' & B' & K' & N').
  destruct (notifyAll (items (mergePeriods h trick (_store this) periods)))
    as [store out].
  destruct (notifyTracks types item1) as [item2 out2].
  cbn [fst snd after emitted _store] in *.
  exists item2.
  split; [exact Hstore|]. split; [congruence|].
  split; [intro Hne; rewrite W', W; destruct type; try reflexivity; congruence|].
  split; [intros ->; split; [rewrite B'; now apply B | rewrite W', W; reflexivity]|].
  split; [congruence|].
  intros s Hsub Hdiff.
  assert (Hd : differsFromLastEmitted (trackOf type item1) = true).
  { unfold differsFromLastEmitted. rewrite L, <- W'. exact Hdiff. }
  rewrite <- S in Hsub.
  destruct (N' T s Hsub Hd) as [Hin' Hl].
  rewrite W'. split; [now apply Hout | exact Hl].
Qed.

(** ** The refresh scenario of section 8 *)

Definition fr : Adaptation := mkAdaptation 1 "fr-mp4a.40.5" true None.
Definition de : Adaptation := mkAdaptation 2 "de-mp4a.40.2" true None.

Definition noTrack : ITrackPeriodInfo :=
  {| wantedTrack := None; lastEmittedTrack := None; subject := None |}.

(** The Period [p1] (object 1) after the refresh: only [de] is left. *)
Definition refreshedHeap : heap :=
  fun _ => {| p_id := "p1"; p_start := 0; p_end := None;
              p_adaptations := fun type => match type with
                                           | audio => [de]
                                           | _ => []
                                           end |}.

(** The record of [p1]: the user picked [fr], which was sent to the
    subject 7. *)
Definition p1Item : ITMPeriodInfos :=
  {| period := 1%nat; inManifest := true;
     audioInfo := {| wantedTrack := Some fr;
                     lastEmittedTrack := Some (Some fr);
                     subject := Some 7%nat |};
     textInfo := noTrack;
     videoInfo := {| wantedTrackBase := None; videoTrack := noTrack |};
     isRemoved := false |}.

Definition frChosen : manager :=
  {| _store := [p1Item]; trickModeTrackEnabled := false |}.

(** The theorem on the refresh scenario: the manager falls back to [de] and
    sends it to the subject. *)
Lemma updatePeriodList_falls_back_witness :
  exists periodItem',
    In periodItem' (_store (after (updatePeriodList refreshedHeap frChosen [1%nat])))
    /\ wantedTrack (trackOf audio periodItem') = Some de
    /\ In (7%nat, Some de) (emitted (updatePeriodList refreshedHeap frChosen [1%nat])).
Proof.
  assert (Hso : sortedStore refreshedHeap (_store frChosen))
    by (repeat constructor).
  assert (Hsp : sortedPeriods refreshedHeap [1%nat]) by (repeat constructor).
  assert (Hin : In p1Item (_store frChosen)) by (now left).
  assert (Hinp : In (period p1Item) [1%nat]) by (now left).
  destruct (updatePeriodList_falls_back refreshedHeap frChosen [1%nat] p1Item
              audio fr Hso Hsp Hin Hinp eq_refl eq_refl eq_refl)
    as (periodItem' & Hstore & _ & Hwanted & _ & _ & Hsent).
  exists periodItem'.
  assert (Hw : wantedTrack (trackOf audio periodItem') = Some de)
    by (apply Hwanted; discriminate).
  split; [exact Hstore|]. split; [exact Hw|].
  rewrite <- Hw. apply (Hsent 7%nat eq_refl). rewrite Hw. reflexivity.
Defined.

(** ** Trick mode *)

Definition v1 : Adaptation := mkAdaptation 11 "video-1" true None.
Definition t2 : Adaptation := mkAdaptation 13 "video-2-trickmode" true None.
Definition v2 : Adaptation := mkAdaptation 12 "video-2" true (Some [t2]).

Definition trickHeap : heap :=
  fun _ => {| p_id := "p1"; p_start := 0; p_end := None;
              p_adaptations := fun type => match type with
                                           | video => [v2]
                                           | _ => []
                                           end |}.

Definition v1Item : ITMPeriodInfos :=
  {| period := 1%nat; inManifest := true;
     audioInfo := noTrack;
     textInfo := noTrack;
     videoInfo := {| wantedTrackBase := Some v1;
                     videoTrack := {| wantedTrack := Some v1;
                                      lastEmittedTrack := Some (Some v1);
                                      subject := Some 7%nat |} |};
     isRemoved := false |}.

Definition v1Chosen : manager :=
  {| _store := [v1Item]; trickModeTrackEnabled := true |}.

(** C6, as stated, fails for video: with trick mode enabled, the wanted
    video track of a Period whose former choice is gone becomes the first
    trick-mode track of the first supported Adaptation, not that
    Adaptation. *)
Lemma video_fallback_is_a_trick_mode_track :
  let done := updatePeriodList trickHeap v1Chosen [1%nat] in
  wantedTrack (trackOf video v1Item) = Some v1
  /\ stillHere v1 (getSupportedAdaptations (trickHeap 1%nat) video) = false
  /\ hd_error (getSupportedAdaptations (trickHeap 1%nat) video) = Some v2
  /\ ending done = Returned
  /\ exists periodItem',
      _store (after done) = [periodItem']
      /\ wantedTrack (trackOf video periodItem') = Some t2
      /\ wantedTrack (trackOf video periodItem') <> Some v2
      /\ emitted done = [(7%nat, Some t2)].
Proof.
  cbv zeta. repeat split; try reflexivity.
  eexists. split; [reflexivity|]. repeat split; try reflexivity.
  discriminate.
Qed.

(** The theorem on the store of the refresh scenario: no Period has the id
    ["p2"], and the Period ["p1"] has no audio track of id ["en"]. *)
Lemma setTrackByID_failures_witness :
  setTrackByID audio refreshedHeap frChosen "p2" "de-mp4a.40.2"
  = {| ending := Returned; after := frChosen; emitted := [];
       warnings := ["TrackChoiceManager: Given Period not found."%string] |}
  /\ exists message,
      setTrackByID audio refreshedHeap frChosen "p1" "en"
      = {| ending := Thrown message; after := frChosen; emitted := [];
           warnings := [] |}.
Proof.
  split.
  - apply (proj1 (setTrackByID_failures audio refreshedHeap frChosen
                                        "p2" "de-mp4a.40.2")).
    reflexivity.
  - apply (proj2 (setTrackByID_failures audio refreshedHeap frChosen "p1" "en")
                 0%nat p1Item eq_refl).
    intros a [<-|[]]. discriminate.
Defined.

End TrackChoiceManager.

(* ================================================================== *)
(** * ABR: the Representation estimator
    [src/core/abr/representation_estimator.ts] *)

Module ABR.

(** A [Representation], as the estimator reads it. *)
Record Representation := {
  rep_id : string;
  rep_bitrate : Q
}.

(** [IABREstimate]. *)
Record IABREstimate := {
  bitrate : option Q;
  manual : bool;
  representation : Representation;
  urgent : bool;
  knownStableBitrate : option Q
}.

(** [IRepresentationEstimatorClockTick]. *)
Record IRepresentationEstimatorClockTick := {
  bufferGap : num;
  position : Q;
  speed : Q;
  duration : Q;
  liveGap : option Q
}.

(** [IABRFiltersObject]. *)
Record IABRFiltersObject := {
  filter_bitrate : option Q;
  filter_width : option Q
}.

Inductive ScoreConfidenceLevel : Type := HIGH | LOW.

(** A pending request of the [PendingRequestsStore], with what
    [estimateRequestBandwidth] returns for it ([None] is [undefined]). *)
Record IRequestInfo := {
  req_representation : Representation;
  req_isInit : bool;
  requestTimestamp : Q;
  req_duration : Q;
  req_bandwidth : option Q
}.

(** What one emission of the [combineLatest] of the auto mode brings: the
    latest clock tick, bounds, filters and buffer-based bitrate, the current
    Representation, and what the collaborators of the estimator answer at
    that instant: [performance.now()], the pending requests, the result of
    [networkAnalyzer.getBandwidthEstimate], [scoreCalculator.getEstimate] for
    the current Representation and
    [scoreCalculator.getLastStableRepresentation]. *)
Record tick := {
  clock : IRepresentationEstimatorClockTick;
  minAutoBitrate : Q;
  maxAutoBitrate : num;
  filters : IABRFiltersObject;
  bufferBasedBitrate : option Q;
  currentRepresentation : option Representation;
  now : Q;
  requests : list IRequestInfo;
  bandwidthEstimate : option Q;
  bitrateChosen : Q;
  scoreData : option (Q * ScoreConfidenceLevel);
  stableRepresentation : option Representation
}.

(** [EstimateStorage]. *)
Record EstimateStorage := {
  es_bandwidth : option Q;
  es_representation : option Representation;
  wasGuessed : bool
}.

(** The variables of the closure of the auto mode. *)
Record autoState := {
  prevEstimate : EstimateStorage;
  allowBufferBasedEstimates : bool;
  blockGuessingModeUntil : Q;
  consecutiveWrongGuesses : Z
}.

Definition initialAutoState : autoState :=
  {| prevEstimate := {| es_bandwidth := None;
                        es_representation := None;
                        wasGuessed := false |};
     allowBufferBasedEstimates := false;
     blockGuessingModeUntil := 0;
     consecutiveWrongGuesses := 0 |}.

(** [getSuperiorRepresentation]. *)
Fixpoint getSuperiorRepresentation (representations : list Representation)
         (currentRepresentation : Representation) : option Representation :=
  match representations with
  | [] => None
  | r :: rest =>
    if String.eqb (rep_id r) (rep_id currentRepresentation)
    then hd_error rest
    else getSuperiorRepresentation rest currentRepresentation
  end.

(** The body of the loop over the requests of the guessed Representation:
    [true] when the request does not end the guess. *)
Definition requestKeepsGuess (now : Q) (currentRepresentation : Representation)
           (req : IRequestInfo) : bool :=
  let requestElapsedTime := now - requestTimestamp req in
  if req_isInit req then
    negb (Qlt_bool 1000 requestElapsedTime)
  else if Qlt_bool (req_duration req * 1000) requestElapsedTime then
    false
  else
    match req_bandwidth req with
    | Some fastBw => negb (Qlt_bool fastBw (rep_bitrate currentRepresentation))
    | None => true
    end.

(** [requests.filter(req => req.content.representation.id ===
    currentRepresentation.id)]. *)
Definition guessedRepresentationRequests (currentRepresentation : Representation)
           (requests : list IRequestInfo) : list IRequestInfo :=
  filter (fun req => String.eqb (rep_id (req_representation req))
                                (rep_id currentRepresentation))
         requests.

(** The value of [stayInGuessMode] after the loop. *)
Definition stayInGuessMode (now : Q) (currentRepresentation : Representation)
           (requests : list IRequestInfo) : bool :=
  forallb (requestKeepsGuess now currentRepresentation)
          (guessedRepresentationRequests currentRepresentation requests).

Section Estimator.

(** Functions of the repository that are not part of the sources at hand;
    the estimator is defined for any of them. *)
Variable selectOptimalRepresentation :
  list Representation -> Q -> Q -> num -> Representation.
Variable filterByBitrate : list Representation -> Q -> list Representation.
Variable filterByWidth : list Representation -> Q -> list Representation.
Variable isUrgent :
  Q -> option Representation -> list IRequestInfo ->
  IRepresentationEstimatorClockTick -> bool.

(** [getFilteredRepresentations]. *)
Definition getFilteredRepresentations (representations : list Representation)
           (filters : IABRFiltersObject) : list Representation :=
  let _representations :=
    match filter_bitrate filters with
    | Some b => filterByBitrate representations b
    | None => representations
    end in
  match filter_width filters with
  | Some w => filterByWidth _representations w
  | None => _representations
  end.

(** The test [enableGuessingMode] and what follows it: the Representation
    above the current one, when guessing is allowed. *)
Definition tryGuess (_representations : list Representation) (st : autoState)
           (t : tick) (currentRepresentation : Representation)
  : option Representation :=
  match scoreData t with
  | None => None
  | Some (representationScore, confidenceLevel) =>
    let enableGuessingMode :=
      isFinite (bufferGap (clock t))
      && num_ge (bufferGap (clock t)) 6
      && Qlt_bool (blockGuessingModeUntil st) (now t)
      && match confidenceLevel with HIGH => true | LOW => false end
      && ratio_ge representationScore (speed (clock t)) (14 # 10) in
    if enableGuessingMode
    then getSuperiorRepresentation _representations currentRepresentation
    else None
  end.

(** What the guessing logic decides: the Representation it chooses, if any,
    and the new values of [consecutiveWrongGuesses] and
    [blockGuessingModeUntil]. *)
Record guess := {
  chosenRepFromGuessMode : option Representation;
  guess_consecutiveWrongGuesses : Z;
  guess_blockGuessingModeUntil : Q
}.

Definition guessingMode (_representations : list Representation)
           (st : autoState) (t : tick)
           (chosenRepFromBandwidth : Representation)
           (chosenRepFromBufferSize : option Representation) : guess :=
  let unchanged (chosen : option Representation) :=
    {| chosenRepFromGuessMode := chosen;
       guess_consecutiveWrongGuesses := consecutiveWrongGuesses st;
       guess_blockGuessingModeUntil := blockGuessingModeUntil st |} in
  let validated :=
    {| chosenRepFromGuessMode := None;
       guess_consecutiveWrongGuesses := 0;
       guess_blockGuessingModeUntil := blockGuessingModeUntil st |} in
  let farFromLive :=
    match liveGap (clock t) with
    | None => true
    | Some g => Qlt_bool 50 g
    end in
  if farFromLive then unchanged None
  else
    match currentRepresentation t, es_representation (prevEstimate st) with
    | Some currentRepresentation, Some prevRep =>
      if match chosenRepFromBufferSize with
         | Some r => Qlt_bool (rep_bitrate prevRep) (rep_bitrate r)
         | None => false
         end
      then unchanged None
      else if wasGuessed (prevEstimate st) then
        if match chosenRepFromBufferSize with
           | Some r => Qeq_bool (rep_bitrate r) (rep_bitrate prevRep)
           | None => false
           end
        then validated
        else if Qle_bool (rep_bitrate prevRep) (rep_bitrate chosenRepFromBandwidth)
        then validated
        else if String.eqb (rep_id currentRepresentation) (rep_id prevRep) then
          if stayInGuessMode (now t) currentRepresentation (requests t)
             && match scoreData t with
                | None => true
                | Some (score, _) => Qlt_bool (12 # 10) score
                end
          then unchanged (Some currentRepresentation)
          else
            let consecutiveWrongGuesses := (consecutiveWrongGuesses st + 1)%Z in
            {| chosenRepFromGuessMode := None;
               guess_consecutiveWrongGuesses := consecutiveWrongGuesses;
               guess_blockGuessingModeUntil :=
                 now t + Math_min (inject_Z consecutiveWrongGuesses * 120000)
                                  360000 |}
        else unchanged (tryGuess _representations st t currentRepresentation)
      else unchanged (tryGuess _representations st t currentRepresentation)
    | _, _ => unchanged None
    end.

(** The new value of [allowBufferBasedEstimates]. *)
Definition nextAllowBufferBasedEstimates (st : autoState) (t : tick) : bool :=
  let bufferGap := bufferGap (clock t) in
  if allowBufferBasedEstimates st && num_le bufferGap 5 then false
  else if negb (allowBufferBasedEstimates st)
          && isFinite bufferGap && num_gt bufferGap 10
  then true
  else allowBufferBasedEstimates st.

(** [chosenRepFromBandwidth]. *)
Definition chosenRepFromBandwidth (representations : list Representation)
           (t : tick) : Representation :=
  selectOptimalRepresentation
    (getFilteredRepresentations representations (filters t))
    (bitrateChosen t) (minAutoBitrate t) (maxAutoBitrate t).

(** [chosenRepFromBufferSize] ([None] is [null]). *)
Definition chosenRepFromBufferSize (representations : list Representation)
           (st : autoState) (t : tick) : option Representation :=
  match bufferBasedBitrate t with
  | Some bufferBasedBitrate =>
    if nextAllowBufferBasedEstimates st t
       && Qlt_bool (rep_bitrate (chosenRepFromBandwidth representations t))
                   bufferBasedBitrate
    then Some (selectOptimalRepresentation
                 (getFilteredRepresentations representations (filters t))
                 bufferBasedBitrate (minAutoBitrate t) (maxAutoBitrate t))
    else None
  | None => None
  end.

(** The function mapped over the emissions of the [combineLatest] in auto
    mode: the new state of the closure and the estimate emitted. *)
Definition autoEstimate (representations : list Representation)
           (st : autoState) (t : tick) : autoState * IABREstimate :=
  let speed := speed (clock t) in
  let _representations := getFilteredRepresentations representations (filters t) in
  let knownStableBitrate :=
    match stableRepresentation t with
    | None => None
    | Some stable =>
      Some (rep_bitrate stable / (if Qlt_bool 0 speed then speed else 1))
    end in
  let chosenRepFromBandwidth := chosenRepFromBandwidth representations t in
  let chosenRepFromBufferSize := chosenRepFromBufferSize representations st t in
  let g := guessingMode _representations st t chosenRepFromBandwidth
                        chosenRepFromBufferSize in
  let store (chosen : Representation) (guessed : bool) :=
    {| prevEstimate := {| es_bandwidth := bandwidthEstimate t;
                          es_representation := Some chosen;
                          wasGuessed := guessed |};
       allowBufferBasedEstimates := nextAllowBufferBasedEstimates st t;
       blockGuessingModeUntil := guess_blockGuessingModeUntil g;
       consecutiveWrongGuesses := guess_consecutiveWrongGuesses g |} in
  match chosenRepFromGuessMode g, chosenRepFromBufferSize with
  | Some chosen, _ =>
    (store chosen true,
     {| bitrate := bandwidthEstimate t;
        representation := chosen;
        urgent := false;
        manual := false;
        knownStableBitrate := knownStableBitrate |})
  | None, Some chosen =>
    (store chosen false,
     {| bitrate := bandwidthEstimate t;
        representation := chosen;
        urgent := isUrgent (rep_bitrate chosen) (currentRepresentation t)
                           (requests t) (clock t);
        manual := false;
        knownStableBitrate := knownStableBitrate |})
  | None, None =>
    (store chosenRepFromBandwidth false,
     {| bitrate := bandwidthEstimate t;
        representation := chosenRepFromBandwidth;
        urgent := isUrgent (rep_bitrate chosenRepFromBandwidth)
                           (currentRepresentation t) (requests t) (clock t);
        manual := false;
        knownStableBitrate := knownStableBitrate |})
  end.

(** The auto mode over successive emissions: the last state of the closure
    and the estimates emitted. *)
Fixpoint autoRun (representations : list Representation) (st : autoState)
         (ticks : list tick) : autoState * list IABREstimate :=
  match ticks with
  | [] => (st, [])
  | t :: rest =>
    let '(st1, estimate) := autoEstimate representations st t in
    let '(st2, estimates) := autoRun representations st1 rest in
    (st2, estimate :: estimates)
  end.

(** What reaches [estimate$] when there are several Representations: a
    value of [manualBitrate$], or an emission of the [combineLatest] of the
    auto mode. *)
Inductive input : Type :=
| ManualBitrate (manualBitrate : Q)
| Emission (t : tick).

(** Where the [switchMap] over [manualBitrate$] stands: no manual bitrate
    received yet, manual mode, or auto mode with the variables of its
    closure. *)
Inductive mode : Type :=
| Waiting
| Manual
| Auto (st : autoState).

Fixpoint estimates (representations : list Representation) (m : mode)
         (inputs : list input) : list IABREstimate :=
  match inputs with
  | [] => []
  | ManualBitrate manualBitrate :: rest =>
    if Qle_bool 0 manualBitrate then
      {| representation :=
           selectOptimalRepresentation representations manualBitrate 0 Infinity;
         bitrate := None;
         knownStableBitrate := None;
         manual := true;
         urgent := true |}
      :: estimates representations Manual rest
    else estimates representations (Auto initialAutoState) rest
  | Emission t :: rest =>
    match m with
    | Auto st =>
      let '(st', estimate) := autoEstimate representations st t in
      estimate :: estimates representations (Auto st') rest
    | _ => estimates representations m rest
    end
  end.

(** What the stream of estimates does. *)
Inductive stream : Type :=
| Emits (values : list IABREstimate)
| Errors (message : string).

(** [RepresentationEstimator]: the estimates of [estimate$] (the two other
    streams merged with it emit nothing). *)
Definition RepresentationEstimator (representations : list Representation)
           (inputs : list input) : stream :=
  match representations with
  | [] => Errors "ABRManager: no representation choice given"
  | [only] =>
    Emits [{| bitrate := None;
              representation := only;
              manual := false;
              urgent := true;
              knownStableBitrate := None |}]
  | _ => Emits (estimates representations Waiting inputs)
  end.

End Estimator.

(** ** Properties *)

(** A monitored request that ends the guess: a request for the guessed
    Representation that has been pending for more than 1 s (initialization
    segment) or than the duration of its segment (media segment), or a
    request for a media segment whose bandwidth so far is below the bitrate
    of the Representation. *)
Definition endsGuess (now : Q) (guessed : Representation) (req : IRequestInfo)
  : Prop :=
  rep_id (req_representation req) = rep_id guessed
  /\ ((req_isInit req = true /\ 1000 < now - requestTimestamp req)
      \/ (req_isInit req = false
          /\ req_duration req * 1000 < now - requestTimestamp req)
      \/ (req_isInit req = false
          /\ exists fastBw, req_bandwidth req = Some fastBw
                            /\ fastBw < rep_bitrate guessed)).

Lemma endsGuess_stayInGuessMode now guessed requests req :
  In req requests -> endsGuess now guessed req ->
  stayInGuessMode now guessed requests = false.
Proof.
  intros Hin [Hid Hreq]. unfold stayInGuessMode.
  destruct (forallb _ _) eqn:E; [|reflexivity].
  rewrite forallb_forall in E.
  assert (Hf : In req (guessedRepresentationRequests guessed requests)).
  { apply filter_In. split; [exact Hin|]. now apply String.eqb_eq. }
  specialize (E req Hf). unfold requestKeepsGuess in E.
  destruct Hreq as [[Hi Hlt]|[[Hi Hlt]|[Hi (bw & Hbw & Hlt)]]]; rewrite Hi in E.
  - apply Qlt_bool_iff in Hlt. rewrite Hlt in E. discriminate E.
  - apply Qlt_bool_iff in Hlt. rewrite Hlt in E. discriminate E.
  - destruct (Qlt_bool (req_duration req * 1000) (now - requestTimestamp req));
      [discriminate E|].
    rewrite Hbw in E. apply Qlt_bool_iff in Hlt. rewrite Hlt in E. discriminate E.
Qed.

(** Modelled from the spec: [selectOptimalRepresentation], a function of
    the repository that is not part of the sources at hand: "the highest
    Representation at or below" the wanted bitrate "clamped by
    [min_auto_bitrate, max_auto_bitrate]", "or the lowest if none
    qualifies"; the Representations come in ascending order of bitrate. *)
Definition specSelectOptimalRepresentation (representations : list Representation)
           (optimalBitrate minBitrate : Q) (maxBitrate : num) : Representation :=
  let wantedBitrate :=
    if Qle_bool optimalBitrate minBitrate then minBitrate
    else match maxBitrate with
         | Finite m => if Qle_bool m optimalBitrate then m else optimalBitrate
         | Infinity => optimalBitrate
         end in
  let lowest := hd {| rep_id := ""; rep_bitrate := 0 |} representations in
  last (filter (fun r => Qle_bool (rep_bitrate r) wantedBitrate) representations)
       lowest.

(** ** Examples *)

Definition r800 : Representation := {| rep_id := "800k"; rep_bitrate := 800000 |}.
Definition r1200 : Representation := {| rep_id := "1200k"; rep_bitrate := 1200000 |}.

Definition liveClock : IRepresentationEstimatorClockTick :=
  {| bufferGap := Finite 8; position := 100; speed := 1; duration := 1000;
     liveGap := Some 10 |}.

Definition noFilter : IABRFiltersObject :=
  {| filter_bitrate := None; filter_width := None |}.

(** An emission of the auto mode near the live edge, with a buffer of 8 s,
    no filter, no buffer-based bitrate and a bandwidth of 900 kb/s. *)
Definition tickOn (current : option Representation) (maximum : num)
           (time : Q) (pending : list IRequestInfo)
           (score : option (Q * ScoreConfidenceLevel)) : tick :=
  {| clock := liveClock; minAutoBitrate := 0; maxAutoBitrate := maximum;
     filters := noFilter; bufferBasedBitrate := None;
     currentRepresentation := current; now := time; requests := pending;
     bandwidthEstimate := Some 900000; bitrateChosen := 900000;
     scoreData := score; stableRepresentation := None |}.

(** The closure while the guess [r1200] is being checked, after
    [wrongGuesses] wrong guesses. *)
Definition guessing (wrongGuesses : Z) : autoState :=
  {| prevEstimate := {| es_bandwidth := Some 900000;
                        es_representation := Some r1200;
                        wasGuessed := true |};
     allowBufferBasedEstimates := false;
     blockGuessingModeUntil := 0;
     consecutiveWrongGuesses := wrongGuesses |}.

(** A request for [r1200] begun at time 0. *)
Definition requestOfGuess (isInit : bool) (fastBw : option Q) : IRequestInfo :=
  {| req_representation := r1200; req_isInit := isInit; requestTimestamp := 0;
     req_duration := 4; req_bandwidth := fastBw |}.

(** The guess-mode scenario of section 8: three times, the estimator
    guesses [r1200] from a current [r800] with a score of 1.6 and HIGH
    confidence, then sees a request for [r1200] with a bandwidth of
    600 kb/s. *)
Definition threeWrongGuesses : list tick :=
  let slow := [requestOfGuess false (Some 600000)] in
  let good := Some (16 # 10, HIGH) in
  [ tickOn None Infinity 1000 [] None;
    tickOn (Some r800) Infinity 2000 [] good;
    tickOn (Some r1200) Infinity 3000 slow None;
    tickOn (Some r800) Infinity 200000 [] good;
    tickOn (Some r1200) Infinity 201000 slow None;
    tickOn (Some r800) Infinity 500000 [] good;
    tickOn (Some r1200) Infinity 501000 slow None ].

Section Properties.

Variable selectOptimalRepresentation :
  list Representation -> Q -> Q -> num -> Representation.
Variable filterByBitrate : list Representation -> Q -> list Representation.
Variable filterByWidth : list Representation -> Q -> list Representation.
Variable isUrgent :
  Q -> option Representation -> list IRequestInfo ->
  IRepresentationEstimatorClockTick -> bool.

Let autoEstimate' :=
  autoEstimate selectOptimalRepresentation filterByBitrate filterByWidth isUrgent.
Let fromBandwidth :=
  chosenRepFromBandwidth selectOptimalRepresentation filterByBitrate filterByWidth.
Let fromBufferSize :=
  chosenRepFromBufferSize selectOptimalRepresentation filterByBitrate filterByWidth.

(** C4 (amended): while a guess is being checked (the previous estimate
    was a guess, the live gap is at most 50 s, the current Representation is
    the guessed one, and neither the bandwidth-based nor the buffer-based
    choice reaches its bitrate), if a request for the guessed Representation
    has been pending for longer than its segment lasts (1 s for an
    initialization segment), or a request for one of its media segments has a
    bandwidth below its bitrate, or its score is known and at most 1.2, then
    [consecutiveWrongGuesses] is incremented by one and guessing is blocked
    until [now + min(consecutiveWrongGuesses x 120000, 360000)] ms; from the
    third wrong guess in a row on, that is [now + 360000] ms. *)
Theorem wrong_guess_is_counted (representations : list Representation)
        (st : autoState) (t : tick) (gap : Q) (guessed prevRep : Representation) :
  liveGap (clock t) = Some gap -> gap <= 50 ->
  currentRepresentation t = Some guessed ->
  es_representation (prevEstimate st) = Some prevRep ->
  wasGuessed (prevEstimate st) = true ->
  rep_id guessed = rep_id prevRep ->
  rep_bitrate (fromBandwidth representations t) < rep_bitrate prevRep ->
  (forall r, fromBufferSize representations st t = Some r ->
             rep_bitrate r < rep_bitrate prevRep) ->
  ((exists req, In req (requests t) /\ endsGuess (now t) guessed req)
   \/ (exists score level, scoreData t = Some (score, level) /\ score <= 12 # 10)) ->
  let st' := fst (autoEstimate' representations st t) in
  consecutiveWrongGuesses st' = (consecutiveWrongGuesses st + 1)%Z
  /\ blockGuessingModeUntil st'
     = now t + Math_min (inject_Z (consecutiveWrongGuesses st + 1) * 120000) 360000
  /\ ((2 <= consecutiveWrongGuesses st)%Z ->
      blockGuessingModeUntil st' == now t + 360000)
  /\ wasGuessed (prevEstimate st') = false.
Proof.
  intros Hgap Hle Hcur Hprev Hguess Hid Hbw Hbuf Htrigger st'.
  assert (Hg : guessingMode
                 (getFilteredRepresentations filterByBitrate filterByWidth
                                             representations (filters t))
                 st t (fromBandwidth representations t)
                 (fromBufferSize representations st t)
               = {| chosenRepFromGuessMode := None;
                    guess_consecutiveWrongGuesses := (consecutiveWrongGuesses st + 1)%Z;
                    guess_blockGuessingModeUntil :=
                      now t + Math_min (inject_Z (consecutiveWrongGuesses st + 1)
                                        * 120000) 360000 |}).
  { unfold guessingMode. rewrite Hgap, Hcur, Hprev, Hguess.
    assert (E1 : Qlt_bool 50 gap = false) by (now apply Qlt_bool_false).
    rewrite E1.
    assert (E2 : match fromBufferSize representations st t with
                 | Some r => Qlt_bool (rep_bitrate prevRep) (rep_bitrate r)
                 | None => false
                 end = false).
    { destruct (fromBufferSize representations st t) as [r|]; [|reflexivity].
      apply Qlt_bool_false. apply Qlt_le_weak. now apply Hbuf. }
    rewrite E2.
    assert (E3 : match fromBufferSize representations st t with
                 | Some r => Qeq_bool (rep_bitrate r) (rep_bitrate prevRep)
                 | None => false
                 end = false).
    { destruct (fromBufferSize representations st t) as [r|]; [|reflexivity].
      destruct (Qeq_bool _ _) eqn:E; [|reflexivity].
      apply Qeq_bool_iff in E. specialize (Hbuf r eq_refl). lra. }
    rewrite E3.
    assert (E4 : Qle_bool (rep_bitrate prevRep)
                          (rep_bitrate (fromBandwidth representations t)) = false)
      by (now apply Qle_bool_false).
    rewrite E4.
    assert (E5 : String.eqb (rep_id guessed) (rep_id prevRep) = true)
      by (now apply String.eqb_eq).
    rewrite E5.
    assert (E6 : stayInGuessMode (now t) guessed (requests t)
                 && match scoreData t with
                    | Some (score, _) => Qlt_bool (12 # 10) score
                    | None => true
                    end = false).
    { destruct Htrigger as [(req & Hin & Hends)|(score & level & Hs & Hlow)].
      - now rewrite (endsGuess_stayInGuessMode _ _ _ _ Hin Hends).
      - rewrite Hs. apply andb_false_iff. right. now apply Qlt_bool_false. }
    rewrite E6. reflexivity. }
  unfold st', autoEstimate', autoEstimate. cbv zeta.
  fold (fromBandwidth representations t). fold (fromBufferSize representations st t).
  rewrite Hg. cbn [chosenRepFromGuessMode guess_consecutiveWrongGuesses
                   guess_blockGuessingModeUntil].
  assert (Hcap : (2 <= consecutiveWrongGuesses st)%Z ->
                 now t + Math_min (inject_Z (consecutiveWrongGuesses st + 1) * 120000)
                                  360000 == now t + 360000).
  { intro H2. unfold Math_min.
    assert (H3 : 3 <= inject_Z (consecutiveWrongGuesses st + 1)).
    { change 3 with (inject_Z 3). rewrite <- Zle_Qle. lia. }
    destruct (Qle_bool _ _) eqn:E; [|reflexivity].
    apply Qle_bool_iff in E. lra. }
  destruct (fromBufferSize representations st t); cbn [fst];
    repeat split; try reflexivity; exact Hcap.
Qed.

(** C3, on the code: with [maxAutoBitrate = 800000] and the two
    Representations [r800] and [r1200], the second estimate of the auto mode
    is a guess that picks [r1200], whose bitrate is above the maximum although
    [r800] is within the bounds. *)
Theorem guess_ignores_maxAutoBitrate :
  exists first second,
    RepresentationEstimator selectOptimalRepresentation filterByBitrate
                            filterByWidth isUrgent [r800; r1200]
      [ ManualBitrate (-1);
        Emission (tickOn None (Finite 800000) 1000 [] None);
        Emission (tickOn (Some r800) (Finite 800000) 2000 [] (Some (16 # 10, HIGH))) ]
    = Emits [first; second]
    /\ manual second = false
    /\ representation second = r1200
    /\ ~ rep_bitrate (representation second) <= 800000
    /\ In r800 [r800; r1200] /\ 0 <= rep_bitrate r800 <= 800000.
Proof.
  eexists. eexists. split; [reflexivity|].
  repeat split; try reflexivity; try (now left); try discriminate.
  vm_compute. intro H. apply H. reflexivity.
Qed.

(** C10: with exactly one Representation the estimator emits one
    estimate, which holds that Representation with [urgent = true],
    [manual = false] and no [bitrate] nor [knownStableBitrate], whatever
    reaches it; with none, the stream of estimates fails. *)
Theorem single_representation (only : Representation) (inputs : list input) :
  RepresentationEstimator selectOptimalRepresentation filterByBitrate
                          filterByWidth isUrgent [only] inputs
  = Emits [{| bitrate := None; manual := false; representation := only;
              urgent := true; knownStableBitrate := None |}]
  /\ RepresentationEstimator selectOptimalRepresentation filterByBitrate
                             filterByWidth isUrgent [] inputs
     = Errors "ABRManager: no representation choice given".
Proof.
  split; reflexivity.
Qed.

End Properties.

(** The theorem on a third wrong guess in a row: a request for a media
    segment of the guessed Representation has a bandwidth of 600 kb/s. *)
Lemma wrong_guess_is_counted_witness :
  let st' := fst (autoEstimate specSelectOptimalRepresentation
                               (fun l _ => l) (fun l _ => l)
                               (fun _ _ _ _ => false)
                               [r800; r1200] (guessing 2)
                               (tickOn (Some r1200) Infinity 3000
                                       [requestOfGuess false (Some 600000)] None)) in
  consecutiveWrongGuesses st' = 3%Z
  /\ blockGuessingModeUntil st' == 3000 + 360000.
Proof.
  intro st'.
  destruct (wrong_guess_is_counted specSelectOptimalRepresentation
              (fun l _ => l) (fun l _ => l) (fun _ _ _ _ => false)
              [r800; r1200] (guessing 2)
              (tickOn (Some r1200) Infinity 3000
                      [requestOfGuess false (Some 600000)] None)
              10 r1200 r1200)
    as (Hcount & _ & Hcap & _); try reflexivity.
  - discriminate.
  - intros r Hr. discriminate Hr.
  - left. exists (requestOfGuess false (Some 600000)).
    split; [now left|]. split; [reflexivity|].
    right. right. split; [reflexivity|].
    exists 600000. split; reflexivity.
  - split; [exact Hcount|]. apply Hcap. simpl. lia.
Defined.

(** C4, as stated, fails for the request of an initialization segment: its
    bandwidth is not looked at.  While [r1200] is being checked, a request
    for its initialization segment that has been pending for 500 ms with a
    bandwidth of 600 kb/s does not end the guess: the guess goes on and the
    count of wrong guesses stays at 0. *)
Lemma slow_init_request_keeps_guess :
  let t := tickOn (Some r1200) Infinity 500
                  [requestOfGuess true (Some 600000)] None in
  let g := guessingMode [r800; r1200] (guessing 0) t r800 None in
  (exists req fastBw,
      In req (requests t)
      /\ rep_id (req_representation req) = rep_id r1200
      /\ req_bandwidth req = Some fastBw
      /\ fastBw < rep_bitrate r1200)
  /\ chosenRepFromGuessMode g = Some r1200
  /\ guess_consecutiveWrongGuesses g = 0%Z
  /\ guess_blockGuessingModeUntil g = blockGuessingModeUntil (guessing 0).
Proof.
  cbv zeta. split; [|repeat split; reflexivity].
  exists (requestOfGuess true (Some 600000)), 600000.
  repeat split; try reflexivity. now left.
Qed.

(** The scenario run from the initial state: the estimates alternate
    between [r800] and the guess [r1200]; after the third wrong guess the
    count is 3 and guessing is blocked for 360 s from the last emission. *)
Lemma three_wrong_guesses_in_a_row :
  let run := autoRun specSelectOptimalRepresentation
                     (fun l _ => l) (fun l _ => l) (fun _ _ _ _ => false)
                     [r800; r1200] initialAutoState threeWrongGuesses in
  map representation (snd run) = [r800; r1200; r800; r1200; r800; r1200; r800]
  /\ consecutiveWrongGuesses (fst run) = 3%Z
  /\ blockGuessingModeUntil (fst run) == 501000 + 360000.
Proof.
  cbv zeta. repeat split; vm_compute; reflexivity.
Qed.

End ABR.

(* ================================================================== *)
(** * SegmentTemplate index: availability, numbering and bounds
    [src/parsers/manifest/dash/common/indexes/template.ts] *)

Module TemplateIndex.
Import Template.


(** The number given to the first segment of the Period: [startNumber], 1
    when the attribute is absent. *)
Definition numberOffset (this : TemplateRepresentationIndex) : Z :=
  match startNumber (_index this) with None => 1%Z | Some n => n end.

(** A dynamic index of 4 s segments (timescale 1000) in a Period starting at
    10 s, with the bounds [31, 100] and half a second of availability time
    offset. *)
Definition liveExample : TemplateRepresentationIndex :=
  {| _index := {| duration := 4000; timescale := 1000; indexTimeOffset := -10000;
                  presentationTimeOffset := 0; startNumber := Some 7%Z |};
     _aggressiveMode := true;
     _manifestBoundsCalculator :=
       {| estimateMinimumBound := Some 31; estimateMaximumBound := Some 100 |};
     _periodStart := 10;
     _scaledPeriodEnd := None;
     _availabilityTimeOffset := Some (1 # 2);
     _isDynamic := true |}.



Lemma floor_div_ge (k : Z) (x d : Q) :
  0 < d -> inject_Z k * d <= x -> (k <= Qfloor (x / d))%Z.
Proof.
  intros Hd H. replace k with (Qfloor (inject_Z k)) at 1 by apply Qfloor_Z.
  apply Qfloor_resp_le. now apply Qle_shift_div_l.
Qed.

Lemma floor_div_nonneg (x d : Q) : 0 < d -> 0 <= x -> (0 <= Qfloor (x / d))%Z.
Proof.
  intros Hd H. apply floor_div_ge; [exact Hd|].
  change (inject_Z 0) with 0. lra.
Qed.

Section Proofs.

Variable this : TemplateRepresentationIndex.
Hypothesis duration_pos : 0 < duration (_index this).
Hypothesis timescale_pos : 0 < timescale (_index this).

(** The first segment start is a multiple of the segment duration, at or
    after the start of the Period. *)
Lemma first_start_multiple first :
  _getFirstSegmentStart this = Known first ->
  exists k, (0 <= k)%Z /\ first == inject_Z k * duration (_index this).
Proof.
  unfold _getFirstSegmentStart.
  destruct (negb (_isDynamic this)).
  - intros [= <-]. exists 0%Z. split; [lia|]. ring.
  - destruct (_ && _); [discriminate|].
    destruct (estimateMinimumBound _) as [m|]; [|discriminate].
    intros [= <-]. eexists. split; [|reflexivity].
    assert (Hts := timescale_pos). assert (Hd := duration_pos).
    apply floor_div_nonneg; [exact Hd|].
    destruct (Qlt_bool (_periodStart this) m) eqn:E.
    + apply Qlt_bool_iff in E. nra.
    + lra.
Qed.

(** What the loop of [getSegments] pushes when it starts on a multiple of
    the duration: segment [n'] starts [n'] durations after the Period start. *)
Lemma segmentsLoop_aligned fuel last t n :
  t == inject_Z n * duration (_index this) ->
  Forall (fun s => exists t' n', s = makeSegment this t' n' /\
                   t' == inject_Z n' * duration (_index this) /\
                   (n <= n')%Z /\ t' <= last)
         (segmentsLoop this fuel last t n).
Proof.
  revert t n. induction fuel as [|fuel IH]; intros t n Ht; simpl; [constructor|].
  destruct (Qle_bool t last) eqn:E; [|constructor].
  apply Qle_bool_iff in E. constructor.
  - exists t, n. repeat split; [exact Ht | lia | exact E].
  - eapply Forall_impl; [|apply IH].
    + intros s (t' & n' & -> & Hal & Hn & Hhi). exists t', n'.
      repeat split; [exact Hal | lia | exact Hhi].
    + rewrite inject_Z_plus, Ht. change (inject_Z 1) with 1. ring.
Qed.

Lemma segmentsLoop_numbers fuel last t n :
  map seg_number (segmentsLoop this fuel last t n)
  = map (fun i => (n + numberOffset this + Z.of_nat i)%Z)
        (seq 0 (List.length (segmentsLoop this fuel last t n))).
Proof.
  revert t n. induction fuel as [|fuel IH]; intros t n; simpl; [reflexivity|].
  destruct (Qle_bool t last); [|reflexivity].
  simpl. f_equal.
  - unfold numberOffset. lia.
  - rewrite IH, <- seq_shift, map_map. apply map_ext. intro i. lia.
Qed.

(** The segments of [getSegments], as the loop builds them. *)
Lemma getSegments_aligned fromTime dur :
  Forall (fun s => exists t' n', s = makeSegment this t' n' /\
                   t' == inject_Z n' * duration (_index this) /\
                   (0 <= n')%Z /\
                   exists first last,
                     _getFirstSegmentStart this = Known first /\
                     _getLastSegmentStart this = Known last /\
                     first <= t' /\ t' <= last)
         (getSegments this fromTime dur).
Proof.
  unfold getSegments.
  destruct (_getFirstSegmentStart this) as [first| |] eqn:Ef; try constructor.
  destruct (_getLastSegmentStart this) as [last| |] eqn:El; try constructor.
  destruct (Qle_bool _ _); [constructor|].
  destruct (first_start_multiple _ Ef) as (k & Hk & Efirst).
  assert (Hd := duration_pos).
  set (d := duration (_index this)) in *.
  set (startPosition := Math_max first _).
  assert (Hn : (k <= Qfloor (startPosition / d))%Z).
  { apply floor_div_ge; [exact Hd|]. rewrite <- Efirst. apply Math_max_l. }
  eapply Forall_impl; [|apply segmentsLoop_aligned; reflexivity].
  intros s (t' & n' & -> & Hal & Hge & Hhi). exists t', n'.
  repeat split; [exact Hal | lia |].
  exists first, last. repeat split.
  - rewrite Efirst, Hal.
    apply Qmult_le_compat_r; [|apply Qlt_le_weak; exact Hd].
    rewrite <- Zle_Qle. lia.
  - eapply Qle_trans; [exact Hhi | apply Math_min_l].
Qed.

(** X1: the segments of [getSegments] are numbered consecutively; none has a
    number below [startNumber] (1 when absent); and the segment of number [n]
    starts [n - startNumber] segment durations after the start of the
    Period. *)
Theorem getSegments_numbering (fromTime dur : Q) :
  let D := duration (_index this) / timescale (_index this) in
  let segments := getSegments this fromTime dur in
  Forall (fun s => (numberOffset this <= seg_number s)%Z /\
                   seg_time s
                   == _periodStart this
                      + inject_Z (seg_number s - numberOffset this) * D)
         segments
  /\ exists n0, map seg_number segments
                = map (fun i => (n0 + Z.of_nat i)%Z) (seq 0 (List.length segments)).
Proof.
  intros D segments. split.
  - eapply Forall_impl; [|apply getSegments_aligned].
    intros s (t' & n' & -> & Hal & Hn & _).
    assert (Hts := timescale_pos).
    split.
    + simpl. unfold numberOffset. lia.
    + rewrite seg_time_makeSegment.
      replace (seg_number (makeSegment this t' n') - numberOffset this)%Z
        with n' by (simpl; unfold numberOffset; lia).
      rewrite Hal. unfold D. field.
      intro Z0. rewrite Z0 in Hts. discriminate Hts.
  - unfold segments, getSegments.
    destruct (_getFirstSegmentStart this); try (exists 0%Z; reflexivity).
    destruct (_getLastSegmentStart this); try (exists 0%Z; reflexivity).
    destruct (Qle_bool _ _); [exists 0%Z; reflexivity|].
    eexists. apply segmentsLoop_numbers.
Qed.


(** X3: in a static index every returned segment starts before the end of
    its Period, has a positive duration, ends at its start plus its duration
    and not after the end of the Period. *)
Theorem static_segments_within_period (fromTime dur scaledEnd : Q) :
  _isDynamic this = false ->
  _scaledPeriodEnd this = Some scaledEnd ->
  let periodEnd := scaledEnd / timescale (_index this) + _periodStart this in
  Forall (fun s => seg_time s < periodEnd /\
                   0 < seg_duration s /\
                   seg_end s == seg_time s + seg_duration s /\
                   seg_end s <= periodEnd)
         (getSegments this fromTime dur).
Proof.
  intros Hstatic Hend periodEnd.
  eapply Forall_impl; [|apply getSegments_aligned].
  intros s (t' & n' & -> & Hal & Hn & first & last & Ef & El & Hlo & Hhi).
  assert (Hts := timescale_pos). assert (Hd := duration_pos).
  assert (Hlast : last < scaledEnd).
  { revert El. unfold _getLastSegmentStart. rewrite Hstatic, Hend.
    assert (Hc := Qceiling_lt (scaledEnd / duration (_index this))).
    set (n := Qceiling (scaledEnd / duration (_index this))) in *.
    set (d := duration (_index this)) in *.
    assert (Hnd : inject_Z (n - 1) * d < scaledEnd).
    { apply (Qmult_lt_compat_r _ _ d) in Hc; [|exact Hd].
      assert (E : scaledEnd / d * d == scaledEnd)
        by (field; intro Z0; rewrite Z0 in Hd; discriminate Hd).
      rewrite E in Hc. exact Hc. }
    destruct (_ || _); intros [= <-]; [exact Hnd|].
    assert (E : inject_Z (n - 1 - 1) == inject_Z (n - 1) - 1).
    { unfold Z.sub at 1. rewrite inject_Z_plus. reflexivity. }
    rewrite E. nra. }
  unfold periodEnd, makeSegment. simpl. rewrite Hend.
  set (ts := timescale (_index this)) in *.
  set (d := duration (_index this)) in *.
  set (ps := _periodStart this) in *.
  assert (Hne : ~ ts == 0) by (intro Z0; rewrite Z0 in Hts; discriminate Hts).
  assert (Hinv : 0 < / ts) by now apply Qinv_lt_0_compat.
  assert (Elift : forall a b, a <= b -> (a + ps * ts) / ts <= b / ts + ps).
  { intros a b Hab.
    assert (E : b / ts + ps == (b + ps * ts) / ts) by (field; exact Hne).
    rewrite E. apply Qmult_le_compat_r; [lra | lra]. }
  assert (Eltlift : forall a b, a < b -> (a + ps * ts) / ts < b / ts + ps).
  { intros a b Hab.
    assert (E : b / ts + ps == (b + ps * ts) / ts) by (field; exact Hne).
    rewrite E. apply Qmult_lt_compat_r; [lra | lra]. }
  split; [apply Eltlift; lra|].
  destruct (Qlt_bool scaledEnd (t' + d)) eqn:E.
  - repeat split.
    + apply Qlt_shift_div_l; [exact Hts | lra].
    + field. exact Hne.
    + assert (E' : t' + ps * ts + (scaledEnd - t') == scaledEnd + ps * ts) by ring.
      rewrite E'. apply Elift. lra.
  - apply Qlt_bool_false in E. repeat split.
    + apply Qlt_shift_div_l; [exact Hts | lra].
    + field. exact Hne.
    + assert (E' : t' + ps * ts + d == (t' + d) + ps * ts) by ring.
      rewrite E'. apply Elift. exact E.
Qed.




End Proofs.

(** The numbering on the live example, asked for [(50, 10)]. *)
Lemma getSegments_numbering_witness :
  0 < duration (_index liveExample) /\
  0 < timescale (_index liveExample) /\
  (Forall (fun s => (7 <= seg_number s)%Z /\
                    seg_time s == 10 + inject_Z (seg_number s - 7) * (4000 / 1000))
          (getSegments liveExample 50 10)
   /\ exists n0, map seg_number (getSegments liveExample 50 10)
                 = map (fun i => (n0 + Z.of_nat i)%Z)
                       (seq 0 (List.length (getSegments liveExample 50 10)))).
Proof.
  split; [reflexivity|]. split; [reflexivity|].
  exact (getSegments_numbering liveExample eq_refl eq_refl 50 10).
Defined.


(** A static Period of 10 s cut in 4 s segments: the last one is shortened. *)
Lemma static_segments_within_period_witness :
  0 < duration (_index (staticExample 10)) /\
  0 < timescale (_index (staticExample 10)) /\
  _isDynamic (staticExample 10) = false /\
  _scaledPeriodEnd (staticExample 10) = Some 10 /\
  Forall (fun s => seg_time s < 10 / 1 + 0 /\
                   0 < seg_duration s /\
                   seg_end s == seg_time s + seg_duration s /\
                   seg_end s <= 10 / 1 + 0)
         (getSegments (staticExample 10) 0 20).
Proof.
  split; [reflexivity|]. split; [reflexivity|].
  split; [reflexivity|]. split; [reflexivity|].
  exact (static_segments_within_period (staticExample 10) eq_refl eq_refl
           0 20 10 eq_refl eq_refl).
Defined.



End TemplateIndex.

(* ================================================================== *)
(** * MPD parser: XLink resolution, lifetime and time bounds
    [parseMpdIr] and [parseCompleteIntermediateRepresentation], in the second
    part of [src/parsers/manifest/dash/common/indexes/template.ts] *)

Module ParseMpd.

(** Modelled from the spec: the configuration constant
    [DASH_FALLBACK_LIFETIME_WHEN_MINIMUM_UPDATE_PERIOD_EQUAL_0] of [config],
    which is not part of the sources at hand; section 6 of the specification
    gives 3 s. *)
Definition DASH_FALLBACK_LIFETIME_WHEN_MINIMUM_UPDATE_PERIOD_EQUAL_0 : Q := 3.

(** [IPeriodIntermediateRepresentation], for the attributes the XLink
    resolution reads; [periodId] stands for the rest of the Period. *)
Record IPeriodIntermediateRepresentation := {
  periodId : string;
  xlinkHref : option string;
  xlinkActuate : option string
}.

(** [ILoadedXlinkData] (timings and URL left out: they only go to
    [xlinkInfos]). *)
Record ILoadedXlinkData := {
  parsed : list IPeriodIntermediateRepresentation;
  xlink_warnings : list string
}.

(** An element of [xlinksToLoad]. *)
Record xlinkToLoad := {
  index : nat;
  ressource : string
}.

(** The loop of [parseMpdIr] that fills [xlinksToLoad], from index [i]. *)
Fixpoint xlinksFrom (i : nat) (periods : list IPeriodIntermediateRepresentation)
  : list xlinkToLoad :=
  match periods with
  | [] => []
  | period :: rest =>
    match xlinkHref period, xlinkActuate period with
    | Some href, Some actuate =>
      if String.eqb actuate "onLoad"
      then {| index := i; ressource := href |} :: xlinksFrom (S i) rest
      else xlinksFrom (S i) rest
    | _, _ => xlinksFrom (S i) rest
    end
  end.

Definition xlinksToLoad (periods : list IPeriodIntermediateRepresentation)
  : list xlinkToLoad :=
  xlinksFrom 0 periods.

(** [Array.prototype.splice (start, 1, ...items)]. *)
Definition splice {A : Type} (start : nat) (items l : list A) : list A :=
  firstn start l ++ items ++ skipn (S start) l.

(** What [parseMpdIr] does once it is past the clock: it goes on to the
    complete parsing when [xlinksToLoad] is empty, and asks for the XLinks
    otherwise. *)
Inductive xlinkResponse : Type :=
| parseComplete
| needs_xlinks (xlinksUrls : list string).

Definition xlinkStep (periods : list IPeriodIntermediateRepresentation)
  : xlinkResponse :=
  match xlinksToLoad periods with
  | [] => parseComplete
  | toLoad => needs_xlinks (map ressource toLoad)
  end.

(** One turn of the loop of [continueParsingMPD], on the Periods of the MPD
    and the accumulated warnings. *)
Definition continueTurn (turn : xlinkToLoad * ILoadedXlinkData)
           (st : list IPeriodIntermediateRepresentation * list string)
  : list IPeriodIntermediateRepresentation * list string :=
  let (toLoad, loaded) := turn in
  (splice (index toLoad) (parsed loaded) (fst st),
   (snd st ++ xlink_warnings loaded)%list).

(** [continueParsingMPD] of the ["needs-xlinks"] response: the Periods and
    warnings with which [parseMpdIr] is called again; [None] is the thrown
    "DASH parser: wrong number of loaded ressources.".  The loop goes from
    the last loaded resource to the first: [fold_right] applies the turn of
    the last element first. *)
Definition continueParsingMPD
           (periods : list IPeriodIntermediateRepresentation)
           (warnings : list string) (loadedRessources : list ILoadedXlinkData)
  : option (list IPeriodIntermediateRepresentation * list string) :=
  let toLoad := xlinksToLoad periods in
  if negb (List.length loadedRessources =? List.length toLoad)%nat then None
  else Some (fold_right continueTurn (periods, warnings)
                        (combine toLoad loadedRessources)).

(** The root attributes read by the complete parsing. *)
Record IMPDAttributes := {
  mpd_type : option string;
  minimumUpdatePeriod : option Q;
  timeShiftBufferDepth : option Q;
  mpd_duration : option Q
}.

(** [IParsedPeriod], for its bounds. *)
Record IParsedPeriod := {
  period_start : Q;
  period_end : option Q;
  period_duration : option Q
}.

Record IMaximumTimeData := {
  isLinear : bool;
  value : num;
  time : Q
}.

Record ITimeBounds := {
  absoluteMinimumTime : option Q;
  timeshiftDepth : option Q;
  maximumTimeData : IMaximumTimeData
}.

(** [IParsedManifest], for the fields computed from the bounds. *)
Record IParsedManifest := {
  isDynamic : bool;
  isLive : bool;
  isLastPeriodKnown : bool;
  timeBounds : ITimeBounds;
  lifetime : option Q
}.

(** [parsedPeriods[parsedPeriods.length - 1]]. *)
Fixpoint lastPeriod (parsedPeriods : list IParsedPeriod) : option IParsedPeriod :=
  match parsedPeriods with
  | [] => None
  | [p] => Some p
  | _ :: rest => lastPeriod rest
  end.

(** The end of the last Period, as the static branch computes it. *)
Definition lastPeriodEnd (parsedPeriods : list IParsedPeriod) : option Q :=
  match lastPeriod parsedPeriods with
  | None => None
  | Some p =>
    match period_end p with
    | Some e => Some e
    | None =>
      match period_duration p with
      | Some d => Some (period_start p + d)
      | None => None
      end
    end
  end.

(** [candidate < maximumTime ? candidate : maximumTime], for a candidate that
    may be [undefined]. *)
Definition lower (candidate : option Q) (maximumTime : num) : num :=
  match candidate with
  | Some c => if num_gt maximumTime c then Finite c else maximumTime
  | None => maximumTime
  end.

Section CompleteParsing.

(** What the helpers that are not part of the sources at hand returned:
    [parsePeriods], [getMinimumAndMaximumPosition] and
    [parseAvailabilityStartTime]; then what the two calls of
    [performance.now()] and the call of [Date.now()] return. *)
Variable parsedPeriods : list IParsedPeriod.
Variables contentStart contentEnd : option Q.
Variable availabilityStartTime : option Q.
Variables performance_now performance_now_again Date_now : Q.

(** [parseCompleteIntermediateRepresentation], for the lifetime, the time
    bounds and [isLastPeriodKnown]. *)
Definition parseCompleteIntermediateRepresentation
           (rootAttributes : IMPDAttributes) (externalClockOffset : option Q)
  : IParsedManifest :=
  let isDynamic :=
    match mpd_type rootAttributes with
    | Some t => String.eqb t "dynamic"
    | None => false
    end in
  let mediaPresentationDuration := mpd_duration rootAttributes in
  let lifetime :=
    match minimumUpdatePeriod rootAttributes with
    | Some mup =>
      if Qle_bool 0 mup
      then Some (if Qeq_bool mup 0
                 then DASH_FALLBACK_LIFETIME_WHEN_MINIMUM_UPDATE_PERIOD_EQUAL_0
                 else mup)
      else None
    | None => None
    end in
  let now := performance_now in
  let timeBounds :=
    if negb isDynamic then
      let minimumTime :=
        match contentStart with
        | Some s => s
        | None =>
          match parsedPeriods with
          | p :: _ => period_start p
          | [] => 0
          end
        end in
      let maximumTime :=
        match mediaPresentationDuration with
        | Some d => Finite d
        | None => Infinity
        end in
      let maximumTime := lower (lastPeriodEnd parsedPeriods) maximumTime in
      let maximumTime := lower contentEnd maximumTime in
      {| absoluteMinimumTime := Some minimumTime;
         timeshiftDepth := None;
         maximumTimeData := {| isLinear := false;
                               value := maximumTime;
                               time := now |} |}
    else
      let minimumTime := contentStart in
      let timeshiftDepth := timeShiftBufferDepth rootAttributes in
      let maximumTime :=
        match contentEnd with
        | Some e => e
        | None =>
          let ast := match availabilityStartTime with Some a => a | None => 0 end in
          match externalClockOffset with
          | None => Date_now / 1000 - ast
          | Some offset =>
            let serverTime := performance_now_again + offset in
            serverTime / 1000 - ast
          end
        end in
      let timeshiftDepth :=
        match timeshiftDepth, minimumTime with
        | Some depth, Some minimum =>
          if Qlt_bool depth (maximumTime - minimum)
          then Some (maximumTime - minimum)
          else Some depth
        | depth, _ => depth
        end in
      {| absoluteMinimumTime := minimumTime;
         timeshiftDepth := timeshiftDepth;
         maximumTimeData := {| isLinear := true;
                               value := Finite maximumTime;
                               time := now |} |} in
  let isLastPeriodKnown :=
    negb isDynamic
    || (match minimumUpdatePeriod rootAttributes with None => true | Some _ => false end
        && (match lastPeriod parsedPeriods with
            | Some p => match period_end p with Some _ => true | None => false end
            | None => false
            end
            || match mpd_duration rootAttributes with Some _ => true | None => false end)) in
  {| isDynamic := isDynamic;
     isLive := isDynamic;
     isLastPeriodKnown := isLastPeriodKnown;
     timeBounds := timeBounds;
     lifetime := lifetime |}.

End CompleteParsing.

(** The Periods after every ["onLoad"] XLink has been replaced, in order, by
    the Periods of the resource loaded for it. *)
Fixpoint resolved (periods : list IPeriodIntermediateRepresentation)
         (loadedRessources : list ILoadedXlinkData)
  : list IPeriodIntermediateRepresentation :=
  match periods with
  | [] => []
  | period :: rest =>
    match xlinksFrom 0 [period], loadedRessources with
    | _ :: _, loaded :: others => (parsed loaded ++ resolved rest others)%list
    | _ :: _, [] => period :: resolved rest []
    | [], _ => period :: resolved rest loadedRessources
    end
  end.

(** Whether a Period is an XLink to load before the parsing. *)
Definition hasXlinkOnLoad (period : IPeriodIntermediateRepresentation) : bool :=
  match xlinksFrom 0 [period] with
  | [] => false
  | _ :: _ => true
  end.

(** [a <= b] for a possibly infinite [a] and a finite [b], as a
    proposition. *)
Definition num_le_Q (a : num) (b : Q) : Prop :=
  match a with
  | Finite q => q <= b
  | Infinity => False
  end.

Lemma resolved_cons period rest loadedRessources :
  resolved (period :: rest) loadedRessources
  = match xlinksFrom 0 [period], loadedRessources with
    | _ :: _, loaded :: others => (parsed loaded ++ resolved rest others)%list
    | _ :: _, [] => period :: resolved rest []
    | [], _ => period :: resolved rest loadedRessources
    end.
Proof. reflexivity. Qed.

Lemma xlinksFrom_cons i period rest :
  xlinksFrom i (period :: rest)
  = (map (fun x => {| index := i; ressource := ressource x |})
         (xlinksFrom 0 [period]) ++ xlinksFrom (S i) rest)%list.
Proof.
  simpl. destruct (xlinkHref period), (xlinkActuate period) as [a|];
    try reflexivity.
  destruct (String.eqb a "onLoad"); reflexivity.
Qed.

Lemma xlinksFrom_single i period :
  xlinksFrom i [period] = [] \/
  exists href, xlinksFrom i [period] = [{| index := i; ressource := href |}].
Proof.
  simpl. destruct (xlinkHref period) as [h|], (xlinkActuate period) as [a|];
    try (left; reflexivity).
  destruct (String.eqb a "onLoad"); [right; now exists h | left; reflexivity].
Qed.

Lemma splice_at {A : Type} (pre : list A) (x : A) (items post : list A) :
  splice (List.length pre) items (pre ++ x :: post) = (pre ++ items ++ post)%list.
Proof.
  unfold splice.
  rewrite firstn_app, Nat.sub_diag, firstn_all. simpl firstn.
  rewrite app_nil_r.
  replace (S (List.length pre)) with (List.length (pre ++ [x]))
    by (rewrite length_app; simpl; lia).
  replace (pre ++ x :: post)%list with ((pre ++ [x]) ++ post)%list
    by (rewrite <- app_assoc; reflexivity).
  rewrite skipn_app, Nat.sub_diag, skipn_all. reflexivity.
Qed.

(** The loop of [continueParsingMPD], started on the Periods that follow
    [pre]. *)
Lemma continue_loop periods :
  forall pre warnings loadedRessources,
    List.length loadedRessources
    = List.length (xlinksFrom (List.length pre) periods) ->
    fold_right continueTurn ((pre ++ periods)%list, warnings)
               (combine (xlinksFrom (List.length pre) periods) loadedRessources)
    = ((pre ++ resolved periods loadedRessources)%list,
       (warnings ++ List.concat (rev (map xlink_warnings loadedRessources)))%list).
Proof.
  induction periods as [|period rest IH]; intros pre warnings loaded Hlen.
  - destruct loaded; [|discriminate]. simpl. now rewrite !app_nil_r.
  - assert (Hpre : S (List.length pre) = List.length (pre ++ [period]))
      by (rewrite length_app; simpl; lia).
    assert (Eapp : (pre ++ period :: rest = (pre ++ [period]) ++ rest)%list)
      by (rewrite <- app_assoc; reflexivity).
    rewrite xlinksFrom_cons in *.
    destruct (xlinksFrom_single 0 period) as [E | (href & E)].
    + assert (Er : resolved (period :: rest) loaded = period :: resolved rest loaded).
      { rewrite resolved_cons, E. reflexivity. }
      rewrite Er. rewrite E in *. simpl app in Hlen |- *.
      rewrite Hpre in Hlen |- *. rewrite Eapp, (IH _ _ _ Hlen).
      rewrite <- app_assoc. reflexivity.
    + destruct loaded as [|r others]; [rewrite E in Hlen; discriminate|].
      assert (Er : resolved (period :: rest) (r :: others)
                   = (parsed r ++ resolved rest others)%list).
      { rewrite resolved_cons, E. reflexivity. }
      rewrite Er, E. rewrite E in Hlen. simpl in Hlen. apply Nat.succ_inj in Hlen.
      simpl map. simpl app. simpl combine. simpl fold_right.
      rewrite Hpre in Hlen |- *. rewrite Eapp, (IH _ _ _ Hlen).
      unfold continueTurn. simpl fst. simpl snd. simpl index.
      rewrite <- app_assoc. simpl app. rewrite splice_at.
      f_equal. simpl map. rewrite <- app_assoc.
      change (rev (xlink_warnings r :: map xlink_warnings others))
        with (rev (map xlink_warnings others) ++ [xlink_warnings r])%list.
      rewrite concat_app. simpl. now rewrite app_nil_r.
Qed.

(** X6: called with as many resources as there are ["onLoad"] XLinks,
    [continueParsingMPD] replaces the [k]-th such Period by the Periods of
    the [k]-th resource, leaves the other Periods in place and in order, and
    appends the warnings of the resources from the last to the first; called
    with any other number of resources, it throws. *)
Theorem continueParsingMPD_resolves
        (periods : list IPeriodIntermediateRepresentation)
        (warnings : list string) (loadedRessources : list ILoadedXlinkData) :
  continueParsingMPD periods warnings loadedRessources
  = if (List.length loadedRessources =? List.length (xlinksToLoad periods))%nat
    then Some (resolved periods loadedRessources,
               (warnings ++ List.concat (rev (map xlink_warnings loadedRessources)))%list)
    else None.
Proof.
  unfold continueParsingMPD.
  destruct (_ =? _)%nat eqn:E; [|reflexivity].
  apply Nat.eqb_eq in E. simpl negb. cbv iota. f_equal.
  apply (continue_loop periods [] warnings loadedRessources E).
Qed.

Lemma xlinksFrom_length i j periods :
  List.length (xlinksFrom i periods) = List.length (xlinksFrom j periods).
Proof.
  revert i j. induction periods as [|period rest IH]; intros i j; [reflexivity|].
  rewrite (xlinksFrom_cons i), (xlinksFrom_cons j), !length_app, !length_map.
  now rewrite (IH (S i) (S j)).
Qed.

Lemma xlinksFrom_none i periods :
  Forall (fun p => hasXlinkOnLoad p = false) periods -> xlinksFrom i periods = [].
Proof.
  revert i. induction periods as [|period rest IH]; intros i Hall; [reflexivity|].
  inversion Hall as [|? ? Hp Hrest]; subst.
  rewrite xlinksFrom_cons, (IH _ Hrest), app_nil_r.
  unfold hasXlinkOnLoad in Hp. destruct (xlinksFrom 0 [period]); [reflexivity|discriminate].
Qed.

Lemma xlinksFrom_app i l1 l2 :
  xlinksFrom i (l1 ++ l2)
  = (xlinksFrom i l1 ++ xlinksFrom (i + List.length l1) l2)%list.
Proof.
  revert i. induction l1 as [|period rest IH]; intro i.
  - simpl. now rewrite Nat.add_0_r.
  - change ((period :: rest) ++ l2)%list with (period :: (rest ++ l2))%list.
    rewrite (xlinksFrom_cons i period (rest ++ l2)), IH.
    rewrite (xlinksFrom_cons i period rest), <- app_assoc.
    simpl List.length. now rewrite Nat.add_succ_comm.
Qed.

Lemma resolved_no_xlink periods :
  forall i loadedRessources,
    List.length loadedRessources = List.length (xlinksFrom 0 periods) ->
    Forall (fun r => Forall (fun p => hasXlinkOnLoad p = false) (parsed r))
           loadedRessources ->
    xlinksFrom i (resolved periods loadedRessources) = [].
Proof.
  induction periods as [|period rest IH]; intros i loaded Hlen Hall; [reflexivity|].
  rewrite xlinksFrom_cons, length_app, length_map in Hlen.
  rewrite resolved_cons.
  destruct (xlinksFrom 0 [period]) as [|x xs] eqn:E.
  - simpl in Hlen. rewrite (xlinksFrom_length 1 0) in Hlen.
    rewrite xlinksFrom_cons, (IH _ _ Hlen Hall), app_nil_r.
    rewrite E. reflexivity.
  - destruct loaded as [|r others]; [discriminate|].
    inversion Hall as [|? ? Hr Hothers]; subst.
    assert (Hxs : xs = []).
    { destruct (xlinksFrom_single 0 period) as [E' | (h & E')];
        rewrite E' in E; congruence. }
    subst xs. simpl in Hlen. apply Nat.succ_inj in Hlen.
    rewrite (xlinksFrom_length 1 0) in Hlen.
    rewrite xlinksFrom_app, (xlinksFrom_none _ _ Hr), (IH _ _ Hlen Hothers).
    reflexivity.
Qed.

(** X7: when as many resources are given as there were XLinks to load and
    no loaded Period is itself an XLink to load, the Periods that
    [continueParsingMPD] hands to [parseMpdIr] hold no XLink to load: the
    loop that fills [xlinksToLoad] finds none, and the call goes on to the
    complete parsing. *)
Theorem xlinks_resolved_in_one_round
        (periods : list IPeriodIntermediateRepresentation)
        (warnings : list string) (loadedRessources : list ILoadedXlinkData) :
  List.length loadedRessources = List.length (xlinksToLoad periods) ->
  Forall (fun r => Forall (fun p => hasXlinkOnLoad p = false) (parsed r))
         loadedRessources ->
  exists st, continueParsingMPD periods warnings loadedRessources = Some st /\
             xlinkStep (fst st) = parseComplete.
Proof.
  intros Hlen Hall. unfold continueParsingMPD.
  rewrite Hlen, Nat.eqb_refl. simpl negb. cbv iota.
  assert (Hloop := continue_loop periods [] warnings loadedRessources Hlen).
  change (fold_right continueTurn (periods, warnings)
                     (combine (xlinksToLoad periods) loadedRessources)
          = (resolved periods loadedRessources,
             (warnings ++ List.concat (rev (map xlink_warnings loadedRessources)))%list))
    in Hloop.
  rewrite Hloop. eexists. split; [reflexivity|].
  unfold xlinkStep, xlinksToLoad. simpl fst.
  now rewrite (resolved_no_xlink periods 0 loadedRessources Hlen Hall).
Qed.

(** X8: the lifetime of a parsed MPD, when it has one, is a positive number
    of seconds: it is the [minimumUpdatePeriod] when that is positive, 3 s
    when it is 0, and the MPD has no lifetime when the attribute is absent or
    negative. *)
Theorem lifetime_is_positive
        (parsedPeriods : list IParsedPeriod) (contentStart contentEnd : option Q)
        (availabilityStartTime : option Q)
        (performance_now performance_now_again Date_now : Q)
        (rootAttributes : IMPDAttributes) (externalClockOffset : option Q) :
  match lifetime (parseCompleteIntermediateRepresentation
                    parsedPeriods contentStart contentEnd availabilityStartTime
                    performance_now performance_now_again Date_now
                    rootAttributes externalClockOffset)
  with
  | Some l =>
    0 < l /\
    exists mup, minimumUpdatePeriod rootAttributes = Some mup /\
                ((0 < mup /\ l = mup) \/
                 (mup == 0 /\
                  l = DASH_FALLBACK_LIFETIME_WHEN_MINIMUM_UPDATE_PERIOD_EQUAL_0))
  | None =>
    match minimumUpdatePeriod rootAttributes with
    | Some mup => mup < 0
    | None => True
    end
  end.
Proof.
  unfold parseCompleteIntermediateRepresentation. simpl lifetime.
  destruct (minimumUpdatePeriod rootAttributes) as [mup|]; [|exact I].
  destruct (Qle_bool 0 mup) eqn:E.
  - apply Qle_bool_iff in E.
    destruct (Qeq_bool mup 0) eqn:E0.
    + apply Qeq_bool_iff in E0. split; [reflexivity|].
      exists mup. split; [reflexivity|]. right. split; [exact E0 | reflexivity].
    + apply Qeq_bool_neq in E0.
      assert (Hpos : 0 < mup).
      { apply Qle_lt_or_eq in E. destruct E as [H|H]; [exact H|].
        exfalso. apply E0. now symmetry. }
      split; [exact Hpos|].
      exists mup. split; [reflexivity|]. left. split; [exact Hpos | reflexivity].
  - now apply Qle_bool_false in E.
Qed.

Lemma lower_le candidate maximumTime :
  (forall c, candidate = Some c -> num_le_Q (lower candidate maximumTime) c) /\
  (forall b, num_le_Q maximumTime b -> num_le_Q (lower candidate maximumTime) b).
Proof.
  unfold lower. destruct candidate as [c|]; [|split; [discriminate | auto]].
  destruct maximumTime as [m|]; simpl.
  - destruct (Qlt_bool c m) eqn:E; simpl.
    + apply Qlt_bool_iff in E. split.
      * intros c' [= <-]. apply Qle_refl.
      * intros b Hb. lra.
    + apply Qlt_bool_false in E. split.
      * intros c' [= <-]. exact E.
      * auto.
  - split; [intros c' [= <-]; apply Qle_refl | intros b []].
Qed.

Lemma lower_cases candidate maximumTime :
  lower candidate maximumTime = maximumTime \/
  exists c, candidate = Some c /\ lower candidate maximumTime = Finite c.
Proof.
  unfold lower. destruct candidate as [c|]; [|now left].
  destruct (num_gt maximumTime c); [right; now exists c | now left].
Qed.

(** X9: for a static MPD the maximum position is the least of the
    [mediaPresentationDuration], the end of the last Period and the maximum
    position of the content, among those that are defined, and [Infinity]
    when none is; it does not grow with time, no time-shift depth is set and
    the last Period is known. *)
Theorem static_time_bounds
        (parsedPeriods : list IParsedPeriod) (contentStart contentEnd : option Q)
        (availabilityStartTime : option Q)
        (performance_now performance_now_again Date_now : Q)
        (rootAttributes : IMPDAttributes) (externalClockOffset : option Q) :
  let manifest :=
    parseCompleteIntermediateRepresentation
      parsedPeriods contentStart contentEnd availabilityStartTime
      performance_now performance_now_again Date_now
      rootAttributes externalClockOffset in
  let maximumTime := value (maximumTimeData (timeBounds manifest)) in
  isDynamic manifest = false ->
  (forall d, mpd_duration rootAttributes = Some d -> num_le_Q maximumTime d) /\
  (forall e, lastPeriodEnd parsedPeriods = Some e -> num_le_Q maximumTime e) /\
  (forall c, contentEnd = Some c -> num_le_Q maximumTime c) /\
  (match maximumTime with
   | Finite m => mpd_duration rootAttributes = Some m \/
                 lastPeriodEnd parsedPeriods = Some m \/
                 contentEnd = Some m
   | Infinity => mpd_duration rootAttributes = None /\
                 lastPeriodEnd parsedPeriods = None /\
                 contentEnd = None
   end) /\
  isLinear (maximumTimeData (timeBounds manifest)) = false /\
  timeshiftDepth (timeBounds manifest) = None /\
  isLastPeriodKnown manifest = true.
Proof.
  intros manifest maximumTime Hstatic.
  unfold maximumTime, manifest in *. clear manifest maximumTime.
  unfold parseCompleteIntermediateRepresentation in *.
  simpl isDynamic in Hstatic. simpl isLastPeriodKnown. simpl timeBounds.
  rewrite Hstatic. simpl negb. cbv iota. simpl orb.
  simpl maximumTimeData. simpl value. simpl isLinear. simpl timeshiftDepth.
  set (m0 := match mpd_duration rootAttributes with
             | Some d => Finite d | None => Infinity end).
  set (m1 := lower (lastPeriodEnd parsedPeriods) m0).
  destruct (lower_le (lastPeriodEnd parsedPeriods) m0) as [H1a H1b].
  destruct (lower_le contentEnd m1) as [H2a H2b].
  repeat split.
  - intros d Hd. apply H2b, H1b. unfold m0. rewrite Hd. apply Qle_refl.
  - intros e He. apply H2b. now apply H1a.
  - exact H2a.
  - destruct (lower_cases contentEnd m1) as [E | (c & Ec & E)]; rewrite E.
    + unfold m1.
      destruct (lower_cases (lastPeriodEnd parsedPeriods) m0)
        as [E' | (c & Ec & E')]; rewrite E'.
      * unfold m0. destruct (mpd_duration rootAttributes) as [d|].
        -- now left.
        -- repeat split.
           ++ unfold m1, m0 in E. revert E'. unfold m0, lower.
              destruct (lastPeriodEnd parsedPeriods); [discriminate | reflexivity].
           ++ revert E. unfold m1. rewrite E'. unfold m0, lower.
              destruct contentEnd; [discriminate | reflexivity].
      * right. now left.
    + right. now right.
Qed.

(** X10: for a dynamic MPD that declares a time-shift buffer depth, the depth
    kept is at least the declared one, and the window that ends at the
    maximum position and is as long as the depth kept starts at or before the
    minimum position of the content when that one is known; the maximum
    position grows with time. *)
Theorem dynamic_timeshift_depth
        (parsedPeriods : list IParsedPeriod) (contentStart contentEnd : option Q)
        (availabilityStartTime : option Q)
        (performance_now performance_now_again Date_now : Q)
        (rootAttributes : IMPDAttributes) (externalClockOffset : option Q)
        (declared : Q) :
  let manifest :=
    parseCompleteIntermediateRepresentation
      parsedPeriods contentStart contentEnd availabilityStartTime
      performance_now performance_now_again Date_now
      rootAttributes externalClockOffset in
  isDynamic manifest = true ->
  timeShiftBufferDepth rootAttributes = Some declared ->
  isLinear (maximumTimeData (timeBounds manifest)) = true /\
  absoluteMinimumTime (timeBounds manifest) = contentStart /\
  exists depth maximumTime,
    timeshiftDepth (timeBounds manifest) = Some depth /\
    value (maximumTimeData (timeBounds manifest)) = Finite maximumTime /\
    declared <= depth /\
    match contentStart with
    | Some minimumTime =>
      maximumTime - depth <= minimumTime /\
      (depth = declared \/ depth = maximumTime - minimumTime)
    | None => depth = declared
    end.
Proof.
  intros manifest Hdyn Hdepth. unfold manifest in *. clear manifest.
  unfold parseCompleteIntermediateRepresentation in *.
  simpl isDynamic in Hdyn. simpl timeBounds. rewrite Hdyn, Hdepth.
  simpl negb. cbv iota.
  set (maximumTime := match contentEnd with Some e => e | None => _ end).
  destruct contentStart as [minimumTime|].
  - destruct (Qlt_bool declared (maximumTime - minimumTime)) eqn:E; simpl.
    + apply Qlt_bool_iff in E. repeat split.
      exists (maximumTime - minimumTime), maximumTime.
      repeat split; [lra | lra | now right].
    + apply Qlt_bool_false in E. repeat split.
      exists declared, maximumTime.
      repeat split; [lra | lra | now left].
  - simpl. repeat split. exists declared, maximumTime.
    repeat split. apply Qle_refl.
Qed.

(** An MPD of three Periods, the second one an XLink to load, and the
    resource loaded for it, which holds two plain Periods. *)
Definition plainPeriod (id : string) : IPeriodIntermediateRepresentation :=
  {| periodId := id; xlinkHref := None; xlinkActuate := None |}.

Definition linkedPeriods : list IPeriodIntermediateRepresentation :=
  [ plainPeriod "p1";
    {| periodId := "ad"; xlinkHref := Some "https://ads.example/1"%string;
       xlinkActuate := Some "onLoad"%string |};
    plainPeriod "p2" ].

Definition loadedAd : ILoadedXlinkData :=
  {| parsed := [plainPeriod "ad1"; plainPeriod "ad2"];
     xlink_warnings := ["unknown attribute"%string] |}.

Lemma xlinks_resolved_in_one_round_witness :
  List.length [loadedAd] = List.length (xlinksToLoad linkedPeriods) /\
  continueParsingMPD linkedPeriods [] [loadedAd]
  = Some ([plainPeriod "p1"; plainPeriod "ad1"; plainPeriod "ad2";
           plainPeriod "p2"], ["unknown attribute"%string]) /\
  exists st, continueParsingMPD linkedPeriods [] [loadedAd] = Some st /\
             xlinkStep (fst st) = parseComplete.
Proof.
  split; [reflexivity|]. split; [reflexivity|].
  apply (xlinks_resolved_in_one_round linkedPeriods [] [loadedAd] eq_refl).
  repeat constructor.
Defined.

(** A static MPD of 60 s whose last Period ends at 58 s. *)
Definition vodAttributes : IMPDAttributes :=
  {| mpd_type := Some "static"%string;
     minimumUpdatePeriod := None;
     timeShiftBufferDepth := None;
     mpd_duration := Some 60 |}.

Definition vodPeriods : list IParsedPeriod :=
  [ {| period_start := 0; period_end := Some 30; period_duration := None |};
    {| period_start := 30; period_end := None; period_duration := Some 28 |} ].

(** A dynamic MPD with a declared depth of 20 s, whose content goes from 70 s
    to 100 s. *)
Definition liveAttributes : IMPDAttributes :=
  {| mpd_type := Some "dynamic"%string;
     minimumUpdatePeriod := Some 0;
     timeShiftBufferDepth := Some 20;
     mpd_duration := None |}.

(** The static example: the maximum position is the end of the last Period,
    58 s, below the declared duration. *)
Lemma static_time_bounds_witness :
  isDynamic (parseCompleteIntermediateRepresentation
               vodPeriods None None None 0 0 0 vodAttributes None) = false /\
  value (maximumTimeData (timeBounds
           (parseCompleteIntermediateRepresentation
              vodPeriods None None None 0 0 0 vodAttributes None)))
  = Finite (30 + 28) /\
  forall d, mpd_duration vodAttributes = Some d ->
            num_le_Q (Finite (30 + 28)) d.
Proof.
  split; [reflexivity|]. split; [reflexivity|].
  exact (proj1 (static_time_bounds vodPeriods None None None 0 0 0
                  vodAttributes None eq_refl)).
Defined.

(** The dynamic example: the depth kept is 30 s, so that the window starts
    at the minimum position of the content. *)
Lemma dynamic_timeshift_depth_witness :
  isDynamic (parseCompleteIntermediateRepresentation
               [] (Some 70) (Some 100) None 0 0 0 liveAttributes None) = true /\
  timeShiftBufferDepth liveAttributes = Some 20 /\
  exists depth maximumTime,
    timeshiftDepth (timeBounds
      (parseCompleteIntermediateRepresentation
         [] (Some 70) (Some 100) None 0 0 0 liveAttributes None)) = Some depth /\
    value (maximumTimeData (timeBounds
      (parseCompleteIntermediateRepresentation
         [] (Some 70) (Some 100) None 0 0 0 liveAttributes None)))
    = Finite maximumTime /\
    20 <= depth /\ maximumTime - depth <= 70.
Proof.
  split; [reflexivity|]. split; [reflexivity|].
  destruct (dynamic_timeshift_depth [] (Some 70) (Some 100) None 0 0 0
              liveAttributes None 20 eq_refl eq_refl)
    as (_ & _ & depth & maximumTime & Hd & Hm & Hle & Hwin & _).
  exists depth, maximumTime. repeat split; assumption.
Defined.

End ParseMpd.

(* ================================================================== *)
(** * Segment loader and fetcher: what reaches the consumer
    [src/core/fetchers/segment/create_segment_loader.ts]: [loadSegment] of
    [createSegmentLoader] and the [filter] and [mergeMap] that end
    [fetchSegment] *)

Module SegmentPipeline.
Import SegmentFetcher.

(** What [loadData] emits: the events of the transport's loader, the
    warnings made from the retries and the response found in the cache. *)
Inductive ILoadDataEvent : Type :=
| t_request_begin (id : requestId)
| t_progress (id : requestId) (duration size : Q) (totalSize : option Q)
| t_request_end (id : requestId) (size duration : option Q)
| t_warning
| t_cache
| t_data
| t_data_chunk
| t_data_chunk_complete.

(** The [mergeMap] callback of [loadSegment]. *)
Definition loadSegmentEvent (arg : ILoadDataEvent) : ISegmentLoaderEvent :=
  match arg with
  | t_request_begin id => request_begin id
  | t_progress id duration size totalSize => progress id duration size totalSize
  | t_request_end id size duration => request_end id size duration
  | t_warning => warning
  | t_cache | t_data => data
  | t_data_chunk => chunk
  | t_data_chunk_complete => chunk_complete
  end.

(** [loadSegment], on the events [loadData] emits. *)
Definition loadSegment (loaded : list ILoadDataEvent) : list ISegmentLoaderEvent :=
  map loadSegmentEvent loaded.

(** [ISegmentFetcherEvent]; a chunk is known by the [isChunked] its [parse]
    function gives to the parser. *)
Inductive ISegmentFetcherEvent : Type :=
| f_warning
| f_chunk (isChunked : bool)
| f_chunk_complete.

(** The [filter] of [fetchSegment]. *)
Definition keptByFilter (e : ISegmentLoaderEvent) : bool :=
  match e with
  | warning | chunk | chunk_complete | data => true
  | progress _ _ _ _ | request_begin _ | request_end _ _ _ => false
  end.

(** The [mergeMap] callback that ends [fetchSegment]. *)
Definition toFetcherEvents (evt : ISegmentLoaderEvent) : list ISegmentFetcherEvent :=
  match evt with
  | warning => [f_warning]
  | chunk_complete => [f_chunk_complete]
  | _ =>
    let isChunked := match evt with chunk => true | _ => false end in
    let data := f_chunk isChunked in
    if isChunked then [data] else [data; f_chunk_complete]
  end.

(** What the Observable returned by [fetchSegment] emits for the events
    emitted by the segment loader. *)
Definition fetcherOutput (events : list ISegmentLoaderEvent)
  : list ISegmentFetcherEvent :=
  flat_map toFetcherEvents (filter keptByFilter events).

(** The segment's payload in what [loadData] emits. *)
Definition isPayload (arg : ILoadDataEvent) : bool :=
  match arg with
  | t_cache | t_data | t_data_chunk | t_data_chunk_complete => true
  | _ => false
  end.

(** How far the delivery of a segment is. *)
Inductive deliveryState : Type := Nothing | Chunks | Delivered | Broken.

(** A segment is delivered either whole (one [cache] or [data] event) or
    as chunks followed by one [data-chunk-complete]. *)
Definition deliveryStep (st : deliveryState) (arg : ILoadDataEvent) : deliveryState :=
  match arg, st with
  | (t_cache | t_data), Nothing => Delivered
  | t_data_chunk, (Nothing | Chunks) => Chunks
  | t_data_chunk_complete, (Nothing | Chunks) => Delivered
  | (t_cache | t_data | t_data_chunk | t_data_chunk_complete), _ => Broken
  | _, _ => st
  end.

Definition delivery (loaded : list ILoadDataEvent) : deliveryState :=
  fold_left deliveryStep loaded Nothing.

Definition isWarning (e : ISegmentFetcherEvent) : bool :=
  match e with f_warning => true | _ => false end.

(** ** Properties *)

Lemma fetcherOutput_cons e events :
  fetcherOutput (e :: events)
  = ((if keptByFilter e then toFetcherEvents e else []) ++ fetcherOutput events)%list.
Proof.
  unfold fetcherOutput. simpl. destruct (keptByFilter e); reflexivity.
Qed.

Lemma fetcherOutput_app events events' :
  fetcherOutput (events ++ events')
  = (fetcherOutput events ++ fetcherOutput events')%list.
Proof.
  unfold fetcherOutput. now rewrite filter_app, flat_map_app.
Qed.

(** X11: whatever the loader emits, a whole segment (a [data] or [cache]
    response) reaches the consumer, at its place among the other events, as
    one chunk that is not chunked immediately followed by [chunk-complete];
    every chunk that is not chunked is immediately followed by
    [chunk-complete]; there are as many [chunk-complete] as whole segments
    and [data-chunk-complete] events, as many chunks that are not chunked as
    whole segments, and as many chunked chunks as [data-chunk] events. *)
Theorem whole_segment_is_complete (loaded : list ILoadDataEvent) :
  let out := fetcherOutput (loadSegment loaded) in
  (forall earlier arg later,
      loaded = (earlier ++ arg :: later)%list ->
      arg = t_cache \/ arg = t_data ->
      out = (fetcherOutput (loadSegment earlier)
               ++ f_chunk false :: f_chunk_complete
               :: fetcherOutput (loadSegment later))%list)
  /\ (forall before after,
      out = (before ++ f_chunk false :: after)%list ->
      exists after', after = f_chunk_complete :: after')
  /\ List.length (filter (fun e => match e with f_chunk_complete => true
                                             | _ => false end) out)
     = List.length (filter (fun a => match a with
                                     | t_cache | t_data | t_data_chunk_complete => true
                                     | _ => false end) loaded)
  /\ List.length (filter (fun e => match e with f_chunk false => true
                                             | _ => false end) out)
     = List.length (filter (fun a => match a with
                                     | t_cache | t_data => true
                                     | _ => false end) loaded)
  /\ List.length (filter (fun e => match e with f_chunk true => true
                                             | _ => false end) out)
     = List.length (filter (fun a => match a with
                                     | t_data_chunk => true
                                     | _ => false end) loaded).
Proof.
  cbv zeta. split; [|split; [|split; [|split]]].
  - intros earlier arg later -> Harg. unfold loadSegment.
    rewrite map_app, fetcherOutput_app. simpl map.
    rewrite fetcherOutput_cons.
    destruct Harg as [-> | ->]; reflexivity.
  - induction loaded as [|a rest IH]; intros before after Hout.
    + destruct before; discriminate Hout.
    + unfold loadSegment in *. simpl map in Hout.
      rewrite fetcherOutput_cons in Hout.
      destruct a; simpl in Hout;
        try (now apply (IH before after));
        try (destruct before as [|b before]; [discriminate Hout|];
             injection Hout as _ Hout; now apply (IH before after)).
      * destruct before as [|b before].
        -- injection Hout as <-. eexists. reflexivity.
        -- injection Hout as _ Hout.
           destruct before as [|b' before]; [discriminate Hout|].
           injection Hout as _ Hout. now apply (IH before after).
      * destruct before as [|b before].
        -- injection Hout as <-. eexists. reflexivity.
        -- injection Hout as _ Hout.
           destruct before as [|b' before]; [discriminate Hout|].
           injection Hout as _ Hout. now apply (IH before after).
  - induction loaded as [|a rest IH]; [reflexivity|].
    unfold loadSegment in *. simpl map. rewrite fetcherOutput_cons.
    rewrite filter_app, length_app, IH.
    destruct a; reflexivity.
  - induction loaded as [|a rest IH]; [reflexivity|].
    unfold loadSegment in *. simpl map. rewrite fetcherOutput_cons.
    rewrite filter_app, length_app, IH.
    destruct a; reflexivity.
  - induction loaded as [|a rest IH]; [reflexivity|].
    unfold loadSegment in *. simpl map. rewrite fetcherOutput_cons.
    rewrite filter_app, length_app, IH.
    destruct a; reflexivity.
Qed.

(** What the consumer has received, warnings left out, at each state of the
    delivery. *)
Definition receivedAt (st : deliveryState) (received : list ISegmentFetcherEvent)
  : Prop :=
  match st with
  | Nothing => received = []
  | Chunks => exists n, received = repeat (f_chunk true) (S n)
  | Delivered =>
    received = [f_chunk false; f_chunk_complete] \/
    exists n, received = (repeat (f_chunk true) n ++ [f_chunk_complete])%list
  | Broken => True
  end.

Lemma repeat_snoc {A : Type} (x : A) n : (repeat x n ++ [x])%list = repeat x (S n).
Proof. induction n as [|n IH]; [reflexivity|]. simpl. now rewrite IH. Qed.

Lemma delivery_received (loaded : list ILoadDataEvent) :
  forall st received,
    receivedAt st received ->
    receivedAt (fold_left deliveryStep loaded st)
               (received ++ filter (fun e => negb (isWarning e))
                                   (fetcherOutput (loadSegment loaded)))%list.
Proof.
  induction loaded as [|a rest IH]; intros st received H.
  - simpl. now rewrite app_nil_r.
  - unfold loadSegment in *. simpl map. rewrite fetcherOutput_cons.
    rewrite filter_app, app_assoc. simpl fold_left. apply IH.
    destruct a; simpl; try (rewrite app_nil_r; exact H);
      destruct st; simpl in *; try exact I;
      try (subst received; simpl;
           first [ left; reflexivity
                 | right; exists 0%nat; reflexivity
                 | exists 0%nat; reflexivity ]);
      destruct H as [n ->];
      first [ exists (S n); simpl; rewrite repeat_snoc; reflexivity
            | right; exists (S n); reflexivity ].
Qed.

(** X12: when the segment is delivered either whole (one [cache] or [data]
    event) or as chunks followed by one [data-chunk-complete], and in no
    other way, what the consumer receives is, warnings left out, either one
    chunk that is not chunked followed by [chunk-complete], or chunked chunks
    followed by exactly one [chunk-complete], with nothing after it. *)
Theorem delivered_once (loaded : list ILoadDataEvent) :
  delivery loaded = Delivered ->
  let received := filter (fun e => negb (isWarning e))
                         (fetcherOutput (loadSegment loaded)) in
  received = [f_chunk false; f_chunk_complete] \/
  exists n, received = (repeat (f_chunk true) n ++ [f_chunk_complete])%list.
Proof.
  intros Hd received.
  assert (H := delivery_received loaded Nothing [] eq_refl).
  fold (delivery loaded) in H. rewrite Hd in H. exact H.
Qed.

(** A retried request that ends with the whole segment. *)
Definition retriedLoad : list ILoadDataEvent :=
  [ t_request_begin (Some "0"%string); t_warning;
    t_request_begin (Some "1"%string);
    t_progress (Some "1"%string) 10 100 (Some 500);
    t_request_end (Some "1"%string) (Some 500) (Some 40);
    t_data ].

Lemma delivered_once_witness :
  delivery retriedLoad = Delivered /\
  (filter (fun e => negb (isWarning e)) (fetcherOutput (loadSegment retriedLoad))
   = [f_chunk false; f_chunk_complete] \/
   exists n, filter (fun e => negb (isWarning e))
                    (fetcherOutput (loadSegment retriedLoad))
             = (repeat (f_chunk true) n ++ [f_chunk_complete])%list).
Proof.
  split; [reflexivity|]. exact (delivered_once retriedLoad eq_refl).
Defined.

End SegmentPipeline.

(* ================================================================== *)
(** * Playback observer: rebuffering detection and internal seeks
    [src/core/api/playback_observer.ts] *)

Module Rebuffering.
Import PlaybackObserver.

(** A configuration value with a variant for low-latency contents. *)
Record byLatency := {
  DEFAULT : Q;
  LOW_LATENCY : Q
}.

(** Modelled from the spec: the configuration constants [REBUFFERING_GAP],
    [RESUME_GAP_AFTER_SEEKING], [RESUME_GAP_AFTER_NOT_ENOUGH_DATA] and
    [RESUME_GAP_AFTER_BUFFERING] of [config], which is not part of the
    sources at hand; section 6 of the specification gives 0.5 s and 0.2 s
    for the first, 1.5 s and 0.5 s for each of the others. *)
Definition REBUFFERING_GAP : byLatency :=
  {| DEFAULT := 1 # 2; LOW_LATENCY := 2 # 10 |}.
Definition RESUME_GAP_AFTER_SEEKING : byLatency :=
  {| DEFAULT := 3 # 2; LOW_LATENCY := 1 # 2 |}.
Definition RESUME_GAP_AFTER_NOT_ENOUGH_DATA : byLatency :=
  {| DEFAULT := 3 # 2; LOW_LATENCY := 1 # 2 |}.
Definition RESUME_GAP_AFTER_BUFFERING : byLatency :=
  {| DEFAULT := 3 # 2; LOW_LATENCY := 1 # 2 |}.

(** [config[suffix]]. *)
Definition bySuffix (value : byLatency) (lowLatencyMode : bool) : Q :=
  if lowLatencyMode then LOW_LATENCY value else DEFAULT value.

Inductive rebufferingReason : Type :=
| reason_seeking
| reason_not_ready
| reason_internal_seek
| reason_buffering.

Definition reason_eqb (a b : rebufferingReason) : bool :=
  match a, b with
  | reason_seeking, reason_seeking
  | reason_not_ready, reason_not_ready
  | reason_internal_seek, reason_internal_seek
  | reason_buffering, reason_buffering => true
  | _, _ => false
  end.

(** [IRebufferingStatus]; the awaited position may be [Infinity]. *)
Record IRebufferingStatus := {
  reason : rebufferingReason;
  rb_timestamp : Q;
  rb_position : option num
}.

(** A buffered range. *)
Record range := {
  range_start : Q;
  range_end : Q
}.

(** [IMediaInfos] with the buffered range being played ([currentRange]). *)
Record IRangedMediaInfos := {
  media : IMediaInfos;
  currentRange : option range
}.

(** [IPlaybackObservation] with its rebuffering status. *)
Record IRebufferingObservation := {
  observation : IPlaybackObservation;
  observedRange : option range;
  rebuffering : option IRebufferingStatus
}.

Record IPlaybackObserverOptions := {
  withMediaSource : bool;
  lowLatencyMode : bool
}.

(** [getRebufferingEndGap], for a status that is not [null]. *)
Definition getRebufferingEndGap (rebufferingStatus : IRebufferingStatus)
           (lowLatencyMode : bool) : Q :=
  match reason rebufferingStatus with
  | reason_seeking | reason_internal_seek =>
    bySuffix RESUME_GAP_AFTER_SEEKING lowLatencyMode
  | reason_not_ready => bySuffix RESUME_GAP_AFTER_NOT_ENOUGH_DATA lowLatencyMode
  | reason_buffering => bySuffix RESUME_GAP_AFTER_BUFFERING lowLatencyMode
  end.

(** [hasLoadedUntilTheEnd]. *)
Definition hasLoadedUntilTheEnd (currentRange : option range) (duration : Q)
           (lowLatencyMode : bool) : bool :=
  match currentRange with
  | Some r => Qle_bool (duration - range_end r) (bySuffix REBUFFERING_GAP lowLatencyMode)
  | None => false
  end.

(** What [getMediaInfos] reads on the media element; [el_currentRange] is the
    result of [getRange (buffered, currentTime)]. *)
Record mediaElement := {
  currentTime : Q;
  el_duration : Q;
  el_ended : bool;
  el_paused : bool;
  el_playbackRate : Q;
  el_readyState : Z;
  el_seeking : bool;
  el_currentRange : option range
}.

(** [getMediaInfos]. *)
Definition getMediaInfos (el : mediaElement) (evt : IPlaybackObserverEventType)
  : IRangedMediaInfos :=
  {| media := {| bufferGap := match el_currentRange el with
                              | Some r => Finite (range_end r - currentTime el)
                              | None => Infinity
                              end;
                 position := currentTime el;
                 duration := el_duration el;
                 ended := el_ended el;
                 paused := el_paused el;
                 playbackRate := el_playbackRate el;
                 readyState := el_readyState el;
                 seeking_ := el_seeking el;
                 event := evt |};
     currentRange := el_currentRange el |}.

(** [currentTime + bufferGap]. *)
Definition addGap (currentTime : Q) (bufferGap : num) : num :=
  match bufferGap with
  | Finite g => Finite (currentTime + g)
  | Infinity => Infinity
  end.

(** The three variables set by the first part of [getRebufferingStatus]. *)
Record decision := {
  shouldRebuffer : bool;
  shouldStopRebuffer : bool;
  rebufferEndPosition : option num
}.

Definition undecided : decision :=
  {| shouldRebuffer := false; shouldStopRebuffer := false;
     rebufferEndPosition := None |}.

(** [getRebufferingStatus]; [now] is the value of [performance.now()]. *)
Definition getRebufferingStatus (now : Q) (prevObservation : IRebufferingObservation)
           (currentInfo : IRangedMediaInfos) (options : IPlaybackObserverOptions)
  : option IRebufferingStatus :=
  let currentEvt := event (media currentInfo) in
  let currentTime := position (media currentInfo) in
  let bufferGap := bufferGap (media currentInfo) in
  let readyState := readyState (media currentInfo) in
  let ended := ended (media currentInfo) in
  let prevRebuffering := rebuffering prevObservation in
  let prevEvt := event (infos (observation prevObservation)) in
  let prevTime := position (infos (observation prevObservation)) in
  let lowLatencyMode := lowLatencyMode options in
  let fullyLoaded :=
    hasLoadedUntilTheEnd (currentRange currentInfo)
                         (duration (media currentInfo)) lowLatencyMode in
  let canSwitchToRebuffering :=
    (1 <=? readyState)%Z
    && negb (event_eqb currentEvt loadedmetadata)
    && match prevRebuffering with None => true | Some _ => false end
    && negb (fullyLoaded || ended) in
  let rebufferGap :=
    if lowLatencyMode then LOW_LATENCY REBUFFERING_GAP
    else DEFAULT REBUFFERING_GAP in
  let decided :=
    if withMediaSource options then
      if canSwitchToRebuffering then
        if num_le bufferGap rebufferGap then
          {| shouldRebuffer := true; shouldStopRebuffer := false;
             rebufferEndPosition := Some (addGap currentTime bufferGap) |}
        else if negb (isFinite bufferGap) then
          {| shouldRebuffer := true; shouldStopRebuffer := false;
             rebufferEndPosition := Some (Finite currentTime) |}
        else undecided
      else
        match prevRebuffering with
        | Some prev =>
          let resumeGap := getRebufferingEndGap prev lowLatencyMode in
          if (1 <? readyState)%Z
             && (fullyLoaded || ended
                 || (isFinite bufferGap && num_gt bufferGap resumeGap))
          then {| shouldRebuffer := false; shouldStopRebuffer := true;
                  rebufferEndPosition := None |}
          else if negb (isFinite bufferGap) || num_le bufferGap resumeGap
          then {| shouldRebuffer := false; shouldStopRebuffer := false;
                  rebufferEndPosition :=
                    Some (if negb (isFinite bufferGap) then Finite currentTime
                          else addGap currentTime bufferGap) |}
          else undecided
        | None => undecided
        end
    else
      if canSwitchToRebuffering
         && (negb (paused (media currentInfo))
             && event_eqb currentEvt timeupdate
             && event_eqb prevEvt timeupdate
             && Qeq_bool currentTime prevTime
             || event_eqb currentEvt seeking && negb (isFinite bufferGap))
      then {| shouldRebuffer := true; shouldStopRebuffer := false;
              rebufferEndPosition := None |}
      else
        match prevRebuffering with
        | Some prev =>
          if negb (event_eqb currentEvt seeking)
             && negb (Qeq_bool currentTime prevTime)
             || event_eqb currentEvt canplay
             || isFinite bufferGap
                && (num_gt bufferGap (getRebufferingEndGap prev lowLatencyMode)
                    || fullyLoaded || ended)
          then {| shouldRebuffer := false; shouldStopRebuffer := true;
                  rebufferEndPosition := None |}
          else undecided
        | None => undecided
        end in
  if shouldStopRebuffer decided then None
  else if shouldRebuffer decided
          || match prevRebuffering with Some _ => true | None => false end
  then
    let prevReasonIs (r : rebufferingReason) :=
      match prevRebuffering with
      | Some prev => reason_eqb (reason prev) r
      | None => false
      end in
    let reason :=
      if event_eqb currentEvt seeking || prevReasonIs reason_seeking
      then reason_seeking
      else if seeking_ (media currentInfo)
              && (event_eqb currentEvt internal_seeking
                  || prevReasonIs reason_internal_seek)
      then reason_internal_seek
      else if seeking_ (media currentInfo) then reason_seeking
      else if (readyState =? 1)%Z then reason_not_ready
      else reason_buffering in
    match prevRebuffering with
    | Some prev =>
      if reason_eqb (Rebuffering.reason prev) reason
      then Some {| reason := Rebuffering.reason prev;
                   rb_timestamp := rb_timestamp prev;
                   rb_position := rebufferEndPosition decided |}
      else Some {| reason := reason;
                   rb_timestamp := now;
                   rb_position := rebufferEndPosition decided |}
    | None => Some {| reason := reason;
                      rb_timestamp := now;
                      rb_position := rebufferEndPosition decided |}
    end
  else None.

(** The state of a [PlaybackObserver]. *)
Record observer := {
  _internalSeekingEventsIncomingCounter : Z;
  _lastObservation : IRebufferingObservation;
  _options : IPlaybackObserverOptions
}.

(** The constructor: the first observation is made with the ["init"]
    event. *)
Definition newObserver (el : mediaElement) (options : IPlaybackObserverOptions)
  : observer :=
  {| _internalSeekingEventsIncomingCounter := 0;
     _lastObservation :=
       {| observation := {| infos := media (getMediaInfos el init);
                            freezing := None |};
          observedRange := currentRange (getMediaInfos el init);
          rebuffering := None |};
     _options := options |}.

(** [setCurrentTime], for the observer's own state (the new position is
    read on the media element by the next observation). *)
Definition setCurrentTime (this : observer) : observer :=
  {| _internalSeekingEventsIncomingCounter :=
       _internalSeekingEventsIncomingCounter this + 1;
     _lastObservation := _lastObservation this;
     _options := _options this |}.

(** The local [getCurrentObservation] of [_createObservationObservable],
    followed by the update of [_lastObservation]: [evt] is the event
    received, [el] the state of the media element when it is received. *)
Definition observe (this : observer) (now : Q) (el : mediaElement)
           (evt : IPlaybackObserverEventType) : observer :=
  let relabelled :=
    event_eqb evt seeking && (0 <? _internalSeekingEventsIncomingCounter this)%Z in
  let tmpEvt := if relabelled then internal_seeking else evt in
  let counter :=
    if relabelled then (_internalSeekingEventsIncomingCounter this - 1)%Z
    else _internalSeekingEventsIncomingCounter this in
  let mediaTimings := getMediaInfos el tmpEvt in
  let rebufferingStatus :=
    getRebufferingStatus now (_lastObservation this) mediaTimings (_options this) in
  let freezingStatus :=
    getFreezingStatus now (observation (_lastObservation this))
                      (media mediaTimings) in
  {| _internalSeekingEventsIncomingCounter := counter;
     _lastObservation :=
       {| observation := {| infos := media mediaTimings;
                            freezing := freezingStatus |};
          observedRange := currentRange mediaTimings;
          rebuffering := rebufferingStatus |};
     _options := _options this |}.

(** What happens to an observer: the player seeks, or the media element
    fires an event (or the sampling interval elapses). *)
Inductive action : Type :=
| internalSeek
| mediaEvent (now : Q) (el : mediaElement) (evt : IPlaybackObserverEventType).

Definition act (this : observer) (a : action) : observer :=
  match a with
  | internalSeek => setCurrentTime this
  | mediaEvent now el evt => observe this now el evt
  end.

(** The observer after a sequence of actions, and the observations it
    emitted. *)
Fixpoint run (this : observer) (actions : list action)
  : observer * list IRebufferingObservation :=
  match actions with
  | [] => (this, [])
  | a :: rest =>
    let this' := act this a in
    let '(final, emitted) := run this' rest in
    (final, match a with
            | internalSeek => emitted
            | mediaEvent _ _ _ => _lastObservation this' :: emitted
            end)
  end.

(** The events that [_createObservationObservable] merges: the sampling
    interval, as ["timeupdate"], and the scanned events of the media
    element. *)
Definition isObserved (a : action) : bool :=
  match a with
  | internalSeek => true
  | mediaEvent _ _ evt =>
    event_eqb evt timeupdate
    || existsb (event_eqb evt) SCANNED_MEDIA_ELEMENTS_EVENTS
  end.

Definition isInternalSeek (a : action) : bool :=
  match a with internalSeek => true | _ => false end.

Definition isSeekingEvent (a : action) : bool :=
  match a with mediaEvent _ _ seeking => true | _ => false end.

Definition labelledInternal (o : IRebufferingObservation) : bool :=
  event_eqb (event (infos (observation o))) internal_seeking.

Definition labelledSeeking (o : IRebufferingObservation) : bool :=
  event_eqb (event (infos (observation o))) seeking.

(** ** Properties *)

Section Status.

Variables (now : Q) (prev : IRebufferingObservation) (cur : IRangedMediaInfos)
          (options : IPlaybackObserverOptions).

Let fullyLoaded : bool :=
  hasLoadedUntilTheEnd (currentRange cur) (duration (media cur))
                       (lowLatencyMode options).

(** X13: a player that is not rebuffering does not start to, with or
    without a MediaSource, while the media element has no metadata
    ([readyState] 0), on the ["loadedmetadata"] event, once playback has
    ended, or when the buffered range being played reaches the end of the
    content. *)
Theorem rebuffering_does_not_start :
  rebuffering prev = None ->
  (readyState (media cur) < 1)%Z \/ event (media cur) = loadedmetadata \/
  ended (media cur) = true \/ fullyLoaded = true ->
  getRebufferingStatus now prev cur options = None.
Proof.
  intros Hprev Hcond. unfold getRebufferingStatus. rewrite Hprev.
  fold fullyLoaded.
  set (c := (1 <=? readyState (media cur))%Z
            && negb (event_eqb (event (media cur)) loadedmetadata)
            && true && negb (fullyLoaded || ended (media cur))).
  assert (Hc : c = false).
  { unfold c. destruct Hcond as [H | [H | [H | H]]].
    - apply Z.leb_gt in H. now rewrite H.
    - rewrite H. simpl. now rewrite andb_false_r.
    - rewrite H, orb_true_r. simpl. now rewrite !andb_false_r.
    - rewrite H. simpl. now rewrite !andb_false_r. }
  rewrite Hc. simpl. destruct (withMediaSource options); reflexivity.
Qed.

(** X14: with a MediaSource, a player that is not rebuffering starts to
    exactly when the media element has metadata, the event is not
    ["loadedmetadata"], playback has not ended, the buffered range does not
    reach the end of the content, and the buffer gap is at most
    [REBUFFERING_GAP] or infinite; the status then carries the current time
    as timestamp and awaits the end of the buffer gap (the current position
    when the gap is infinite). *)
Theorem rebuffering_starts_with_media_source :
  rebuffering prev = None ->
  withMediaSource options = true ->
  let starts :=
    (1 <=? readyState (media cur))%Z
    && negb (event_eqb (event (media cur)) loadedmetadata)
    && negb fullyLoaded && negb (ended (media cur))
    && (num_le (bufferGap (media cur))
               (bySuffix REBUFFERING_GAP (lowLatencyMode options))
        || negb (isFinite (bufferGap (media cur)))) in
  match getRebufferingStatus now prev cur options with
  | Some status =>
    starts = true /\ rb_timestamp status = now /\
    rb_position status
    = Some (match bufferGap (media cur) with
            | Finite gap => Finite (position (media cur) + gap)
            | Infinity => Finite (position (media cur))
            end)
  | None => starts = false
  end.
Proof.
  intros Hprev Hmse starts. unfold starts. clear starts.
  unfold getRebufferingStatus. rewrite Hprev, Hmse. fold fullyLoaded.
  unfold bySuffix.
  destruct (1 <=? readyState (media cur))%Z; [|reflexivity].
  destruct (event_eqb (event (media cur)) loadedmetadata); [reflexivity|].
  destruct fullyLoaded; [reflexivity|].
  destruct (ended (media cur)); [reflexivity|].
  cbn [andb negb orb].
  destruct (bufferGap (media cur)) as [gap|]; cbn [num_le num_gt isFinite negb].
  - unfold num_le, num_gt.
    destruct (Qlt_bool (if lowLatencyMode options
                        then LOW_LATENCY REBUFFERING_GAP
                        else DEFAULT REBUFFERING_GAP) gap); cbn; [reflexivity|].
    repeat split; reflexivity.
  - cbn. repeat split; reflexivity.
Qed.

(** X15: while the player is rebuffering, the status keeps its timestamp as
    long as the reason stays the same, and takes the current time when the
    reason changes; a rebuffering that began with a seek keeps the reason
    ["seeking"] until it ends. *)
Theorem rebuffering_timestamp_kept (previous status : IRebufferingStatus) :
  rebuffering prev = Some previous ->
  getRebufferingStatus now prev cur options = Some status ->
  (reason status = reason previous /\ rb_timestamp status = rb_timestamp previous
   \/ reason status <> reason previous /\ rb_timestamp status = now)
  /\ (reason previous = reason_seeking -> reason status = reason_seeking).
Proof.
  intros Hprev. unfold getRebufferingStatus. rewrite Hprev.
  set (decided := if withMediaSource options then _ else _).
  destruct (shouldStopRebuffer decided); [discriminate|].
  rewrite orb_true_r.
  set (r := if event_eqb (event (media cur)) seeking || _ then _ else _).
  assert (Hsticky : reason previous = reason_seeking -> r = reason_seeking).
  { intro H. unfold r. rewrite H. cbn [reason_eqb]. now rewrite orb_true_r. }
  destruct (reason_eqb (reason previous) r) eqn:E; intros [= <-]; cbn.
  - split; [left; split; reflexivity|]. intro H. exact H.
  - split; [|exact Hsticky]. right. split; [|reflexivity].
    intro H. rewrite H in E. destruct (reason previous); discriminate E.
Qed.

End Status.

Lemma resume_gap_above_rebuffering_gap (status : IRebufferingStatus)
      (lowLatencyMode : bool) :
  bySuffix REBUFFERING_GAP lowLatencyMode
  <= getRebufferingEndGap status lowLatencyMode.
Proof.
  unfold getRebufferingEndGap.
  destruct (reason status), lowLatencyMode; cbn; discriminate.
Qed.

(** X16: with a MediaSource, rebuffering ends only when the media element
    has data for the current position ([readyState] above 1) and either
    playback has ended, or the buffered range reaches the end of the
    content, or the buffer gap is finite and above the resume gap; and the
    media information that ended it does not start it again at the next
    observation, whatever the event of that observation. *)
Theorem rebuffering_ends_without_flapping
        (now now' : Q) (prev : IRebufferingObservation)
        (previous : IRebufferingStatus) (cur : IRangedMediaInfos)
        (options : IPlaybackObserverOptions)
        (freezingStatus : option IFreezingStatus)
        (evt : IPlaybackObserverEventType) :
  withMediaSource options = true ->
  rebuffering prev = Some previous ->
  getRebufferingStatus now prev cur options = None ->
  let fullyLoaded :=
    hasLoadedUntilTheEnd (currentRange cur) (duration (media cur))
                         (lowLatencyMode options) in
  ((1 < readyState (media cur))%Z /\
   (fullyLoaded = true \/ ended (media cur) = true \/
    exists gap, bufferGap (media cur) = Finite gap /\
                getRebufferingEndGap previous (lowLatencyMode options) < gap))
  /\ getRebufferingStatus
       now'
       {| observation := {| infos := media cur; freezing := freezingStatus |};
          observedRange := currentRange cur;
          rebuffering := None |}
       {| media := {| bufferGap := bufferGap (media cur);
                      position := position (media cur);
                      duration := duration (media cur);
                      ended := ended (media cur);
                      paused := paused (media cur);
                      playbackRate := playbackRate (media cur);
                      readyState := readyState (media cur);
                      seeking_ := seeking_ (media cur);
                      event := evt |};
          currentRange := currentRange cur |}
       options = None.
Proof.
  intros Hmse Hprev Hnone fullyLoaded.
  assert (Hgap := resume_gap_above_rebuffering_gap previous (lowLatencyMode options)).
  revert Hnone. unfold getRebufferingStatus. rewrite Hprev, Hmse.
  cbn [rebuffering observation infos media currentRange bufferGap position
       duration ended paused playbackRate readyState seeking_ event].
  fold fullyLoaded. rewrite !andb_false_r. cbn [andb].
  destruct (1 <? readyState (media cur))%Z eqn:Ers; cbn [andb].
  2:{ destruct (negb (isFinite _) || _); cbn; destruct (reason_eqb _ _); discriminate. }
  apply Z.ltb_lt in Ers.
  destruct (fullyLoaded || ended (media cur)
            || isFinite (bufferGap (media cur))
               && num_gt (bufferGap (media cur))
                         (getRebufferingEndGap previous (lowLatencyMode options)))
    eqn:Eleave.
  2:{ destruct (negb (isFinite _) || _); cbn; destruct (reason_eqb _ _); discriminate. }
  intros _. split.
  - split; [exact Ers|].
    destruct fullyLoaded; [now left|].
    destruct (ended (media cur)); [right; now left|].
    right. right. cbn in Eleave.
    destruct (bufferGap (media cur)) as [gap|]; [|discriminate].
    exists gap. split; [reflexivity|]. cbn in Eleave. now apply Qlt_bool_iff.
  - destruct ((1 <=? readyState (media cur))%Z
              && negb (event_eqb evt loadedmetadata)); cbn [andb]; [|reflexivity].
    destruct fullyLoaded; [reflexivity|].
    destruct (ended (media cur)); [reflexivity|].
    cbn in Eleave |- *.
    destruct (bufferGap (media cur)) as [gap|]; [|discriminate].
    cbn in Eleave |- *. apply Qlt_bool_iff in Eleave.
    assert (E : num_le (Finite gap)
                       (if lowLatencyMode options
                        then LOW_LATENCY REBUFFERING_GAP
                        else DEFAULT REBUFFERING_GAP) = false).
    { unfold num_le, num_gt. apply negb_false_iff, Qlt_bool_iff.
      eapply Qle_lt_trans; [exact Hgap | exact Eleave]. }
    change (if lowLatencyMode options then 0.2 else 1 # 2)
      with (if lowLatencyMode options
            then LOW_LATENCY REBUFFERING_GAP
            else DEFAULT REBUFFERING_GAP).
    rewrite E. reflexivity.
Qed.

(** The counter of internal seeks and the labels of the observations, over
    any sequence of actions. *)
Lemma run_counter (actions : list action) :
  forall this,
    forallb isObserved actions = true ->
    (0 <= _internalSeekingEventsIncomingCounter this)%Z ->
    let '(final, emitted) := run this actions in
    (0 <= _internalSeekingEventsIncomingCounter final)%Z /\
    (_internalSeekingEventsIncomingCounter final
     + Z.of_nat (List.length (filter labelledInternal emitted))
     = _internalSeekingEventsIncomingCounter this
       + Z.of_nat (List.length (filter isInternalSeek actions)))%Z /\
    (List.length (filter labelledInternal emitted)
     + List.length (filter labelledSeeking emitted)
     = List.length (filter isSeekingEvent actions))%nat.
Proof.
  induction actions as [|a rest IH]; intros this Hobs Hpos.
  - simpl. repeat split; first [exact Hpos | lia].
  - cbn [forallb] in Hobs. apply andb_true_iff in Hobs. destruct Hobs as [Ha Hobs].
    cbn [run]. destruct a as [|now el evt].
    + assert (Hpos' : (0 <= _internalSeekingEventsIncomingCounter
                               (act this internalSeek))%Z) by (simpl; lia).
      specialize (IH _ Hobs Hpos').
      destruct (run (act this internalSeek) rest) as [final emitted].
      destruct IH as (H1 & H2 & H3). simpl in H2 |- *.
      repeat split; [exact H1 | lia | exact H3].
    + set (this' := act this (mediaEvent now el evt)).
      assert (Hstep :
        (0 <= _internalSeekingEventsIncomingCounter this')%Z /\
        (_internalSeekingEventsIncomingCounter this'
         + (if labelledInternal (_lastObservation this') then 1 else 0)
         = _internalSeekingEventsIncomingCounter this)%Z /\
        ((if labelledInternal (_lastObservation this') then 1 else 0)
         + (if labelledSeeking (_lastObservation this') then 1 else 0)
         = if isSeekingEvent (mediaEvent now el evt) then 1 else 0)%nat).
      { unfold this', act, observe, labelledInternal, labelledSeeking. cbn.
        destruct (0 <? _internalSeekingEventsIncomingCounter this)%Z eqn:E.
        - apply Z.ltb_lt in E.
          destruct evt; try discriminate Ha; cbn; repeat split; lia.
        - apply Z.ltb_ge in E. rewrite andb_false_r.
          destruct evt; try discriminate Ha; cbn; repeat split; lia. }
      destruct Hstep as (S1 & S2 & S3).
      specialize (IH _ Hobs S1).
      destruct (run this' rest) as [final emitted].
      destruct IH as (H1 & H2 & H3). cbn [filter].
      cbn [isInternalSeek].
      destruct (labelledInternal (_lastObservation this'));
        destruct (labelledSeeking (_lastObservation this'));
        destruct (isSeekingEvent (mediaEvent now el evt));
        cbn [List.length] in *; repeat split; try lia.
Qed.

(** X17: over any sequence of internal seeks and observed events, the counter
    of incoming internal seeks never goes below zero and is the number of
    internal seeks performed minus the number of observations labelled
    ["internal-seeking"]; and the observations labelled ["internal-seeking"]
    or ["seeking"] are as many as the ["seeking"] events of the media
    element. *)
Theorem internal_seeks_accounted (el : mediaElement)
        (options : IPlaybackObserverOptions) (actions : list action) :
  forallb isObserved actions = true ->
  let '(final, emitted) := run (newObserver el options) actions in
  (0 <= _internalSeekingEventsIncomingCounter final)%Z /\
  (_internalSeekingEventsIncomingCounter final
   = Z.of_nat (List.length (filter isInternalSeek actions))
     - Z.of_nat (List.length (filter labelledInternal emitted)))%Z /\
  (List.length (filter labelledInternal emitted)
   + List.length (filter labelledSeeking emitted)
   = List.length (filter isSeekingEvent actions))%nat.
Proof.
  intro Hobs.
  assert (H := run_counter actions (newObserver el options) Hobs (Z.le_refl 0)).
  destruct (run (newObserver el options) actions) as [final emitted].
  destruct H as (H1 & H2 & H3). cbn in H2.
  repeat split; [exact H1 | lia | exact H3].
Qed.

(** ** Examples *)

(** A media element playing at 10 s of a 100 s content, with data buffered
    up to [bufferedEnd]. *)
Definition playingElement (bufferedEnd : Q) (readyState : Z) : mediaElement :=
  {| currentTime := 10; el_duration := 100; el_ended := false;
     el_paused := false; el_playbackRate := 1; el_readyState := readyState;
     el_seeking := false;
     el_currentRange := Some {| range_start := 0; range_end := bufferedEnd |} |}.

Definition mseOptions : IPlaybackObserverOptions :=
  {| withMediaSource := true; lowLatencyMode := false |}.

(** The last observation of an observer that is not rebuffering. *)
Definition steadyObservation : IRebufferingObservation :=
  _lastObservation (newObserver (playingElement 30 4) mseOptions).

(** The last observation of an observer that has been rebuffering since
    [1000], for lack of data. *)
Definition starvedObservation : IRebufferingObservation :=
  {| observation := observation steadyObservation;
     observedRange := observedRange steadyObservation;
     rebuffering := Some {| reason := reason_buffering; rb_timestamp := 1000;
                            rb_position := Some (Finite (103 # 10)) |} |}.

Lemma rebuffering_does_not_start_witness :
  rebuffering steadyObservation = None /\
  getRebufferingStatus 2000 steadyObservation
    (getMediaInfos (playingElement (101 # 10) 4) loadedmetadata) mseOptions = None.
Proof.
  split; [reflexivity|].
  apply rebuffering_does_not_start; [reflexivity|].
  right. left. reflexivity.
Defined.

Lemma rebuffering_starts_with_media_source_witness :
  rebuffering steadyObservation = None /\
  withMediaSource mseOptions = true /\
  match getRebufferingStatus 2000 steadyObservation
          (getMediaInfos (playingElement (103 # 10) 4) timeupdate) mseOptions
  with
  | Some status => rb_timestamp status = 2000
  | None => False
  end.
Proof.
  split; [reflexivity|]. split; [reflexivity|].
  generalize (rebuffering_starts_with_media_source 2000 steadyObservation
                (getMediaInfos (playingElement (103 # 10) 4) timeupdate)
                mseOptions eq_refl eq_refl).
  cbv zeta.
  destruct (getRebufferingStatus 2000 steadyObservation
              (getMediaInfos (playingElement (103 # 10) 4) timeupdate) mseOptions).
  - intros (_ & H & _). exact H.
  - intro H. vm_compute in H. discriminate H.
Defined.

Lemma rebuffering_timestamp_kept_witness :
  exists status,
    getRebufferingStatus 2000 starvedObservation
      (getMediaInfos (playingElement (105 # 10) 4) timeupdate) mseOptions
    = Some status /\
    reason status = reason_buffering /\ rb_timestamp status = 1000.
Proof.
  eexists. split; [reflexivity|].
  destruct (rebuffering_timestamp_kept 2000 starvedObservation
              (getMediaInfos (playingElement (105 # 10) 4) timeupdate) mseOptions
              _ _ eq_refl eq_refl) as [[(Hr & Ht) | (Hr & _)] _].
  - split; [exact Hr | exact Ht].
  - exfalso. apply Hr. reflexivity.
Defined.

Lemma rebuffering_ends_without_flapping_witness :
  withMediaSource mseOptions = true /\
  getRebufferingStatus 2000 starvedObservation
    (getMediaInfos (playingElement 12 4) timeupdate) mseOptions = None /\
  getRebufferingStatus
    3000
    {| observation :=
         {| infos := media (getMediaInfos (playingElement 12 4) timeupdate);
            freezing := None |};
       observedRange := currentRange (getMediaInfos (playingElement 12 4) timeupdate);
       rebuffering := None |}
    (getMediaInfos (playingElement 12 4) timeupdate) mseOptions = None.
Proof.
  split; [reflexivity|]. split; [reflexivity|].
  exact (proj2 (rebuffering_ends_without_flapping
                  2000 3000 starvedObservation _
                  (getMediaInfos (playingElement 12 4) timeupdate) mseOptions
                  None timeupdate eq_refl eq_refl eq_refl)).
Defined.

(** Two internal seeks, then three ["seeking"] events: the first two are
    labelled ["internal-seeking"], the third ["seeking"]. *)
Definition seeks : list action :=
  [ internalSeek; internalSeek;
    mediaEvent 100 (playingElement 30 4) seeking;
    mediaEvent 200 (playingElement 30 4) timeupdate;
    mediaEvent 300 (playingElement 30 4) seeking;
    mediaEvent 400 (playingElement 30 4) seeking ].

Lemma internal_seeks_accounted_witness :
  forallb isObserved seeks = true /\
  map (fun o => event (infos (observation o)))
      (snd (run (newObserver (playingElement 30 4) mseOptions) seeks))
  = [internal_seeking; timeupdate; internal_seeking; seeking] /\
  let '(final, emitted) := run (newObserver (playingElement 30 4) mseOptions) seeks in
  (0 <= _internalSeekingEventsIncomingCounter final)%Z /\
  (_internalSeekingEventsIncomingCounter final
   = Z.of_nat (List.length (filter isInternalSeek seeks))
     - Z.of_nat (List.length (filter labelledInternal emitted)))%Z /\
  (List.length (filter labelledInternal emitted)
   + List.length (filter labelledSeeking emitted)
   = List.length (filter isSeekingEvent seeks))%nat.
Proof.
  split; [reflexivity|]. split; [reflexivity|].
  exact (internal_seeks_accounted (playingElement 30 4) mseOptions seeks eq_refl).
Defined.

End Rebuffering.

(* ================================================================== *)
(** * ABR estimator: buffer-based estimates and the guessing mode over time
    [src/core/abr/representation_estimator.ts] *)

Module EstimatorModes.
Import ABR.

(** Representations sorted by ascending bitrate, as the [sort] of
    [Adaptation]'s constructor leaves them: two Representations may have the
    same bitrate. *)
Definition ascending (representations : list Representation) : Prop :=
  StronglySorted (fun a b => rep_bitrate a <= rep_bitrate b) representations.

(** No two Representations have the same bitrate. *)
Definition strictlyAscending (representations : list Representation) : Prop :=
  StronglySorted (fun a b => rep_bitrate a < rep_bitrate b) representations.

(** [found] is the Representation [arrayFindIndex] stops at: the first one
    of the list with the id of [currentRepresentation]; [before] and [after]
    are the Representations on each side of it. *)
Definition foundAt (representations : list Representation)
           (currentRepresentation : Representation)
           (before : list Representation) (found : Representation)
           (after : list Representation) : Prop :=
  representations = (before ++ found :: after)%list /\
  rep_id found = rep_id currentRepresentation /\
  forall r, In r before -> rep_id r <> rep_id currentRepresentation.

(** X18: among Representations sorted by ascending bitrate, equal bitrates
    allowed, [getSuperiorRepresentation] returns the Representation that
    follows, in the list, the first one with the current id (the current one
    itself when it is in the list and ids are distinct): its bitrate is not
    lower, it is higher when no two Representations share a bitrate, and no
    Representation of the list lies strictly between the two.  It returns
    [null] when no Representation has the current id, or when the one found
    is the last, and then none has a higher bitrate. *)
Theorem getSuperiorRepresentation_is_next
        (representations : list Representation) (current : Representation) :
  ascending representations ->
  match getSuperiorRepresentation representations current with
  | Some superior =>
    exists before found after,
      foundAt representations current before found (superior :: after) /\
      (NoDup (map rep_id representations) -> In current representations ->
       found = current) /\
      rep_bitrate found <= rep_bitrate superior /\
      (strictlyAscending representations ->
       rep_bitrate found < rep_bitrate superior) /\
      forall r, In r representations ->
                rep_bitrate r <= rep_bitrate found \/
                rep_bitrate superior <= rep_bitrate r
  | None =>
    (forall r, In r representations -> rep_id r <> rep_id current) \/
    exists before found,
      foundAt representations current before found [] /\
      (NoDup (map rep_id representations) -> In current representations ->
       found = current) /\
      forall r, In r representations -> rep_bitrate r <= rep_bitrate found
  end.
Proof.
  induction representations as [|r rest IH]; intros Hs.
  - left. intros r [].
  - inversion Hs as [|? ? Hrest Hall]; subst.
    rewrite Forall_forall in Hall.
    cbn [getSuperiorRepresentation].
    destruct (String.eqb (rep_id r) (rep_id current)) eqn:E.
    + apply String.eqb_eq in E.
      assert (Hcur : NoDup (map rep_id (r :: rest)) -> In current (r :: rest) ->
                     r = current).
      { intros Hnd Hin. inversion Hnd as [|? ? Hfresh _]; subst.
        destruct Hin as [H|H]; [exact H|].
        exfalso. apply Hfresh. rewrite E. now apply in_map. }
      destruct rest as [|r' rest']; cbn [hd_error].
      * right. exists [], r. split; [|split].
        -- split; [reflexivity|]. split; [exact E|]. intros x [].
        -- exact Hcur.
        -- intros x [<-|[]]. apply Qle_refl.
      * exists [], r, rest'. split; [|split; [|split; [|split]]].
        -- split; [reflexivity|]. split; [exact E|]. intros x [].
        -- exact Hcur.
        -- apply Hall. now left.
        -- intros Hstrict. inversion Hstrict as [|? ? _ Hall']; subst.
           rewrite Forall_forall in Hall'. apply Hall'. now left.
        -- intros x [<-|[<-|Hx]].
           ++ left. apply Qle_refl.
           ++ right. apply Qle_refl.
           ++ right. inversion Hrest as [|? ? _ Hall']; subst.
              rewrite Forall_forall in Hall'. now apply Hall'.
    + assert (Hne : rep_id r <> rep_id current).
      { intro H. apply String.eqb_eq in H. rewrite H in E. discriminate E. }
      specialize (IH Hrest).
      destruct (getSuperiorRepresentation rest current) as [superior|].
      * destruct IH as (before & found & after & (Hl & Hid & Hbefore) & Hcur & Hle & Hlt & Hbetween).
        exists (r :: before), found, after.
        split; [|split; [|split; [|split]]].
        -- split; [simpl; now rewrite Hl|]. split; [exact Hid|].
           intros x [<-|Hx]; [exact Hne|now apply Hbefore].
        -- intros Hnd Hin. inversion Hnd as [|? ? _ Hnd']; subst.
           destruct Hin as [H|H]; [subst; now contradiction Hne|].
           now apply Hcur.
        -- exact Hle.
        -- intros Hstrict. inversion Hstrict; subst. now apply Hlt.
        -- intros x [<-|Hx]; [|now apply Hbetween].
           left. apply Hall. rewrite Hl. apply in_or_app. right. now left.
      * destruct IH as [Hnone | (before & found & (Hl & Hid & Hbefore) & Hcur & Hmax)].
        -- left. intros x [<-|Hx]; [exact Hne|now apply Hnone].
        -- right. exists (r :: before), found. split; [|split].
           ++ split; [simpl; now rewrite Hl|]. split; [exact Hid|].
              intros x [<-|Hx]; [exact Hne|now apply Hbefore].
           ++ intros Hnd Hin. inversion Hnd as [|? ? _ Hnd']; subst.
              destruct Hin as [H|H]; [subst; now contradiction Hne|].
              now apply Hcur.
           ++ intros x [<-|Hx]; [|now apply Hmax].
              apply Hall. rewrite Hl. apply in_or_app. right. now left.
Qed.

Section Properties.

Variable selectOptimalRepresentation :
  list Representation -> Q -> Q -> num -> Representation.
Variable filterByBitrate : list Representation -> Q -> list Representation.
Variable filterByWidth : list Representation -> Q -> list Representation.
Variable isUrgent :
  Q -> option Representation -> list IRequestInfo ->
  IRepresentationEstimatorClockTick -> bool.

Let autoEstimate' :=
  autoEstimate selectOptimalRepresentation filterByBitrate filterByWidth isUrgent.
Let autoRun' :=
  autoRun selectOptimalRepresentation filterByBitrate filterByWidth isUrgent.
Let fromBandwidth :=
  chosenRepFromBandwidth selectOptimalRepresentation filterByBitrate filterByWidth.
Let fromBufferSize :=
  chosenRepFromBufferSize selectOptimalRepresentation filterByBitrate filterByWidth.
Let filtered := getFilteredRepresentations filterByBitrate filterByWidth.

(** X19: buffer-based estimates are switched off when the buffer gap is at
    most 5 s, switched on when it is finite and above 10 s, and left as they
    were in between and for an infinite gap; while they are off, no estimate
    is buffer-based. *)
Theorem buffer_based_hysteresis (representations : list Representation)
        (st : autoState) (t : tick) :
  match bufferGap (clock t) with
  | Finite gap =>
    (gap <= 5 -> nextAllowBufferBasedEstimates st t = false) /\
    (10 < gap -> nextAllowBufferBasedEstimates st t = true) /\
    (5 < gap -> gap <= 10 ->
     nextAllowBufferBasedEstimates st t = allowBufferBasedEstimates st)
  | Infinity => nextAllowBufferBasedEstimates st t = allowBufferBasedEstimates st
  end /\
  (nextAllowBufferBasedEstimates st t = false ->
   fromBufferSize representations st t = None) /\
  allowBufferBasedEstimates (fst (autoEstimate' representations st t))
  = nextAllowBufferBasedEstimates st t.
Proof.
  split; [|split].
  - unfold nextAllowBufferBasedEstimates.
    destruct (bufferGap (clock t)) as [gap|]; unfold num_le, num_gt, isFinite;
      cbv zeta.
    + repeat split.
      * intro H. assert (E : Qlt_bool 5 gap = false) by now apply Qlt_bool_false.
        assert (E' : Qlt_bool 10 gap = false) by (apply Qlt_bool_false; lra).
        rewrite E, E'. destruct (allowBufferBasedEstimates st); reflexivity.
      * intro H. assert (E : Qlt_bool 5 gap = true) by (apply Qlt_bool_iff; lra).
        assert (E' : Qlt_bool 10 gap = true) by now apply Qlt_bool_iff.
        rewrite E, E'. destruct (allowBufferBasedEstimates st); reflexivity.
      * intros H1 H2.
        assert (E : Qlt_bool 5 gap = true) by now apply Qlt_bool_iff.
        assert (E' : Qlt_bool 10 gap = false) by now apply Qlt_bool_false.
        rewrite E, E'. destruct (allowBufferBasedEstimates st); reflexivity.
    + destruct (allowBufferBasedEstimates st); reflexivity.
  - intro H. unfold fromBufferSize, chosenRepFromBufferSize. rewrite H.
    destruct (bufferBasedBitrate t); reflexivity.
  - unfold autoEstimate', autoEstimate. cbv zeta.
    destruct (chosenRepFromGuessMode _); [reflexivity|].
    destruct (chosenRepFromBufferSize _ _ _ _ _ _); reflexivity.
Qed.

(** The estimate of one emission is not a guess: it is the bandwidth-based
    or the buffer-based choice. *)
Definition notGuessed (representations : list Representation)
           (st : autoState) (t : tick) (estimate : IABREstimate) : Prop :=
  match fromBufferSize representations st t with
  | Some chosen => representation estimate = chosen
  | None => representation estimate = fromBandwidth representations t
  end.

Lemma tryGuess_blocked representations st t current :
  now t <= blockGuessingModeUntil st ->
  tryGuess representations st t current = None.
Proof.
  intro H. unfold tryGuess. destruct (scoreData t) as [[score level]|]; [|reflexivity].
  assert (E : Qlt_bool (blockGuessingModeUntil st) (now t) = false)
    by now apply Qlt_bool_false.
  rewrite E, !andb_false_r. reflexivity.
Qed.

Lemma guessingMode_blocked representations st t fromBw fromBuf :
  now t <= blockGuessingModeUntil st ->
  wasGuessed (prevEstimate st) = false ->
  guessingMode representations st t fromBw fromBuf
  = {| chosenRepFromGuessMode := None;
       guess_consecutiveWrongGuesses := consecutiveWrongGuesses st;
       guess_blockGuessingModeUntil := blockGuessingModeUntil st |}.
Proof.
  intros Hb Hg. unfold guessingMode. rewrite Hg.
  destruct (match liveGap (clock t) with None => true | Some g => Qlt_bool 50 g end);
    [reflexivity|].
  destruct (currentRepresentation t) as [current|]; [|reflexivity].
  destruct (es_representation (prevEstimate st)) as [prevRep|]; [|reflexivity].
  destruct (match fromBuf with
            | Some r => Qlt_bool (rep_bitrate prevRep) (rep_bitrate r)
            | None => false end); [reflexivity|].
  now rewrite tryGuess_blocked.
Qed.

Lemma autoEstimate_blocked representations st t :
  now t <= blockGuessingModeUntil st ->
  wasGuessed (prevEstimate st) = false ->
  let '(st', estimate) := autoEstimate' representations st t in
  wasGuessed (prevEstimate st') = false /\
  blockGuessingModeUntil st' = blockGuessingModeUntil st /\
  consecutiveWrongGuesses st' = consecutiveWrongGuesses st /\
  notGuessed representations st t estimate.
Proof.
  intros Hb Hg. unfold autoEstimate', autoEstimate, notGuessed. cbv zeta.
  rewrite (guessingMode_blocked _ _ _ _ _ Hb Hg).
  cbn [chosenRepFromGuessMode guess_consecutiveWrongGuesses
       guess_blockGuessingModeUntil].
  unfold fromBufferSize, fromBandwidth.
  destruct (chosenRepFromBufferSize _ _ _ _ _ _); repeat split; reflexivity.
Qed.

(** Every estimate of a run of the auto mode is not a guess, each one
    judged with the closure as it was when the emission came. *)
Fixpoint noneGuessed (representations : list Representation)
         (st : autoState) (ticks : list tick) : Prop :=
  match ticks with
  | [] => True
  | t :: rest =>
    let '(st1, estimate) := autoEstimate' representations st t in
    notGuessed representations st t estimate /\
    noneGuessed representations st1 rest
  end.

(** X20: while guessing is blocked (the time of every emission is at most
    [blockGuessingModeUntil]) and the last estimate was not a guess, no
    estimate is a guess: every one is the buffer-based or the
    bandwidth-based choice, and the closure ends with the same
    [blockGuessingModeUntil] and [consecutiveWrongGuesses]. *)
Theorem no_guess_while_blocked (representations : list Representation)
        (ticks : list tick) (st : autoState) :
  Forall (fun t => now t <= blockGuessingModeUntil st) ticks ->
  wasGuessed (prevEstimate st) = false ->
  let '(st', estimates) := autoRun' representations st ticks in
  wasGuessed (prevEstimate st') = false /\
  blockGuessingModeUntil st' = blockGuessingModeUntil st /\
  consecutiveWrongGuesses st' = consecutiveWrongGuesses st /\
  List.length estimates = List.length ticks /\
  noneGuessed representations st ticks.
Proof.
  revert st. induction ticks as [|t rest IH]; intros st Hall Hg.
  - cbn. repeat split; assumption.
  - inversion Hall as [|? ? Ht Hrest]; subst.
    unfold autoRun'. cbn [autoRun noneGuessed]. fold autoRun'.
    assert (Hstep := autoEstimate_blocked representations st t Ht Hg).
    destruct (autoEstimate' representations st t) as [st1 estimate] eqn:Estep.
    unfold autoEstimate' in Estep. rewrite Estep.
    destruct Hstep as (H1 & H2 & H3 & H4).
    assert (Hrest' : Forall (fun t => now t <= blockGuessingModeUntil st1) rest)
      by (rewrite H2; exact Hrest).
    specialize (IH st1 Hrest' H1).
    destruct (autoRun' representations st1 rest) as [st2 estimates].
    destruct IH as (I1 & I2 & I3 & I4 & I5).
    split; [exact I1|]. split; [congruence|]. split; [congruence|].
    split; [simpl; congruence|]. split; [exact H4 | exact I5].
Qed.

(** X21: a guess is validated, near the live edge, as soon as the
    bandwidth-based choice reaches the bitrate of the guessed Representation
    (the buffer-based choice not being above it): the count of wrong guesses
    in a row goes back to 0, [blockGuessingModeUntil] is kept, and the
    estimate is the buffer-based or the bandwidth-based choice. *)
Theorem guess_is_validated (representations : list Representation)
        (st : autoState) (t : tick) (gap : Q) (current prevRep : Representation) :
  liveGap (clock t) = Some gap -> gap <= 50 ->
  currentRepresentation t = Some current ->
  es_representation (prevEstimate st) = Some prevRep ->
  wasGuessed (prevEstimate st) = true ->
  (forall r, fromBufferSize representations st t = Some r ->
             rep_bitrate r <= rep_bitrate prevRep) ->
  rep_bitrate prevRep <= rep_bitrate (fromBandwidth representations t) ->
  let '(st', estimate) := autoEstimate' representations st t in
  consecutiveWrongGuesses st' = 0%Z /\
  blockGuessingModeUntil st' = blockGuessingModeUntil st /\
  wasGuessed (prevEstimate st') = false /\
  notGuessed representations st t estimate.
Proof.
  intros Hgap Hle Hcur Hprev Hguess Hbuf Hbw.
  assert (Hg : guessingMode (filtered representations (filters t)) st t
                            (fromBandwidth representations t)
                            (fromBufferSize representations st t)
               = {| chosenRepFromGuessMode := None;
                    guess_consecutiveWrongGuesses := 0;
                    guess_blockGuessingModeUntil := blockGuessingModeUntil st |}).
  { unfold guessingMode. rewrite Hgap, Hcur, Hprev, Hguess.
    assert (E1 : Qlt_bool 50 gap = false) by (now apply Qlt_bool_false).
    rewrite E1.
    assert (E2 : match fromBufferSize representations st t with
                 | Some r => Qlt_bool (rep_bitrate prevRep) (rep_bitrate r)
                 | None => false
                 end = false).
    { destruct (fromBufferSize representations st t) as [r|]; [|reflexivity].
      apply Qlt_bool_false. now apply Hbuf. }
    rewrite E2.
    destruct (match fromBufferSize representations st t with
              | Some r => Qeq_bool (rep_bitrate r) (rep_bitrate prevRep)
              | None => false end); [reflexivity|].
    assert (E4 : Qle_bool (rep_bitrate prevRep)
                          (rep_bitrate (fromBandwidth representations t)) = true)
      by (now apply Qle_bool_iff).
    rewrite E4. reflexivity. }
  unfold autoEstimate', autoEstimate, notGuessed. cbv zeta.
  fold (filtered representations (filters t)).
  fold (fromBandwidth representations t). fold (fromBufferSize representations st t).
  rewrite Hg. cbn [chosenRepFromGuessMode guess_consecutiveWrongGuesses
                   guess_blockGuessingModeUntil].
  destruct (fromBufferSize representations st t); repeat split; reflexivity.
Qed.

(** One emission keeps the count of wrong guesses at or above zero and either
    keeps [blockGuessingModeUntil] or sets it between 120 s and 360 s after
    the time of the emission. *)
Lemma autoEstimate_block representations st t :
  (0 <= consecutiveWrongGuesses st)%Z ->
  let st' := fst (autoEstimate' representations st t) in
  (0 <= consecutiveWrongGuesses st')%Z /\
  (blockGuessingModeUntil st' = blockGuessingModeUntil st \/
   now t + 120000 <= blockGuessingModeUntil st' /\
   blockGuessingModeUntil st' <= now t + 360000).
Proof.
  intros Hpos st'.
  assert (Hg : forall reps fromBw fromBuf,
             let g := guessingMode reps st t fromBw fromBuf in
             (0 <= guess_consecutiveWrongGuesses g)%Z /\
             (guess_blockGuessingModeUntil g = blockGuessingModeUntil st \/
              now t + 120000 <= guess_blockGuessingModeUntil g /\
              guess_blockGuessingModeUntil g <= now t + 360000)).
  { intros reps fromBw fromBuf. unfold guessingMode.
    destruct (match liveGap (clock t) with None => true | Some g => Qlt_bool 50 g end);
      [cbn; auto|].
    destruct (currentRepresentation t) as [current|]; [|cbn; auto].
    destruct (es_representation (prevEstimate st)) as [prevRep|]; [|cbn; auto].
    destruct (match fromBuf with
              | Some r => Qlt_bool (rep_bitrate prevRep) (rep_bitrate r)
              | None => false end); [cbn; auto|].
    destruct (wasGuessed (prevEstimate st)); [|cbn; auto].
    destruct (match fromBuf with
              | Some r => Qeq_bool (rep_bitrate r) (rep_bitrate prevRep)
              | None => false end); [cbn; split; [lia | auto]|].
    destruct (Qle_bool (rep_bitrate prevRep) (rep_bitrate fromBw));
      [cbn; split; [lia | auto]|].
    destruct (String.eqb (rep_id current) (rep_id prevRep)); [|cbn; auto].
    destruct (stayInGuessMode _ _ _ && _); [cbn; auto|].
    cbn [guess_consecutiveWrongGuesses guess_blockGuessingModeUntil].
    split; [lia|]. right.
    assert (H1 : 1 <= inject_Z (consecutiveWrongGuesses st + 1)).
    { change 1 with (inject_Z 1). rewrite <- Zle_Qle. lia. }
    assert (Hmin := Math_min_r (inject_Z (consecutiveWrongGuesses st + 1) * 120000)
                               360000).
    split; [|lra].
    unfold Math_min. destruct (Qle_bool _ 360000); lra. }
  unfold st', autoEstimate', autoEstimate. cbv zeta.
  match goal with
  | |- context [guessingMode ?reps st t ?bw ?buf] =>
    specialize (Hg reps bw buf); cbv zeta in Hg;
    destruct (chosenRepFromGuessMode (guessingMode reps st t bw buf));
    [exact Hg | destruct buf; exact Hg]
  end.
Qed.

(** X22: whatever the emissions of the auto mode, started from its initial
    state, the count of wrong guesses in a row never goes below zero, and
    [blockGuessingModeUntil] is either still 0 or between 120 s and 360 s
    after the time of one of the emissions: guessing is never blocked for
    more than six minutes. *)
Theorem guessing_block_is_bounded (representations : list Representation)
        (ticks : list tick) :
  let st := fst (autoRun' representations initialAutoState ticks) in
  (0 <= consecutiveWrongGuesses st)%Z /\
  (blockGuessingModeUntil st = 0 \/
   exists t, In t ticks /\
             now t + 120000 <= blockGuessingModeUntil st /\
             blockGuessingModeUntil st <= now t + 360000).
Proof.
  cbv zeta.
  assert (Hgen : forall st0,
             (0 <= consecutiveWrongGuesses st0)%Z ->
             let st := fst (autoRun' representations st0 ticks) in
             (0 <= consecutiveWrongGuesses st)%Z /\
             (blockGuessingModeUntil st = blockGuessingModeUntil st0 \/
              exists t, In t ticks /\
                        now t + 120000 <= blockGuessingModeUntil st /\
                        blockGuessingModeUntil st <= now t + 360000)).
  { induction ticks as [|t rest IH]; intros st0 Hpos.
    - cbn. split; [exact Hpos | now left].
    - cbv zeta. unfold autoRun'. cbn [autoRun]. fold autoRun'.
      assert (Hstep := autoEstimate_block representations st0 t Hpos).
      cbv zeta in Hstep. unfold autoEstimate' in Hstep.
      destruct (autoEstimate _ _ _ _ representations st0 t) as [st1 estimate].
      cbn [fst] in Hstep. destruct Hstep as [Hpos1 Hblock1].
      specialize (IH st1 Hpos1). cbv zeta in IH.
      destruct (autoRun' representations st1 rest) as [st2 estimates].
      cbn [fst] in *. destruct IH as [Hpos2 Hblock2].
      split; [exact Hpos2|].
      destruct Hblock2 as [E | (t' & Hin & Hb)].
      + rewrite E. destruct Hblock1 as [E1 | Hb1]; [now left|].
        right. exists t. split; [now left | exact Hb1].
      + right. exists t'. split; [now right | exact Hb]. }
  apply (Hgen initialAutoState). cbn. lia.
Qed.

End Properties.

(** ** Examples *)

(** A second Representation at 1.2 Mbit/s. *)
Definition r1200b : Representation := {| rep_id := "1200k-b"; rep_bitrate := 1200000 |}.

(** The theorem on a list where two Representations share a bitrate: the
    one above the first is the second. *)
Lemma getSuperiorRepresentation_is_next_witness :
  ascending [r800; r1200; r1200b] /\
  getSuperiorRepresentation [r800; r1200; r1200b] r1200 = Some r1200b /\
  exists before found after,
    foundAt [r800; r1200; r1200b] r1200 before found (r1200b :: after) /\
    (NoDup (map rep_id [r800; r1200; r1200b]) -> In r1200 [r800; r1200; r1200b] ->
     found = r1200) /\
    rep_bitrate found <= rep_bitrate r1200b /\
    (strictlyAscending [r800; r1200; r1200b] ->
     rep_bitrate found < rep_bitrate r1200b) /\
    forall r, In r [r800; r1200; r1200b] ->
              rep_bitrate r <= rep_bitrate found \/
              rep_bitrate r1200b <= rep_bitrate r.
Proof.
  assert (Hs : ascending [r800; r1200; r1200b]).
  { repeat constructor; discriminate. }
  split; [exact Hs|]. split; [reflexivity|].
  exact (getSuperiorRepresentation_is_next [r800; r1200; r1200b] r1200 Hs).
Defined.

(** The closure after a wrong guess: guessing is blocked until 500 s. *)
Definition blocked : autoState :=
  {| prevEstimate := {| es_bandwidth := Some 900000;
                        es_representation := Some r800;
                        wasGuessed := false |};
     allowBufferBasedEstimates := false;
     blockGuessingModeUntil := 500000;
     consecutiveWrongGuesses := 1 |}.

(** Two emissions before 500 s, with a score that would allow a guess. *)
Definition blockedTicks : list tick :=
  [ tickOn (Some r800) Infinity 200000 [] (Some (16 # 10, HIGH));
    tickOn (Some r800) Infinity 400000 [] (Some (16 # 10, HIGH)) ].

Lemma no_guess_while_blocked_witness :
  Forall (fun t => now t <= blockGuessingModeUntil blocked) blockedTicks /\
  map representation
      (snd (autoRun specSelectOptimalRepresentation (fun l _ => l) (fun l _ => l)
                    (fun _ _ _ _ => false) [r800; r1200] blocked blockedTicks))
  = [r800; r800] /\
  wasGuessed (prevEstimate
    (fst (autoRun specSelectOptimalRepresentation (fun l _ => l) (fun l _ => l)
                  (fun _ _ _ _ => false) [r800; r1200] blocked blockedTicks)))
  = false.
Proof.
  assert (Hall : Forall (fun t => now t <= blockGuessingModeUntil blocked)
                        blockedTicks).
  { repeat constructor; discriminate. }
  split; [exact Hall|]. split; [reflexivity|].
  generalize (no_guess_while_blocked
                specSelectOptimalRepresentation (fun l _ => l) (fun l _ => l)
                (fun _ _ _ _ => false) [r800; r1200] blockedTicks blocked
                Hall eq_refl).
  destruct (autoRun specSelectOptimalRepresentation (fun l _ => l) (fun l _ => l)
                    (fun _ _ _ _ => false) [r800; r1200] blocked blockedTicks)
    as [st' estimates].
  intros (H & _). exact H.
Defined.

(** An emission near the live edge with a bandwidth of 1300 kb/s while
    [r1200] is the current Representation. *)
Definition fastTick : tick :=
  {| clock := liveClock; minAutoBitrate := 0; maxAutoBitrate := Infinity;
     filters := noFilter; bufferBasedBitrate := None;
     currentRepresentation := Some r1200; now := 3000; requests := [];
     bandwidthEstimate := Some 1300000; bitrateChosen := 1300000;
     scoreData := None; stableRepresentation := None |}.

Lemma guess_is_validated_witness :
  let st' := fst (autoEstimate specSelectOptimalRepresentation
                               (fun l _ => l) (fun l _ => l)
                               (fun _ _ _ _ => false)
                               [r800; r1200] (guessing 2) fastTick) in
  consecutiveWrongGuesses st' = 0%Z /\ wasGuessed (prevEstimate st') = false.
Proof.
  cbv zeta.
  generalize (guess_is_validated
                specSelectOptimalRepresentation (fun l _ => l) (fun l _ => l)
                (fun _ _ _ _ => false) [r800; r1200] (guessing 2) fastTick
                10 r1200 r1200 eq_refl).
  destruct (autoEstimate specSelectOptimalRepresentation
                         (fun l _ => l) (fun l _ => l) (fun _ _ _ _ => false)
                         [r800; r1200] (guessing 2) fastTick) as [st' estimate].
  intro H. destruct H as (H1 & _ & H3 & _); try reflexivity.
  - discriminate.
  - intros r Hr. discriminate Hr.
  - discriminate.
  - split; [exact H1 | exact H3].
Defined.

End EstimatorModes.

(* ================================================================== *)
(** * Track-choice manager: subjects, disabling a track, trick mode
    [src/unnamed/part_006] *)

Module TrackChoices.
Import TrackChoiceManager.

(** [findPeriodIndex]: the search of [getPeriodItem], on the id of the given
    Period object. *)
Definition findPeriodIndex (h : heap) (periods : list ITMPeriodInfos)
           (period : PeriodRef) : option (nat * ITMPeriodInfos) :=
  getPeriodItemFrom h 0 periods (p_id (h period)).

(** The loop of [_insertNonManifestPeriodInStore]: the record goes before
    the first record of the store whose Period starts after its Period, or
    at the end. *)
Fixpoint insertByStart (h : heap) (periodInfo : ITMPeriodInfos)
         (store : list ITMPeriodInfos) : list ITMPeriodInfos :=
  match store with
  | [] => [periodInfo]
  | x :: rest =>
    if Qlt_bool (p_start (h (period periodInfo))) (p_start (h (period x)))
    then periodInfo :: x :: rest
    else x :: insertByStart h periodInfo rest
  end.

(** [addTrackChoiceSubject].  When the Period is not in the store, the new
    record is the one built by [_insertNonManifestPeriodInStore], in which
    [lastEmittedTrack] is then written (the [subject] is not stored in that
    branch); [Thrown] is the [TypeError] of [generatePeriodInfo].  The
    message of [log.error] is given with the warnings. *)
Definition addTrackChoiceSubject (h : heap) (this : manager) (type : bufferType)
           (period : PeriodRef) (subject : SubjectRef) : effect :=
  match getPeriodItem h (_store this) (p_id (h period)) with
  | None =>
    match generatePeriodInfo h (trickModeTrackEnabled this) period false with
    | None =>
      {| ending := Thrown "TypeError"; after := this; emitted := [];
         warnings := [] |}
    | Some periodInfo =>
      let choice := wantedTrack (trackOf type periodInfo) in
      let periodItem :=
        setTrackOf type
          {| wantedTrack := choice;
             lastEmittedTrack := Some choice;
             TrackChoiceManager.subject :=
               TrackChoiceManager.subject (trackOf type periodInfo) |}
          periodInfo in
      {| ending := Returned;
         after := withStore this (insertByStart h periodItem (_store this));
         emitted := [(subject, choice)];
         warnings := [] |}
    end
  | Some (i, periodItem) =>
    match TrackChoiceManager.subject (trackOf type periodItem) with
    | Some _ =>
      {| ending := Returned; after := this; emitted := [];
         warnings := [("TrackChoiceManager: Subject already added for "
                       ++ typeName type ++ " and Period "
                       ++ p_id (h period))%string] |}
    | None =>
      let choice := wantedTrack (trackOf type periodItem) in
      let periodItem' :=
        setTrackOf type
          {| wantedTrack := choice;
             lastEmittedTrack := Some choice;
             TrackChoiceManager.subject := Some subject |}
          periodItem in
      {| ending := Returned;
         after := withStore this (writeItem i periodItem' (_store this));
         emitted := [(subject, choice)];
         warnings := [] |}
    end
  end.

(** [this._store.splice(periodIndex, 1)]. *)
Fixpoint removeAt (i : nat) (store : list ITMPeriodInfos) : list ITMPeriodInfos :=
  match store, i with
  | [], _ => []
  | _ :: rest, O => rest
  | x :: rest, S i' => x :: removeAt i' rest
  end.

(** [removeTrackChoiceSubject]. *)
Definition removeTrackChoiceSubject (h : heap) (this : manager) (type : bufferType)
           (period : PeriodRef) : effect :=
  match findPeriodIndex h (_store this) period with
  | None =>
    {| ending := Returned; after := this; emitted := [];
       warnings := [("TrackChoiceManager: " ++ typeName type
                     ++ " not found for period " ++ p_id (h period))%string] |}
  | Some (periodIndex, periodItem) =>
    let choiceItem := trackOf type periodItem in
    match TrackChoiceManager.subject choiceItem with
    | None =>
      {| ending := Returned; after := this; emitted := [];
         warnings := [("TrackChoiceManager: Subject already removed for "
                       ++ typeName type ++ " and Period "
                       ++ p_id (h period))%string] |}
    | Some _ =>
      let periodItem' :=
        setTrackOf type
          {| wantedTrack := wantedTrack choiceItem;
             lastEmittedTrack := None;
             TrackChoiceManager.subject := None |}
          periodItem in
      {| ending := Returned;
         after := withStore this
                    (if isPeriodItemRemovable periodItem'
                     then removeAt periodIndex (_store this)
                     else writeItem periodIndex periodItem' (_store this));
         emitted := [];
         warnings := [] |}
    end
  end.

(** [disableTrack]. *)
Definition disableTrack (h : heap) (this : manager) (periodId : string)
           (type : bufferType) : effect :=
  match getPeriodItem h (_store this) periodId with
  | None =>
    {| ending := Returned; after := this; emitted := [];
       warnings := ["TrackChoiceManager: Given Period not found."%string] |}
  | Some (i, periodItem) =>
    let periodItem1 :=
      match type with
      | video =>
        setTrackOf video (setWantedTrack None (trackOf video periodItem)) periodItem
      | _ => periodItem
      end in
    let trackInfo := trackOf type periodItem1 in
    match wantedTrack trackInfo with
    | None =>
      {| ending := Returned;
         after := withStore this (writeItem i periodItem1 (_store this));
         emitted := []; warnings := [] |}
    | Some _ =>
      match TrackChoiceManager.subject trackInfo with
      | Some s =>
        let trackInfo' := {| wantedTrack := None;
                             lastEmittedTrack := Some None;
                             TrackChoiceManager.subject := Some s |} in
        {| ending := Returned;
           after := withStore this
                      (writeItem i (setTrackOf type trackInfo' periodItem1)
                                 (_store this));
           emitted := [(s, None)]; warnings := [] |}
      | None =>
        {| ending := Returned;
           after := withStore this
                      (writeItem i (setTrackOf type (setWantedTrack None trackInfo)
                                               periodItem1)
                                 (_store this));
           emitted := []; warnings := [] |}
      end
    end
  end.

Definition disableAudioTrack (h : heap) (this : manager) (periodId : string)
  : effect := disableTrack h this periodId audio.
Definition disableTextTrack (h : heap) (this : manager) (periodId : string)
  : effect := disableTrack h this periodId text.
Definition disableVideoTrack (h : heap) (this : manager) (periodId : string)
  : effect := disableTrack h this periodId video.

(** The first loop of [_resetVideoTrackChoices], on one record. *)
Definition resetVideoChoice (trick : bool) (periodItem : ITMPeriodInfos)
  : ITMPeriodInfos :=
  match wantedTrackBase (videoInfo periodItem) with
  | Some chosenBaseTrack =>
    let chosenTrack := getRightVideoTrack chosenBaseTrack trick in
    setTrackOf video
      (setWantedTrack (Some chosenTrack) (trackOf video periodItem))
      (setWantedTrackBase (Some chosenBaseTrack) periodItem)
  | None =>
    setTrackOf video
      (setWantedTrack None (trackOf video periodItem))
      (setWantedTrackBase None periodItem)
  end.

(** The second loop of [_resetVideoTrackChoices]: its body is the one of the
    loop over [updatedTracks] in [updatePeriodList], for the video record. *)
Fixpoint notifyVideo (store : list ITMPeriodInfos)
  : list ITMPeriodInfos * list emission :=
  match store with
  | [] => ([], [])
  | periodItem :: rest =>
    let '(periodItem', out1) := notifyTrack video periodItem in
    let '(rest', out2) := notifyVideo rest in
    (periodItem' :: rest', out1 ++ out2)
  end.

(** [_resetVideoTrackChoices]. *)
Definition _resetVideoTrackChoices (this : manager) : effect :=
  let store1 := map (resetVideoChoice (trickModeTrackEnabled this)) (_store this) in
  let '(store2, out) := notifyVideo store1 in
  {| ending := Returned; after := withStore this store2;
     emitted := out; warnings := [] |}.

Definition unchanged (this : manager) : effect :=
  {| ending := Returned; after := this; emitted := []; warnings := [] |}.

(** [disableVideoTrickModeTracks] and [enableVideoTrickModeTracks]. *)
Definition disableVideoTrickModeTracks (this : manager) : effect :=
  if negb (trickModeTrackEnabled this) then unchanged this
  else _resetVideoTrackChoices
         {| _store := _store this; trickModeTrackEnabled := false |}.

Definition enableVideoTrickModeTracks (this : manager) : effect :=
  if trickModeTrackEnabled this then unchanged this
  else _resetVideoTrackChoices
         {| _store := _store this; trickModeTrackEnabled := true |}.

(** [resetSubjects]. *)
Definition resetSubjects (this : manager) : manager :=
  let clear (info : ITrackPeriodInfo) :=
    {| wantedTrack := wantedTrack info;
       lastEmittedTrack := lastEmittedTrack info;
       TrackChoiceManager.subject := None |} in
  withStore this
    (map (fun periodItem =>
            setTrackOf text (clear (trackOf text periodItem))
              (setTrackOf video (clear (trackOf video periodItem))
                 (setTrackOf audio (clear (trackOf audio periodItem)) periodItem)))
         (_store this)).

(** The Period objects of a list of records, in order. *)
Definition periodsOf (l : list tagged) : list PeriodRef :=
  map (fun item => period (fst item)) l.

(** Records or Periods in increasing order of start, ties allowed. *)
Definition startsInOrder (h : heap) (periods : list PeriodRef) : Prop :=
  StronglySorted (fun a b => p_start (h a) <= p_start (h b)) periods.

(** ** Properties *)

Lemma getPeriodItemFrom_write (h : heap) (periodId : string)
      (store : list ITMPeriodInfos) :
  forall k i periodItem periodItem',
    getPeriodItemFrom h k store periodId = Some (i, periodItem) ->
    period periodItem' = period periodItem ->
    getPeriodItemFrom h k (writeItem (i - k) periodItem' store) periodId
    = Some (i, periodItem')
    /\ (k <= i)%nat.
Proof.
  induction store as [|x rest IH]; intros k i periodItem periodItem' Hget Hp;
    [discriminate|].
  cbn [getPeriodItemFrom] in Hget.
  destruct (String.eqb (p_id (h (period x))) periodId) eqn:E.
  - injection Hget as <- <-. rewrite Nat.sub_diag. cbn [writeItem getPeriodItemFrom].
    rewrite Hp, E. split; [reflexivity | lia].
  - destruct (IH (S k) i periodItem periodItem' Hget Hp) as [H1 H2].
    replace (i - k)%nat with (S (i - S k)) by lia.
    cbn [writeItem getPeriodItemFrom]. rewrite E. split; [exact H1 | lia].
Qed.

Lemma getPeriodItem_write (h : heap) (periodId : string)
      (store : list ITMPeriodInfos) i periodItem periodItem' :
  getPeriodItem h store periodId = Some (i, periodItem) ->
  period periodItem' = period periodItem ->
  getPeriodItem h (writeItem i periodItem' store) periodId = Some (i, periodItem').
Proof.
  intros Hget Hp. unfold getPeriodItem in *.
  destruct (getPeriodItemFrom_write h periodId store 0 i periodItem periodItem'
              Hget Hp) as [H _].
  now rewrite Nat.sub_0_r in H.
Qed.

Lemma writeItem_twice i a b (store : list ITMPeriodInfos) :
  writeItem i a (writeItem i b store) = writeItem i a store.
Proof.
  revert i. induction store as [|x rest IH]; intros [|i]; cbn; try reflexivity.
  now rewrite IH.
Qed.

Lemma writeItem_same (h : heap) (periodId : string) (store : list ITMPeriodInfos) :
  forall k i periodItem,
    getPeriodItemFrom h k store periodId = Some (i, periodItem) ->
    writeItem (i - k) periodItem store = store.
Proof.
  induction store as [|x rest IH]; intros k i periodItem Hget; [discriminate|].
  cbn [getPeriodItemFrom] in Hget.
  destruct (String.eqb (p_id (h (period x))) periodId) eqn:E.
  - injection Hget as <- <-. now rewrite Nat.sub_diag.
  - assert (Hk : (S k <= i)%nat).
    { destruct (getPeriodItemFrom_write h periodId rest (S k) i periodItem periodItem
                  Hget eq_refl) as [_ H]. exact H. }
    replace (i - k)%nat with (S (i - S k)) by lia.
    cbn [writeItem]. now rewrite (IH (S k) i periodItem Hget).
Qed.

Lemma period_setWantedTrackBase base periodItem :
  period (setWantedTrackBase base periodItem) = period periodItem.
Proof. reflexivity. Qed.

Lemma setTrackOf_twice type a b periodItem :
  setTrackOf type a (setTrackOf type b periodItem) = setTrackOf type a periodItem.
Proof. destruct type; reflexivity. Qed.

Lemma setTrackOf_same type periodItem :
  setTrackOf type (trackOf type periodItem) periodItem = periodItem.
Proof. destruct type, periodItem as [? ? [] [] [? []] ?]; reflexivity. Qed.

Lemma trackOf_other type type' info periodItem :
  type <> type' ->
  trackOf type' (setTrackOf type info periodItem) = trackOf type' periodItem.
Proof. intro H. destruct type, type'; try reflexivity; congruence. Qed.

(** X23: when the Period is in the store and one of its supported
    Adaptations of the type has the wanted id, [_setTrackById] returns
    without warning; the track wanted for the type becomes the first such
    Adaptation (for video, its first trick-mode track when trick mode is on
    and it has one, the Adaptation itself becoming the base track); the
    subject of the type, if any, is sent the new track exactly when it is
    not the one wanted before; the records of the two other types and the
    Period of the record are left as they were. *)
Theorem setTrackById_sets_the_track (h : heap) (this : manager)
        (periodId wantedId : string) (type : bufferType)
        (i : nat) (periodItem : ITMPeriodInfos) (wantedAdaptation : Adaptation) :
  getPeriodItem h (_store this) periodId = Some (i, periodItem) ->
  find (fun a => String.eqb (a_id a) wantedId)
       (getSupportedAdaptations (h (period periodItem)) type)
  = Some wantedAdaptation ->
  let result := _setTrackById h this periodId type wantedId in
  let newAdaptation :=
    match type with
    | video => getRightVideoTrack wantedAdaptation (trickModeTrackEnabled this)
    | _ => wantedAdaptation
    end in
  ending result = Returned /\ warnings result = [] /\
  trickModeTrackEnabled (after result) = trickModeTrackEnabled this /\
  exists periodItem',
    getPeriodItem h (_store (after result)) periodId = Some (i, periodItem') /\
    period periodItem' = period periodItem /\
    sameChoice (wantedTrack (trackOf type periodItem')) (Some newAdaptation) = true /\
    (type = video ->
     sameChoice (wantedTrackBase (videoInfo periodItem')) (Some wantedAdaptation)
     = true) /\
    (forall type', type' <> type ->
                   trackOf type' periodItem' = trackOf type' periodItem) /\
    emitted result
    = match TrackChoiceManager.subject (trackOf type periodItem) with
      | Some s =>
        if sameChoice (wantedTrack (trackOf type periodItem)) (Some newAdaptation)
        then [] else [(s, Some newAdaptation)]
      | None => []
      end.
Proof.
  intros Hget Hfind result newAdaptation. unfold result, _setTrackById.
  rewrite Hget. cbv zeta. rewrite Hfind.
  set (periodItem1 :=
         match type with
         | video =>
           if sameChoice (wantedTrackBase (videoInfo periodItem))
                         (Some wantedAdaptation)
           then periodItem
           else setWantedTrackBase (Some wantedAdaptation) periodItem
         | _ => periodItem
         end).
  fold newAdaptation.
  assert (Hp1 : period periodItem1 = period periodItem).
  { unfold periodItem1. destruct type; try reflexivity.
    destruct (sameChoice _ _); reflexivity. }
  assert (Ht1 : forall type', trackOf type' periodItem1 = trackOf type' periodItem).
  { intro type'. unfold periodItem1. destruct type; try reflexivity.
    destruct (sameChoice _ _); [reflexivity|]. destruct type'; reflexivity. }
  assert (Hb1 : type = video ->
                sameChoice (wantedTrackBase (videoInfo periodItem1))
                           (Some wantedAdaptation) = true).
  { intros ->. unfold periodItem1.
    destruct (sameChoice (wantedTrackBase (videoInfo periodItem))
                         (Some wantedAdaptation)) eqn:E; [exact E|].
    cbn. apply Nat.eqb_refl. }
  assert (Hnew : sameChoice (Some newAdaptation) (Some newAdaptation) = true)
    by (cbn; apply Nat.eqb_refl).
  rewrite (Ht1 type).
  destruct (sameChoice (wantedTrack (trackOf type periodItem)) (Some newAdaptation))
    eqn:Esame.
  - cbn [ending warnings after emitted withStore trickModeTrackEnabled _store].
    repeat split.
    exists periodItem1. split; [now apply (getPeriodItem_write h periodId _ i periodItem)|].
    split; [exact Hp1|]. split; [now rewrite Ht1|]. split; [exact Hb1|].
    split; [intros type' _; apply Ht1|].
    destruct (TrackChoiceManager.subject (trackOf type periodItem)); reflexivity.
  - assert (Hitem : forall info',
               wantedTrack info' = Some newAdaptation ->
               let periodItem' := setTrackOf type info' periodItem1 in
               getPeriodItem h (writeItem i periodItem' (_store this)) periodId
               = Some (i, periodItem') /\
               period periodItem' = period periodItem /\
               sameChoice (wantedTrack (trackOf type periodItem'))
                          (Some newAdaptation) = true /\
               (type = video ->
                sameChoice (wantedTrackBase (videoInfo periodItem'))
                           (Some wantedAdaptation) = true) /\
               (forall type', type' <> type ->
                              trackOf type' periodItem' = trackOf type' periodItem)).
    { intros info' Hw periodItem'.
      assert (Hp' : period periodItem' = period periodItem)
        by (unfold periodItem'; now rewrite period_setTrackOf).
      split; [now apply (getPeriodItem_write h periodId _ i periodItem)|].
      split; [exact Hp'|].
      split.
      { unfold periodItem'. rewrite trackOf_setTrackOf.
        destruct (bufferType_eq_dec type type); [|congruence]. now rewrite Hw. }
      split.
      { intro Hv. specialize (Hb1 Hv). unfold periodItem'. subst type. exact Hb1. }
      intros type' Hne. unfold periodItem'.
      rewrite trackOf_other by congruence. apply Ht1. }
    destruct (TrackChoiceManager.subject (trackOf type periodItem)) as [s|] eqn:Es;
      cbn [ending warnings after emitted withStore trickModeTrackEnabled _store];
      repeat split.
    + eexists. destruct (Hitem {| wantedTrack := Some newAdaptation;
                                  lastEmittedTrack := Some (Some newAdaptation);
                                  TrackChoiceManager.subject := Some s |} eq_refl)
        as (H1 & H2 & H3 & H4 & H5).
      split; [exact H1|]. split; [exact H2|]. split; [exact H3|].
      split; [exact H4|]. split; [exact H5 | reflexivity].
    + eexists. destruct (Hitem (setWantedTrack (Some newAdaptation)
                                               (trackOf type periodItem)) eq_refl)
        as (H1 & H2 & H3 & H4 & H5).
      split; [exact H1|]. split; [exact H2|]. split; [exact H3|].
      split; [exact H4|]. split; [exact H5 | reflexivity].
Qed.

(** X24: [disableTrack] on a Period of the store leaves no track wanted for
    the type and keeps the base video track, the Period and the records of
    the other types.  For audio and text, the subject of the type, if any, is
    sent [null] exactly when a track was wanted; for video nothing is ever
    sent, whether a subject is there or not.  On a Period that is not in the
    store it logs a warning and changes nothing. *)
Theorem disableTrack_effect (h : heap) (this : manager) (periodId : string)
        (type : bufferType) :
  match getPeriodItem h (_store this) periodId with
  | None =>
    disableTrack h this periodId type
    = {| ending := Returned; after := this; emitted := [];
         warnings := ["TrackChoiceManager: Given Period not found."%string] |}
  | Some (i, periodItem) =>
    let result := disableTrack h this periodId type in
    ending result = Returned /\ warnings result = [] /\
    (exists periodItem',
        getPeriodItem h (_store (after result)) periodId = Some (i, periodItem') /\
        period periodItem' = period periodItem /\
        wantedTrack (trackOf type periodItem') = None /\
        wantedTrackBase (videoInfo periodItem')
        = wantedTrackBase (videoInfo periodItem) /\
        (forall type', type' <> type ->
                       trackOf type' periodItem' = trackOf type' periodItem)) /\
    emitted result
    = match type, wantedTrack (trackOf type periodItem),
            TrackChoiceManager.subject (trackOf type periodItem) with
      | video, _, _ => []
      | _, Some _, Some s => [(s, None)]
      | _, _, _ => []
      end
  end.
Proof.
  destruct (getPeriodItem h (_store this) periodId) as [[i periodItem]|] eqn:Hget.
  2:{ unfold disableTrack. now rewrite Hget. }
  cbv zeta. unfold disableTrack. rewrite Hget.
  assert (Hwrite : forall periodItem',
             period periodItem' = period periodItem ->
             getPeriodItem h (writeItem i periodItem' (_store this)) periodId
             = Some (i, periodItem'))
    by (intros; now apply (getPeriodItem_write h periodId _ i periodItem)).
  destruct type.
  - (* audio *)
    destruct (wantedTrack (trackOf audio periodItem)) as [a|] eqn:Ew.
    + destruct (TrackChoiceManager.subject (trackOf audio periodItem)) as [s|];
        cbn [ending warnings after emitted withStore _store];
        repeat split; eexists; (split; [apply Hwrite; reflexivity|]);
        repeat split; intros type' Hne; destruct type'; try reflexivity; congruence.
    + cbn [ending warnings after emitted withStore _store].
      repeat split. exists periodItem. split; [now apply Hwrite|].
      repeat split. exact Ew.
  - (* video *)
    cbn [trackOf setTrackOf videoInfo videoTrack setWantedTrack wantedTrack
         ending warnings after emitted withStore _store].
    repeat split. eexists. split; [apply Hwrite; reflexivity|].
    repeat split. intros type' Hne. destruct type'; try reflexivity; congruence.
  - (* text *)
    destruct (wantedTrack (trackOf text periodItem)) as [a|] eqn:Ew.
    + destruct (TrackChoiceManager.subject (trackOf text periodItem)) as [s|];
        cbn [ending warnings after emitted withStore _store];
        repeat split; eexists; (split; [apply Hwrite; reflexivity|]);
        repeat split; intros type' Hne; destruct type'; try reflexivity; congruence.
    + cbn [ending warnings after emitted withStore _store].
      repeat split. exists periodItem. split; [now apply Hwrite|].
      repeat split. exact Ew.
Qed.

(** X25: for a Period of the store that is still in the Manifest and has no
    subject for the type, [addTrackChoiceSubject] sends the wanted track, and
    nothing else, through the new subject and records it as the last track
    emitted; a second call for the same type and Period sends nothing and
    changes nothing; [removeTrackChoiceSubject] then gives back the store as
    it was, with no last emitted track for the type. *)
Theorem subject_round_trip (h : heap) (this : manager) (type : bufferType)
        (period : PeriodRef) (s s' : SubjectRef)
        (i : nat) (periodItem : ITMPeriodInfos) :
  getPeriodItem h (_store this) (p_id (h period)) = Some (i, periodItem) ->
  TrackChoiceManager.subject (trackOf type periodItem) = None ->
  inManifest periodItem = true ->
  let added := addTrackChoiceSubject h this type period s in
  let again := addTrackChoiceSubject h (after added) type period s' in
  let removed := removeTrackChoiceSubject h (after added) type period in
  emitted added = [(s, wantedTrack (trackOf type periodItem))] /\
  getPeriodItem h (_store (after added)) (p_id (h period))
  = Some (i, setTrackOf type
                {| wantedTrack := wantedTrack (trackOf type periodItem);
                   lastEmittedTrack := Some (wantedTrack (trackOf type periodItem));
                   TrackChoiceManager.subject := Some s |}
                periodItem) /\
  emitted again = [] /\ after again = after added /\
  emitted removed = [] /\ warnings removed = [] /\
  _store (after removed)
  = writeItem i
      (setTrackOf type
         {| wantedTrack := wantedTrack (trackOf type periodItem);
            lastEmittedTrack := None;
            TrackChoiceManager.subject := None |}
         periodItem)
      (_store this) /\
  (lastEmittedTrack (trackOf type periodItem) = None ->
   _store (after removed) = _store this).
Proof.
  intros Hget Hsub Hin added again removed.
  set (item1 := setTrackOf type
                  {| wantedTrack := wantedTrack (trackOf type periodItem);
                     lastEmittedTrack := Some (wantedTrack (trackOf type periodItem));
                     TrackChoiceManager.subject := Some s |}
                  periodItem).
  assert (Hadded : added
                   = {| ending := Returned;
                        after := withStore this (writeItem i item1 (_store this));
                        emitted := [(s, wantedTrack (trackOf type periodItem))];
                        warnings := [] |}).
  { unfold added, addTrackChoiceSubject. rewrite Hget, Hsub. reflexivity. }
  assert (Hget1 : getPeriodItem h (writeItem i item1 (_store this)) (p_id (h period))
                  = Some (i, item1)).
  { apply (getPeriodItem_write h _ _ i periodItem); [exact Hget|].
    unfold item1. now rewrite period_setTrackOf. }
  assert (Ht1 : trackOf type item1
                = {| wantedTrack := wantedTrack (trackOf type periodItem);
                     lastEmittedTrack := Some (wantedTrack (trackOf type periodItem));
                     TrackChoiceManager.subject := Some s |}).
  { unfold item1. rewrite trackOf_setTrackOf.
    destruct (bufferType_eq_dec type type); [reflexivity | congruence]. }
  assert (Hremoved :
            _store (after removed)
            = writeItem i
                (setTrackOf type
                   {| wantedTrack := wantedTrack (trackOf type periodItem);
                      lastEmittedTrack := None;
                      TrackChoiceManager.subject := None |}
                   periodItem)
                (_store this)
            /\ emitted removed = [] /\ warnings removed = []).
  { unfold removed, removeTrackChoiceSubject, findPeriodIndex.
    rewrite Hadded. cbn [after withStore _store].
    fold (getPeriodItem h (writeItem i item1 (_store this)) (p_id (h period))).
    rewrite Hget1, Ht1. cbn [TrackChoiceManager.subject wantedTrack].
    unfold item1 at 1 2. rewrite setTrackOf_twice.
    assert (Hkeep : isPeriodItemRemovable
                      (setTrackOf type
                         {| wantedTrack := wantedTrack (trackOf type periodItem);
                            lastEmittedTrack := None;
                            TrackChoiceManager.subject := None |} periodItem)
                    = false).
    { unfold isPeriodItemRemovable.
      replace (inManifest (setTrackOf type _ periodItem)) with true
        by (destruct type; cbn; now rewrite Hin).
      reflexivity. }
    rewrite Hkeep. cbn [after emitted warnings withStore _store].
    rewrite writeItem_twice. unfold item1. rewrite setTrackOf_twice. easy. }
  destruct Hremoved as (Hr1 & Hr2 & Hr3).
  split; [now rewrite Hadded|].
  split; [rewrite Hadded; exact Hget1|].
  assert (Hagain : emitted again = [] /\ after again = after added).
  { unfold again, addTrackChoiceSubject. rewrite Hadded.
    cbn [after withStore _store]. rewrite Hget1, Ht1. split; reflexivity. }
  split; [apply Hagain|]. split; [apply Hagain|].
  split; [exact Hr2|]. split; [exact Hr3|]. split; [exact Hr1|].
  intro Hlast. rewrite Hr1.
  replace {| wantedTrack := wantedTrack (trackOf type periodItem);
             lastEmittedTrack := None;
             TrackChoiceManager.subject := None |}
    with (trackOf type periodItem)
    by (destruct (trackOf type periodItem) as [w l sb]; cbn in *; congruence).
  rewrite setTrackOf_same.
  unfold getPeriodItem in Hget.
  rewrite <- (Nat.sub_0_r i). exact (writeItem_same h _ _ 0 i periodItem Hget).
Qed.

Lemma generatePeriodInfo_fresh h trick p inManifest0 periodInfo :
  generatePeriodInfo h trick p inManifest0 = Some periodInfo ->
  period periodInfo = p /\ inManifest periodInfo = inManifest0 /\
  forall type, TrackChoiceManager.subject (trackOf type periodInfo) = None
               /\ lastEmittedTrack (trackOf type periodInfo) = None.
Proof.
  unfold generatePeriodInfo.
  destruct (hd_error (getSupportedAdaptations (h p) video)) as [base|];
    [|destruct trick; [discriminate|]];
    intros [= <-]; repeat split; destruct type; reflexivity.
Qed.

(** [_insertNonManifestPeriodInStore] keeps a store that is in order of
    start in order. *)
Lemma insertByStart_order (h : heap) (periodInfo : ITMPeriodInfos)
      (store : list ITMPeriodInfos) :
  startsInOrder h (map period store) ->
  startsInOrder h (map period (insertByStart h periodInfo store)).
Proof.
  induction store as [|x rest IH]; intro Hs; [repeat constructor|].
  inversion Hs as [|? ? Hs' Hall]; subst.
  cbn [insertByStart].
  destruct (Qlt_bool (p_start (h (period periodInfo))) (p_start (h (period x))))
    eqn:E.
  - apply Qlt_bool_iff in E. cbn [map]. constructor; [exact Hs|].
    constructor; [now apply Qlt_le_weak|].
    eapply Forall_impl; [|exact Hall]. intros y Hy. cbn in Hy. lra.
  - apply Qlt_bool_false in E. cbn [map]. constructor; [now apply IH|].
    rewrite Forall_forall in *. intros y Hy.
    apply in_map_iff in Hy. destruct Hy as (o & <- & Ho).
    assert (Hin : In o (periodInfo :: rest)).
    { clear -Ho. induction rest as [|z rest IH]; cbn [insertByStart] in Ho.
      - exact Ho.
      - destruct (Qlt_bool _ _); [exact Ho|].
        destruct Ho as [<-|Ho]; [right; now left|].
        destruct (IH Ho) as [<-|H]; [now left | right; now right]. }
    destruct Hin as [<-|Hin]; [exact E|].
    apply Hall. now apply in_map.
Qed.

Lemma getPeriodItemFrom_insert (h : heap) (periodInfo : ITMPeriodInfos)
      (store : list ITMPeriodInfos) :
  forall k,
    getPeriodItemFrom h k store (p_id (h (period periodInfo))) = None ->
    exists i, getPeriodItemFrom h k (insertByStart h periodInfo store)
                                (p_id (h (period periodInfo)))
              = Some (i, periodInfo).
Proof.
  induction store as [|x rest IH]; intros k Hnone.
  - exists k. cbn. now rewrite String.eqb_refl.
  - cbn [getPeriodItemFrom] in Hnone.
    destruct (String.eqb (p_id (h (period x))) (p_id (h (period periodInfo))))
      eqn:E; [discriminate|].
    cbn [insertByStart]. destruct (Qlt_bool _ _).
    + exists k. cbn [getPeriodItemFrom]. now rewrite String.eqb_refl.
    + cbn [getPeriodItemFrom]. rewrite E. now apply IH.
Qed.

Lemma insertByStart_length h periodInfo store :
  List.length (insertByStart h periodInfo store) = S (List.length store).
Proof.
  induction store as [|x rest IH]; [reflexivity|].
  cbn [insertByStart]. destruct (Qlt_bool _ _); cbn; [reflexivity | now rewrite IH].
Qed.

(** X26: for a Period that is not in the store, [addTrackChoiceSubject]
    ends in one of two ways.  When trick mode is enabled and the Period has
    no supported video Adaptation, and only then, it throws the [TypeError]
    of [getRightVideoTrack]: the store is left as it was and nothing is sent.
    Otherwise it adds a record for the Period, marked as not in the
    Manifest, at a place that keeps the store in order of start, and sends
    the track wanted by default through the subject, but does not keep the
    subject in the record: [removeTrackChoiceSubject] for the same type and
    Period then only logs a warning and leaves the record in the store. *)
Theorem subject_of_unknown_period_is_not_kept
        (h : heap) (this : manager) (type : bufferType)
        (period : PeriodRef) (s : SubjectRef) :
  getPeriodItem h (_store this) (p_id (h period)) = None ->
  let added := addTrackChoiceSubject h this type period s in
  let removed := removeTrackChoiceSubject h (after added) type period in
  (generatePeriodInfo h (trickModeTrackEnabled this) period false = None <->
   trickModeTrackEnabled this = true /\
   getSupportedAdaptations (h period) video = []) /\
  match generatePeriodInfo h (trickModeTrackEnabled this) period false with
  | None =>
    added = {| ending := Thrown "TypeError"; after := this; emitted := [];
               warnings := [] |}
  | Some periodInfo =>
    ending added = Returned /\
    emitted added = [(s, wantedTrack (trackOf type periodInfo))] /\
    List.length (_store (after added)) = S (List.length (_store this)) /\
    (startsInOrder h (map TrackChoiceManager.period (_store this)) ->
     startsInOrder h (map TrackChoiceManager.period (_store (after added)))) /\
    (exists i periodItem,
        getPeriodItem h (_store (after added)) (p_id (h period))
        = Some (i, periodItem) /\
        inManifest periodItem = false /\
        (forall type', TrackChoiceManager.subject (trackOf type' periodItem) = None) /\
        (forall type', wantedTrack (trackOf type' periodItem)
                       = wantedTrack (trackOf type' periodInfo))) /\
    after removed = after added /\ emitted removed = [] /\
    warnings removed
    = [("TrackChoiceManager: Subject already removed for " ++ typeName type
        ++ " and Period " ++ p_id (h period))%string]
  end.
Proof.
  intros Hnone added removed. split.
  { unfold generatePeriodInfo.
    destruct (getSupportedAdaptations (h period) video) as [|base others];
      cbn [hd_error]; destruct (trickModeTrackEnabled this); split;
      try discriminate; try (intros [_ H]; discriminate H);
      try (intros [H _]; discriminate H); try reflexivity.
    intros _. split; reflexivity. }
  destruct (generatePeriodInfo h (trickModeTrackEnabled this) period false)
    as [periodInfo|] eqn:Hgen.
  2:{ unfold added, addTrackChoiceSubject. rewrite Hnone, Hgen. reflexivity. }
  destruct (generatePeriodInfo_fresh _ _ _ _ _ Hgen) as (Hp & Hin & Hfresh).
  set (periodItem :=
         setTrackOf type
           {| wantedTrack := wantedTrack (trackOf type periodInfo);
              lastEmittedTrack := Some (wantedTrack (trackOf type periodInfo));
              TrackChoiceManager.subject :=
                TrackChoiceManager.subject (trackOf type periodInfo) |}
           periodInfo).
  assert (Hadded : added
                   = {| ending := Returned;
                        after := withStore this
                                   (insertByStart h periodItem (_store this));
                        emitted := [(s, wantedTrack (trackOf type periodInfo))];
                        warnings := [] |}).
  { unfold added, addTrackChoiceSubject. rewrite Hnone, Hgen. reflexivity. }
  assert (Hpi : TrackChoiceManager.period periodItem = period)
    by (unfold periodItem; now rewrite period_setTrackOf).
  assert (Hsubj : forall type',
             TrackChoiceManager.subject (trackOf type' periodItem) = None).
  { intro type'. unfold periodItem. rewrite trackOf_setTrackOf.
    destruct (bufferType_eq_dec type' type) as [->|]; apply Hfresh. }
  assert (Hwanted : forall type',
             wantedTrack (trackOf type' periodItem)
             = wantedTrack (trackOf type' periodInfo)).
  { intro type'. unfold periodItem. rewrite trackOf_setTrackOf.
    destruct (bufferType_eq_dec type' type) as [->|]; reflexivity. }
  assert (Hfind : exists i,
             getPeriodItem h (insertByStart h periodItem (_store this))
                           (p_id (h period)) = Some (i, periodItem)).
  { unfold getPeriodItem in *. rewrite <- Hpi.
    apply getPeriodItemFrom_insert. now rewrite Hpi. }
  destruct Hfind as [i Hfind].
  rewrite Hadded. cbn [ending emitted after withStore _store].
  split; [reflexivity|]. split; [reflexivity|].
  split; [apply insertByStart_length|].
  split; [apply insertByStart_order|].
  split.
  { exists i, periodItem. split; [exact Hfind|].
    split; [unfold periodItem; destruct type; exact Hin|].
    split; [exact Hsubj | exact Hwanted]. }
  unfold removed, removeTrackChoiceSubject, findPeriodIndex. rewrite Hadded.
  cbn [after withStore _store].
  fold (getPeriodItem h (insertByStart h periodItem (_store this)) (p_id (h period))).
  rewrite Hfind, (Hsubj type). repeat split.
Qed.

Lemma resetVideoChoice_spec trick periodItem :
  let periodItem' := resetVideoChoice trick periodItem in
  period periodItem' = period periodItem /\
  wantedTrackBase (videoInfo periodItem') = wantedTrackBase (videoInfo periodItem) /\
  wantedTrack (trackOf video periodItem')
  = option_map (fun base => getRightVideoTrack base trick)
               (wantedTrackBase (videoInfo periodItem)) /\
  TrackChoiceManager.subject (trackOf video periodItem')
  = TrackChoiceManager.subject (trackOf video periodItem) /\
  lastEmittedTrack (trackOf video periodItem')
  = lastEmittedTrack (trackOf video periodItem) /\
  trackOf audio periodItem' = trackOf audio periodItem /\
  trackOf text periodItem' = trackOf text periodItem.
Proof.
  unfold resetVideoChoice.
  destruct (wantedTrackBase (videoInfo periodItem)) eqn:E; cbn; rewrite ?E;
    repeat split; reflexivity.
Qed.

Lemma notifyTrack_video periodItem :
  let '(periodItem', out) := notifyTrack video periodItem in
  period periodItem' = period periodItem /\
  wantedTrackBase (videoInfo periodItem') = wantedTrackBase (videoInfo periodItem) /\
  wantedTrack (trackOf video periodItem') = wantedTrack (trackOf video periodItem) /\
  trackOf audio periodItem' = trackOf audio periodItem /\
  trackOf text periodItem' = trackOf text periodItem /\
  out = match TrackChoiceManager.subject (trackOf video periodItem) with
        | Some s =>
          if differsFromLastEmitted (trackOf video periodItem)
          then [(s, wantedTrack (trackOf video periodItem))] else []
        | None => []
        end.
Proof.
  unfold notifyTrack.
  destruct (TrackChoiceManager.subject (trackOf video periodItem)) as [s|];
    [destruct (differsFromLastEmitted (trackOf video periodItem))|];
    repeat split; reflexivity.
Qed.

(** What [_resetVideoTrackChoices] makes of a record with the given
    trick-mode setting: the wanted video track follows the base track, the
    rest is kept. *)
Definition videoFollowsBase (trick : bool) (before after : ITMPeriodInfos) : Prop :=
  period after = period before /\
  wantedTrackBase (videoInfo after) = wantedTrackBase (videoInfo before) /\
  wantedTrack (trackOf video after)
  = option_map (fun base => getRightVideoTrack base trick)
               (wantedTrackBase (videoInfo before)) /\
  trackOf audio after = trackOf audio before /\
  trackOf text after = trackOf text before.

(** What is sent for a record: the new wanted video track, to the subject of
    the video record, when it is not the last one emitted. *)
Definition videoEmission (trick : bool) (before : ITMPeriodInfos) : list emission :=
  let wanted := option_map (fun base => getRightVideoTrack base trick)
                           (wantedTrackBase (videoInfo before)) in
  match TrackChoiceManager.subject (trackOf video before) with
  | Some s =>
    if differs (lastEmittedTrack (trackOf video before)) wanted
    then [(s, wanted)] else []
  | None => []
  end.

Lemma resetVideoTrackChoices_spec (store : list ITMPeriodInfos) (trick : bool) :
  let '(store', out) := notifyVideo (map (resetVideoChoice trick) store) in
  Forall2 (videoFollowsBase trick) store store' /\
  out = flat_map (videoEmission trick) store.
Proof.
  induction store as [|x rest IH]; [split; [constructor | reflexivity]|].
  cbn [map notifyVideo flat_map].
  assert (Hn := notifyTrack_video (resetVideoChoice trick x)).
  destruct (notifyTrack video (resetVideoChoice trick x)) as [x' out1].
  destruct (notifyVideo (map (resetVideoChoice trick) rest)) as [rest' out2].
  destruct IH as [IH1 IH2].
  destruct (resetVideoChoice_spec trick x) as (R1 & R2 & R3 & R4 & R5 & R6 & R7).
  destruct Hn as (N1 & N2 & N3 & N4 & N5 & N6).
  split.
  - constructor; [|exact IH1]. unfold videoFollowsBase.
    repeat split; congruence.
  - rewrite N6, IH2. f_equal. unfold videoEmission, differsFromLastEmitted.
    rewrite R4, R5, R3. reflexivity.
Qed.

(** X27: switching the trick-mode tracks on or off makes, in every record
    of the store, the wanted video track follow the base video track (its
    first trick-mode track when they are switched on and it has one, the base
    track itself otherwise, no track when there is no base track), whatever
    the wanted video track was, keeps the base track and the audio and text
    records, and sends each new wanted video track that is not the last one
    emitted through the video subject of its record, in the order of the
    store; switching to the setting already in force does nothing. *)
Theorem trick_mode_switch (this : manager) (enable : bool) :
  let result := if enable then enableVideoTrickModeTracks this
                else disableVideoTrickModeTracks this in
  if Bool.eqb (trickModeTrackEnabled this) enable
  then result = unchanged this
  else ending result = Returned /\
       trickModeTrackEnabled (after result) = enable /\
       Forall2 (videoFollowsBase enable) (_store this) (_store (after result)) /\
       emitted result = flat_map (videoEmission enable) (_store this).
Proof.
  cbv zeta. unfold enableVideoTrickModeTracks, disableVideoTrickModeTracks.
  destruct enable, (trickModeTrackEnabled this) eqn:Et; cbn [Bool.eqb negb];
    try reflexivity; unfold _resetVideoTrackChoices;
    cbn [trickModeTrackEnabled _store].
  - assert (H := resetVideoTrackChoices_spec (_store this) true).
    destruct (notifyVideo _) as [store' out]. destruct H as [H1 H2].
    cbn. repeat split; assumption.
  - assert (H := resetVideoTrackChoices_spec (_store this) false).
    destruct (notifyVideo _) as [store' out]. destruct H as [H1 H2].
    cbn. repeat split; assumption.
Qed.

(** ** The order of the store *)

Section Merge.

Variables (h : heap) (trick : bool).

Lemma periodsOf_app (a b : list tagged) :
  periodsOf (a ++ b) = (periodsOf a ++ periodsOf b)%list.
Proof. apply map_app. Qed.

Lemma periodsOf_retire old :
  incl (periodsOf (retire old)) [period old].
Proof.
  unfold retire. destruct (isPeriodItemRemovable _); cbn; intros x Hx;
    [destruct Hx | exact Hx].
Qed.

Lemma generateAll_periods periods added :
  generateAll h trick periods = Some added -> periodsOf added = periods.
Proof.
  revert added. induction periods as [|p rest IH]; intros added H.
  - injection H as <-. reflexivity.
  - cbn [generateAll] in H.
    destruct (generatePeriodInfo h trick p true) as [info|] eqn:E; [|discriminate].
    destruct (generateAll h trick rest) as [infos|]; [|discriminate].
    injection H as <-. cbn. f_equal; [|exact (IH infos eq_refl)].
    now destruct (generatePeriodInfo_fresh _ _ _ _ _ E) as [-> _].
Qed.

Lemma reconcile_period old : period (fst (reconcile h trick old)) = period old.
Proof. unfold reconcile. now rewrite !reconcileTrack_period. Qed.

Lemma sorted_weaken periods :
  sortedPeriods h periods -> startsInOrder h periods.
Proof.
  induction 1 as [|p rest Hs IH Hall]; constructor; [exact IH|].
  eapply Forall_impl; [|exact Hall]. intros x Hx. now apply Qlt_le_weak.
Qed.

Lemma sorted_cons_incl (x : PeriodRef) (l : list PeriodRef) :
  startsInOrder h l ->
  (forall y, In y l -> p_start (h x) <= p_start (h y)) ->
  startsInOrder h (x :: l).
Proof.
  intros Hs Hall. constructor; [exact Hs|]. now apply Forall_forall.
Qed.

(** The loops of [updatePeriodList] merge the store and the new list: the
    result is in order of start, holds every Period of the new list and
    nothing but Periods of the store or of the new list. *)
Lemma mergePeriods_order (olds : list ITMPeriodInfos) :
  forall periods,
    sortedStore h olds -> sortedPeriods h periods ->
    raised (mergePeriods h trick olds periods) = false ->
    let result := periodsOf (items (mergePeriods h trick olds periods)) in
    startsInOrder h result /\
    incl periods result /\
    incl result (map period olds ++ periods).
Proof.
  induction olds as [|old olds IHo]; intros periods Hso Hsp Hr.
  - rewrite mergePeriods_nil in *.
    destruct (generateAll h trick periods) as [added|] eqn:E; [|discriminate Hr].
    cbn [items]. cbv zeta. rewrite (generateAll_periods _ _ E).
    split; [now apply sorted_weaken|]. split; apply incl_refl.
  - inversion Hso as [|? ? Hso' Hlt]; subst.
    rewrite Forall_forall in Hlt.
    induction periods as [|newPeriod periods IHp].
    + rewrite mergePeriods_cons_nil in *. rewrite raised_consItems in Hr.
      destruct (IHo [] Hso' Hsp Hr) as (I1 & I2 & I3).
      cbv zeta. cbn [items consItems]. rewrite periodsOf_app.
      assert (Hret := periodsOf_retire old).
      split; [|split].
      * destruct (periodsOf (retire old)) as [|x [|y l]] eqn:Eret.
        -- exact I1.
        -- assert (x = period old) by (destruct (Hret x (or_introl eq_refl)) as [H|[]];
                                       now symmetry).
           subst x. cbn. apply sorted_cons_incl; [exact I1|].
           intros y Hy. apply I3 in Hy. rewrite app_nil_r in Hy.
           apply in_map_iff in Hy. destruct Hy as (o & <- & Ho).
           apply Qlt_le_weak. now apply Hlt.
        -- exfalso. unfold retire in Eret.
           destruct (isPeriodItemRemovable _); discriminate Eret.
      * intros x [].
      * intros x Hx. apply in_app_or in Hx. rewrite app_nil_r.
        destruct Hx as [Hx|Hx].
        -- apply Hret in Hx. destruct Hx as [<-|[]]. now left.
        -- apply I3 in Hx. rewrite app_nil_r in Hx. now right.
    + inversion Hsp as [|? ? Hsp' Hltp]; subst.
      rewrite Forall_forall in Hltp.
      rewrite mergePeriods_cons_cons in *.
      destruct (Nat.eqb (period old) newPeriod) eqn:Esame.
      * apply Nat.eqb_eq in Esame. rewrite raised_consItems in Hr.
        destruct (IHo periods Hso' Hsp' Hr) as (I1 & I2 & I3).
        cbv zeta. cbn [items consItems]. rewrite periodsOf_app.
        change (periodsOf [reconcile h trick old])
          with [period (fst (reconcile h trick old))].
        rewrite reconcile_period. cbn [app].
        split; [|split].
        -- apply sorted_cons_incl; [exact I1|].
           intros y Hy. apply I3 in Hy. apply in_app_or in Hy.
           destruct Hy as [Hy|Hy].
           ++ apply in_map_iff in Hy. destruct Hy as (o & <- & Ho).
              apply Qlt_le_weak. now apply Hlt.
           ++ rewrite Esame. apply Qlt_le_weak. now apply Hltp.
        -- intros x [<-|Hx]; [now left | right; now apply I2].
        -- intros x [<-|Hx]; [now left|].
           apply I3 in Hx. apply in_app_or in Hx. cbn.
           destruct Hx as [Hx|Hx]; [right; apply in_or_app; now left|].
           right. apply in_or_app. right. now right.
      * destruct (Qle_bool (p_start (h (period old))) (p_start (h newPeriod)))
          eqn:Ele.
        -- apply Qle_bool_iff in Ele. rewrite raised_consItems in Hr.
           destruct (IHo (newPeriod :: periods) Hso' Hsp Hr) as (I1 & I2 & I3).
           cbv zeta. cbn [items consItems]. rewrite periodsOf_app.
           assert (Hret := periodsOf_retire old).
           split; [|split].
           ++ destruct (periodsOf (retire old)) as [|x [|y l]] eqn:Eret.
              ** exact I1.
              ** assert (x = period old)
                   by (destruct (Hret x (or_introl eq_refl)) as [H|[]]; now symmetry).
                 subst x. cbn. apply sorted_cons_incl; [exact I1|].
                 intros y Hy. apply I3 in Hy. apply in_app_or in Hy.
                 destruct Hy as [Hy|[<-|Hy]].
                 --- apply in_map_iff in Hy. destruct Hy as (o & <- & Ho).
                     apply Qlt_le_weak. now apply Hlt.
                 --- exact Ele.
                 --- specialize (Hltp _ Hy). lra.
              ** exfalso. unfold retire in Eret.
                 destruct (isPeriodItemRemovable _); discriminate Eret.
           ++ intros x Hx. apply in_or_app. right. now apply I2.
           ++ intros x Hx. apply in_app_or in Hx. destruct Hx as [Hx|Hx].
              ** apply Hret in Hx. destruct Hx as [<-|[]]. now left.
              ** apply I3 in Hx. apply in_app_or in Hx. cbn.
                 destruct Hx as [Hx|Hx]; [right; apply in_or_app; now left|].
                 right. apply in_or_app. now right.
        -- apply Qle_bool_false in Ele.
           destruct (generatePeriodInfo h trick newPeriod true) as [info|] eqn:Egen;
             [|discriminate Hr].
           rewrite raised_consItems in Hr.
           destruct (IHp Hsp' Hr) as (I1 & I2 & I3).
           destruct (generatePeriodInfo_fresh _ _ _ _ _ Egen) as [Hp _].
           cbv zeta. cbn [items consItems]. rewrite periodsOf_app.
           change (periodsOf [(info, [])]) with [period info].
           rewrite Hp. cbn [app].
           split; [|split].
           ++ apply sorted_cons_incl; [exact I1|].
              intros y Hy. apply I3 in Hy. apply in_app_or in Hy.
              destruct Hy as [[<-|Hy]|Hy].
              ** now apply Qlt_le_weak.
              ** apply in_map_iff in Hy. destruct Hy as (o & <- & Ho).
                 specialize (Hlt _ Ho). lra.
              ** apply Qlt_le_weak. now apply Hltp.
           ++ intros x [<-|Hx]; [now left | right; now apply I2].
           ++ intros x [<-|Hx].
              ** apply in_or_app. right. now left.
              ** apply I3 in Hx. apply in_app_or in Hx. apply in_or_app.
                 destruct Hx as [Hx|Hx]; [now left | right; now right].
Qed.

End Merge.

Lemma notifyTracks_period types :
  forall periodItem, period (fst (notifyTracks types periodItem)) = period periodItem.
Proof.
  induction types as [|type rest IH]; intro periodItem; [reflexivity|].
  cbn [notifyTracks].
  assert (H := notifyTrack_spec type type periodItem). cbv zeta in H.
  destruct H as [Hp _].
  destruct (notifyTrack type periodItem) as [periodItem1 out1]. cbn [fst] in Hp.
  specialize (IH periodItem1).
  destruct (notifyTracks rest periodItem1) as [periodItem2 out2].
  cbn [fst] in *. congruence.
Qed.

Lemma notifyAll_periods (l : list tagged) :
  map period (fst (notifyAll l)) = periodsOf l.
Proof.
  induction l as [|[periodItem types] rest IH]; [reflexivity|].
  cbn [notifyAll]. assert (H := notifyTracks_period types periodItem).
  destruct (notifyTracks types periodItem) as [periodItem' out1].
  destruct (notifyAll rest) as [store out2]. cbn [fst] in *. cbn.
  now rewrite H, IH.
Qed.

(** X28: when the store and the new list of Periods are each in strictly
    increasing order of start and [updatePeriodList] returns, the store it
    leaves is in increasing order of start, holds a record for every Period
    of the new list, and holds no record but for Periods of the new list or
    of the store it was given. *)
Theorem updatePeriodList_keeps_the_store_ordered
        (h : heap) (this : manager) (periods : list PeriodRef) :
  sortedStore h (_store this) ->
  sortedPeriods h periods ->
  ending (updatePeriodList h this periods) = Returned ->
  let store := map period (_store (after (updatePeriodList h this periods))) in
  startsInOrder h store /\
  incl periods store /\
  incl store (map period (_store this) ++ periods).
Proof.
  intros Hso Hsp. unfold updatePeriodList.
  destruct (raised (mergePeriods h (trickModeTrackEnabled this) (_store this) periods))
    eqn:Hr; [discriminate|].
  intros _.
  assert (H := mergePeriods_order h (trickModeTrackEnabled this) (_store this)
                                  periods Hso Hsp Hr).
  assert (Hn := notifyAll_periods
                  (items (mergePeriods h (trickModeTrackEnabled this)
                                       (_store this) periods))).
  destruct (notifyAll _) as [store out]. cbn [fst] in Hn.
  cbv zeta. cbn [after _store]. rewrite Hn. exact H.
Qed.

(** ** After [resetSubjects] *)

(** A record without any subject. *)
Definition noSubject (periodItem : ITMPeriodInfos) : Prop :=
  forall type, TrackChoiceManager.subject (trackOf type periodItem) = None.

Lemma resetSubjects_noSubject (this : manager) :
  Forall noSubject (_store (resetSubjects this)).
Proof.
  unfold resetSubjects. cbn [_store withStore].
  apply Forall_forall. intros x Hx. apply in_map_iff in Hx.
  destruct Hx as (o & <- & _). intros []; reflexivity.
Qed.

Lemma getPeriodItemFrom_In h periodId (store : list ITMPeriodInfos) :
  forall k i periodItem,
    getPeriodItemFrom h k store periodId = Some (i, periodItem) ->
    In periodItem store.
Proof.
  induction store as [|x rest IH]; intros k i periodItem H; [discriminate|].
  cbn [getPeriodItemFrom] in H.
  destruct (String.eqb _ _); [injection H as _ <-; now left|].
  right. now apply (IH (S k) i).
Qed.

Lemma noSubject_reconcileTrack h trick type (item : tagged) :
  noSubject (fst item) -> noSubject (fst (reconcileTrack h trick type item)).
Proof.
  destruct item as [periodItem tags]. unfold reconcileTrack. cbn [fst].
  intro Hn.
  destruct (wantedTrack (trackOf type periodItem)); [|exact Hn].
  destruct (stillHere _ _); [exact Hn|].
  cbn [fst]. intro type'. specialize (Hn type').
  destruct type, type'; cbn in *; exact Hn.
Qed.

Lemma noSubject_mergePeriods h trick (olds : list ITMPeriodInfos) :
  forall periods,
    Forall noSubject olds ->
    Forall (fun item => noSubject (fst item))
           (items (mergePeriods h trick olds periods)).
Proof.
  assert (Hgen : forall periods added,
             generateAll h trick periods = Some added ->
             Forall (fun item : tagged => noSubject (fst item)) added).
  { induction periods as [|p rest IH]; intros added H.
    - injection H as <-. constructor.
    - cbn [generateAll] in H.
      destruct (generatePeriodInfo h trick p true) as [info|] eqn:E; [|discriminate].
      destruct (generateAll h trick rest) as [infos|]; [|discriminate].
      injection H as <-. constructor; [|now apply IH].
      intro type. now destruct (generatePeriodInfo_fresh _ _ _ _ _ E) as (_ & _ & Hf);
                    destruct (Hf type). }
  assert (Hretire : forall old, noSubject old ->
             Forall (fun item : tagged => noSubject (fst item)) (retire old)).
  { intros old Hn. unfold retire. destruct (isPeriodItemRemovable _); constructor;
      [|constructor].
    intro type. specialize (Hn type). destruct type; exact Hn. }
  induction olds as [|old olds IHo]; intros periods Hall.
  - rewrite mergePeriods_nil.
    destruct (generateAll h trick periods) as [added|] eqn:E; cbn [items];
      [now apply (Hgen periods) | constructor].
  - inversion Hall as [|? ? Hold Hall']; subst.
    induction periods as [|newPeriod periods IHp].
    + rewrite mergePeriods_cons_nil. cbn [items consItems].
      apply Forall_app. split; [now apply Hretire | now apply IHo].
    + rewrite mergePeriods_cons_cons.
      destruct (Nat.eqb (period old) newPeriod).
      * cbn [items consItems]. apply Forall_app. split; [|now apply IHo].
        constructor; [|constructor]. unfold reconcile.
        now repeat apply noSubject_reconcileTrack.
      * destruct (Qle_bool _ _).
        -- cbn [items consItems]. apply Forall_app.
           split; [now apply Hretire | now apply IHo].
        -- destruct (generatePeriodInfo h trick newPeriod true) as [info|] eqn:E.
           ++ cbn [items consItems]. apply Forall_app. split; [|exact IHp].
              constructor; [|constructor]. intro type.
              now destruct (generatePeriodInfo_fresh _ _ _ _ _ E) as (_ & _ & Hf);
                destruct (Hf type).
           ++ cbn [items]. apply Forall_forall. intros x Hx.
              apply in_map_iff in Hx. destruct Hx as (o & <- & Ho). cbn [fst].
              rewrite Forall_forall in Hall. now apply Hall.
Qed.

Lemma notifyTracks_silent types :
  forall periodItem,
    noSubject periodItem -> notifyTracks types periodItem = (periodItem, []).
Proof.
  induction types as [|type rest IH]; intros periodItem Hn; [reflexivity|].
  cbn [notifyTracks]. unfold notifyTrack. rewrite (Hn type).
  now rewrite (IH periodItem Hn).
Qed.

Lemma notifyAll_silent (l : list tagged) :
  Forall (fun item => noSubject (fst item)) l -> snd (notifyAll l) = [].
Proof.
  induction 1 as [|[periodItem types] rest Hn Hrest IH]; [reflexivity|].
  cbn [notifyAll]. cbn [fst] in Hn. rewrite (notifyTracks_silent types _ Hn).
  destruct (notifyAll rest) as [store out]. cbn [snd] in *. now rewrite IH.
Qed.

(** X30: [resetSubjects] keeps the records, their Periods and their wanted
    tracks, and removes every subject; until a subject is added again,
    nothing is sent: neither by setting or disabling a track, nor by
    switching the trick-mode tracks, nor by [updatePeriodList]. *)
Theorem nothing_is_sent_after_resetSubjects (this : manager) :
  let reset := resetSubjects this in
  trickModeTrackEnabled reset = trickModeTrackEnabled this /\
  Forall2 (fun before after =>
             period after = period before /\
             inManifest after = inManifest before /\
             wantedTrackBase (videoInfo after) = wantedTrackBase (videoInfo before) /\
             forall type,
               wantedTrack (trackOf type after) = wantedTrack (trackOf type before) /\
               lastEmittedTrack (trackOf type after)
               = lastEmittedTrack (trackOf type before) /\
               TrackChoiceManager.subject (trackOf type after) = None)
          (_store this) (_store reset) /\
  (forall h periodId type wantedId,
      emitted (_setTrackById h reset periodId type wantedId) = []) /\
  (forall h periodId type, emitted (disableTrack h reset periodId type) = []) /\
  emitted (enableVideoTrickModeTracks reset) = [] /\
  emitted (disableVideoTrickModeTracks reset) = [] /\
  (forall h periods, emitted (updatePeriodList h reset periods) = []).
Proof.
  intro reset.
  assert (Hno := resetSubjects_noSubject this). fold reset in Hno.
  rewrite Forall_forall in Hno.
  split; [reflexivity|]. split.
  { unfold reset, resetSubjects. cbn [_store withStore].
    induction (_store this) as [|x rest IH]; constructor; [|exact IH].
    repeat split; destruct type; reflexivity. }
  split.
  { intros h periodId type wantedId. unfold _setTrackById.
    destruct (getPeriodItem h (_store reset) periodId) as [[i periodItem]|] eqn:Hget;
      [|reflexivity].
    assert (Hn : noSubject periodItem)
      by (apply Hno; now apply (getPeriodItemFrom_In h periodId _ 0 i)).
    destruct (find _ _) as [wantedAdaptation|]; [|reflexivity].
    cbv zeta.
    assert (Ha := Hn audio). assert (Hv := Hn video). assert (Ht := Hn text).
    cbn [trackOf] in Ha, Hv, Ht.
    destruct type; cbn [trackOf];
      [rewrite Ha | | rewrite Ht];
      try (destruct (sameChoice _ _); reflexivity).
    destruct (sameChoice (wantedTrackBase (videoInfo periodItem))
                         (Some wantedAdaptation));
      cbn [setWantedTrackBase videoInfo videoTrack]; rewrite Hv;
      destruct (sameChoice _ _); reflexivity. }
  split.
  { intros h periodId type. unfold disableTrack.
    destruct (getPeriodItem h (_store reset) periodId) as [[i periodItem]|] eqn:Hget;
      [|reflexivity].
    assert (Hn : noSubject periodItem)
      by (apply Hno; now apply (getPeriodItemFrom_In h periodId _ 0 i)).
    destruct type.
    - destruct (wantedTrack _); [|reflexivity]. now rewrite (Hn audio).
    - reflexivity.
    - destruct (wantedTrack _); [|reflexivity]. now rewrite (Hn text). }
  assert (Hswitch : forall trick,
             emitted (_resetVideoTrackChoices
                        {| _store := _store reset; trickModeTrackEnabled := trick |})
             = []).
  { intro trick. unfold _resetVideoTrackChoices. cbn [_store trickModeTrackEnabled].
    assert (H := resetVideoTrackChoices_spec (_store reset) trick).
    destruct (notifyVideo _) as [store' out]. destruct H as [_ ->].
    cbn [emitted]. clear -Hno.
    induction (_store reset) as [|x rest IH]; [reflexivity|].
    cbn [flat_map]. rewrite IH by (intros y Hy; apply Hno; now right).
    unfold videoEmission. now rewrite (Hno x (or_introl eq_refl) video). }
  split.
  { unfold enableVideoTrickModeTracks.
    destruct (trickModeTrackEnabled reset); [reflexivity | apply Hswitch]. }
  split.
  { unfold disableVideoTrickModeTracks.
    destruct (trickModeTrackEnabled reset); [apply Hswitch | reflexivity]. }
  intros h periods. unfold updatePeriodList.
  destruct (raised _); [reflexivity|].
  assert (H := notifyAll_silent
                 (items (mergePeriods h (trickModeTrackEnabled reset)
                                      (_store reset) periods))
                 (noSubject_mergePeriods h _ _ periods
                    (proj2 (Forall_forall _ _) Hno))).
  destruct (notifyAll _) as [store out]. exact H.
Qed.

(** ** Examples *)

(** On the store of the refresh scenario, the user picks [de] instead of
    [fr]: [de] is sent to the subject 7. *)
Lemma setTrackById_sets_the_track_witness :
  emitted (_setTrackById refreshedHeap frChosen "p1" audio "de-mp4a.40.2")
  = [(7%nat, Some de)] /\
  exists periodItem',
    getPeriodItem refreshedHeap
      (_store (after (_setTrackById refreshedHeap frChosen "p1" audio
                                    "de-mp4a.40.2"))) "p1"
    = Some (0%nat, periodItem') /\
    sameChoice (wantedTrack (trackOf audio periodItem')) (Some de) = true.
Proof.
  destruct (setTrackById_sets_the_track refreshedHeap frChosen "p1" "de-mp4a.40.2"
              audio 0%nat p1Item de eq_refl eq_refl)
    as (_ & _ & _ & periodItem' & Hget & _ & Hwanted & _ & _ & Hemitted).
  split; [exact Hemitted|]. exists periodItem'. split; [exact Hget | exact Hwanted].
Defined.

(** A store whose only record, for the Period [p1], wants [de] and has no
    subject yet. *)
Definition deItem : ITMPeriodInfos :=
  {| period := 1%nat; inManifest := true;
     audioInfo := {| wantedTrack := Some de; lastEmittedTrack := None;
                     subject := None |};
     textInfo := noTrack;
     videoInfo := {| wantedTrackBase := None; videoTrack := noTrack |};
     isRemoved := false |}.

Definition deWanted : manager :=
  {| _store := [deItem]; trickModeTrackEnabled := false |}.

Lemma subject_round_trip_witness :
  emitted (addTrackChoiceSubject refreshedHeap deWanted audio 1%nat 7%nat)
  = [(7%nat, Some de)] /\
  _store (after (removeTrackChoiceSubject
                   refreshedHeap
                   (after (addTrackChoiceSubject refreshedHeap deWanted audio
                                                 1%nat 7%nat))
                   audio 1%nat))
  = _store deWanted.
Proof.
  destruct (subject_round_trip refreshedHeap deWanted audio 1%nat 7%nat 8%nat
              0%nat deItem eq_refl eq_refl eq_refl)
    as (Hemitted & _ & _ & _ & _ & _ & _ & Hback).
  split; [exact Hemitted | exact (Hback eq_refl)].
Defined.

(** A manager that has not been given any Period yet. *)
Definition emptyManager : manager :=
  {| _store := []; trickModeTrackEnabled := false |}.

(** A manager with no Period yet, in trick mode. *)
Definition trickModeManager : manager :=
  {| _store := []; trickModeTrackEnabled := true |}.

(** The theorem on a Period with audio only: out of trick mode the default
    audio track is sent and the subject is not kept; in trick mode the call
    throws. *)
Lemma subject_of_unknown_period_is_not_kept_witness :
  getPeriodItem refreshedHeap (_store emptyManager) (p_id (refreshedHeap 1%nat))
  = None /\
  emitted (addTrackChoiceSubject refreshedHeap emptyManager audio 1%nat 7%nat)
  = [(7%nat, Some de)] /\
  after (removeTrackChoiceSubject
           refreshedHeap
           (after (addTrackChoiceSubject refreshedHeap emptyManager audio
                                         1%nat 7%nat))
           audio 1%nat)
  = after (addTrackChoiceSubject refreshedHeap emptyManager audio 1%nat 7%nat) /\
  addTrackChoiceSubject refreshedHeap trickModeManager audio 1%nat 7%nat
  = {| ending := Thrown "TypeError"; after := trickModeManager; emitted := [];
       warnings := [] |}.
Proof.
  split; [reflexivity|].
  destruct (subject_of_unknown_period_is_not_kept
              refreshedHeap emptyManager audio 1%nat 7%nat eq_refl)
    as (_ & _ & Hemitted & _ & _ & _ & Hafter & _).
  split; [exact Hemitted|]. split; [exact Hafter|].
  exact (proj2 (subject_of_unknown_period_is_not_kept
                  refreshedHeap trickModeManager audio 1%nat 7%nat eq_refl)).
Defined.

Lemma updatePeriodList_keeps_the_store_ordered_witness :
  sortedStore refreshedHeap (_store frChosen) /\
  sortedPeriods refreshedHeap [1%nat] /\
  map period (_store (after (updatePeriodList refreshedHeap frChosen [1%nat])))
  = [1%nat] /\
  startsInOrder refreshedHeap
    (map period (_store (after (updatePeriodList refreshedHeap frChosen [1%nat])))).
Proof.
  assert (Hso : sortedStore refreshedHeap (_store frChosen))
    by (repeat constructor).
  assert (Hsp : sortedPeriods refreshedHeap [1%nat]) by (repeat constructor).
  split; [exact Hso|]. split; [exact Hsp|]. split; [reflexivity|].
  exact (proj1 (updatePeriodList_keeps_the_store_ordered
                  refreshedHeap frChosen [1%nat] Hso Hsp eq_refl)).
Defined.

End TrackChoices.

(* ================================================================== *)
(** * Reloading the MediaSource after a track switch
    [reloadAfterSwitch], in [src/unnamed/part_004], which reads the current
    time and the observations of the playback observer *)

Module ReloadAfterSwitch.
Import TrackChoiceManager.

(** The arguments that [reloadAfterSwitch] gives to
    [EVENTS.needsMediaSourceReload], from which that function, which is not
    part of the sources at hand, builds the event. *)
Record INeedsMediaSourceReload := {
  reload_period : Period;
  reload_position : Q;
  reload_autoPlay : bool
}.

(** The function mapped over the observations by [reloadAfterSwitch]:
    [currentTime] is what [playbackObserver.getCurrentTime()] returns when the
    observation is received, [isPaused] the field of the observation. *)
Definition reloadAfterSwitch (period : Period) (deltaPos : Q)
           (currentTime : Q) (isPaused : bool) : INeedsMediaSourceReload :=
  if Qlt_bool currentTime (p_start period)
     || match p_end period with
        | Some periodEnd => Qlt_bool periodEnd currentTime
        | None => false
        end
  then {| reload_period := period;
          reload_position := currentTime;
          reload_autoPlay := negb isPaused |}
  else
    let pos := currentTime + deltaPos in
    let reloadAt :=
      match p_end period with
      | Some periodEnd => Math_min (Math_max (p_start period) pos) periodEnd
      | None => Math_max (p_start period) pos (* [Math.min (x, Infinity)] *)
      end in
    {| reload_period := period;
       reload_position := reloadAt;
       reload_autoPlay := negb isPaused |}.

(** The current time is within the Period. *)
Definition isPlaying (period : Period) (currentTime : Q) : Prop :=
  p_start period <= currentTime /\
  match p_end period with
  | Some periodEnd => currentTime <= periodEnd
  | None => True
  end.

(** X29: the reload asked after a switch resumes playback exactly when the
    observation was not paused.  When the current time is outside the
    Period, the position to reload at is the current time.  When it is
    within the Period, the position is within the Period too, is
    [currentTime + deltaPos] when that is within the Period, and is never
    further from the current time than [deltaPos]. *)
Theorem reload_position_is_bound_to_the_period
        (period : Period) (deltaPos currentTime : Q) (isPaused : bool) :
  let reload := reloadAfterSwitch period deltaPos currentTime isPaused in
  reload_autoPlay reload = negb isPaused /\
  (~ isPlaying period currentTime -> reload_position reload = currentTime) /\
  (isPlaying period currentTime ->
   isPlaying period (reload_position reload) /\
   (isPlaying period (currentTime + deltaPos) ->
    reload_position reload = currentTime + deltaPos) /\
   Qabs (reload_position reload - currentTime) <= Qabs deltaPos).
Proof.
  cbv zeta. unfold reloadAfterSwitch, isPlaying.
  destruct (Qlt_bool currentTime (p_start period)) eqn:Es.
  { apply Qlt_bool_iff in Es. cbn. split; [reflexivity|].
    split; [reflexivity|]. intros [H _]. lra. }
  apply Qlt_bool_false in Es. cbn [orb].
  assert (Hclamp : forall lo x, lo <= currentTime ->
             lo <= Math_max lo x /\
             (lo <= x -> Math_max lo x = x) /\
             Qabs (Math_max lo x - currentTime) <= Qabs (x - currentTime)).
  { intros lo x Hlo. unfold Math_max. destruct (Qle_bool lo x) eqn:E.
    - apply Qle_bool_iff in E. repeat split; auto; apply Qle_refl.
    - apply Qle_bool_false in E. repeat split.
      + apply Qle_refl.
      + intro H. lra.
      + rewrite (Qabs_neg (lo - currentTime)) by lra.
        rewrite (Qabs_neg (x - currentTime)) by lra. lra. }
  assert (Hdelta : currentTime + deltaPos - currentTime == deltaPos) by ring.
  destruct (p_end period) as [periodEnd|].
  - destruct (Qlt_bool periodEnd currentTime) eqn:Ee.
    { apply Qlt_bool_iff in Ee. cbn. split; [reflexivity|].
      split; [reflexivity|]. intros [_ H]. lra. }
    apply Qlt_bool_false in Ee. cbn [reload_autoPlay reload_position].
    split; [reflexivity|]. split; [intro H; exfalso; apply H; split; assumption|].
    intros _.
    destruct (Hclamp (p_start period) (currentTime + deltaPos) Es)
      as (H1 & H2 & H3).
    rewrite Hdelta in H3.
    set (m := Math_max (p_start period) (currentTime + deltaPos)) in *.
    unfold Math_min. destruct (Qle_bool m periodEnd) eqn:E.
    + apply Qle_bool_iff in E. repeat split; try assumption.
      intros [Hlo _]. now apply H2.
    + apply Qle_bool_false in E. repeat split.
      * lra.
      * apply Qle_refl.
      * intros [Hlo Hhi]. rewrite (H2 Hlo) in E. lra.
      * eapply Qle_trans; [|exact H3].
        rewrite (Qabs_pos (periodEnd - currentTime)) by lra.
        rewrite (Qabs_pos (m - currentTime)) by lra. lra.
  - cbn [reload_autoPlay reload_position].
    split; [reflexivity|]. split; [intro H; exfalso; apply H; split; [assumption | exact I]|].
    intros _.
    destruct (Hclamp (p_start period) (currentTime + deltaPos) Es)
      as (H1 & H2 & H3).
    rewrite Hdelta in H3.
    repeat split; try assumption. intros [Hlo _]. now apply H2.
Qed.

End ReloadAfterSwitch.
